(** * Jorvis / laoshi.py: audio cache, vocabulary store and drill sessions

    A shallow embedding of [src/laoshi.py].  Python strings are sequences
    of Unicode code points; the disk is a finite map from path strings to
    file contents; the text-to-speech endpoint, the outcome of disk
    writes and deletions, the keyboard, the audio player and the random
    generator are oracles that the program consumes in call order. *)

From Stdlib Require Import Ascii String QArith.
From stdpp Require Import gmap list pretty.

Open Scope Z_scope.
Open Scope nat_scope.

(** ** Strings *)

(** A Python [str]: a list of code points.  [bytes] objects are modelled
    the same way. *)
Abbreviation str := (list N).
Abbreviation bytes := (list N).

Definition lit (s : string) : str :=
  (λ a, N_of_ascii a) <$> list_ascii_of_string s.

Definition str_eqb (a b : str) : bool := bool_decide (a = b).

(** Python truthiness of a value read with [dict.get]: [None] and the
    empty string are falsy. *)
Definition truthy (o : option str) : bool :=
  match o with
  | Some (_ :: _) => true
  | _ => false
  end.

Definition nonempty (b : list N) : bool :=
  match b with [] => false | _ => true end.

(** [needle in haystack] for strings. *)
Fixpoint starts_with (needle hay : str) : bool :=
  match needle, hay with
  | [], _ => true
  | _ :: _, [] => false
  | a :: n', b :: h' => N.eqb a b && starts_with n' h'
  end.

Fixpoint contains (needle hay : str) : bool :=
  starts_with needle hay ||
  match hay with
  | [] => false
  | _ :: h' => contains needle h'
  end.

(** [str(n)] for a non-negative counter. *)
Definition str_of_nat (n : nat) : str := lit (pretty n).

(** ** Configuration constants *)

Definition DEFAULT_KOKORO_SPEED : Q := 1.
Definition SLOWER_KOKORO_SPEED : Q := 7 # 10.
Definition EXTRA_SLOW_KOKORO_SPEED : Q := 5 # 10.

Definition DEFAULT_SPEED_SUFFIX : str := Eval cbv in lit "_default".
Definition SLOWER_SPEED_SUFFIX : str := Eval cbv in lit "_slow".
Definition EXTRA_SLOW_SPEED_SUFFIX : str := Eval cbv in lit "_slower".

Record SpeedConf := mkSpeedConf { value : Q; suffix : str }.

Definition SPEED_CONFIGURATIONS : list SpeedConf :=
  [ mkSpeedConf EXTRA_SLOW_KOKORO_SPEED EXTRA_SLOW_SPEED_SUFFIX;
    mkSpeedConf SLOWER_KOKORO_SPEED SLOWER_SPEED_SUFFIX;
    mkSpeedConf DEFAULT_KOKORO_SPEED DEFAULT_SPEED_SUFFIX ].

Definition SLASH : N := 47.
Definition DOT : N := 46.
Definition MP3 : str := Eval cbv in lit ".mp3".

Definition AUDIO_DIR : str := Eval cbv in lit "audio".

(** ** [os.path] (POSIX flavour) *)

(** [os.path.join a b]. *)
Definition path_join (a b : str) : str :=
  if starts_with [SLASH] b then b
  else match last a with
       | None => b
       | Some c => if N.eqb c SLASH then a ++ b else a ++ SLASH :: b
       end.

Definition AUDIO_CHAR_DIR : str := Eval cbv in path_join AUDIO_DIR (lit "characters").
Definition AUDIO_PRO_DIR : str := Eval cbv in path_join AUDIO_DIR (lit "pro").
Definition VOCAB_FILE : str := Eval cbv in lit "vocabulary.csv".
Definition SENTENCES_FILE : str := Eval cbv in lit "sentences.csv".

(** [p.rfind(c)] for a single character: the last index of [c], or -1. *)
Fixpoint rfind_from (i : Z) (acc : Z) (c : N) (p : str) : Z :=
  match p with
  | [] => acc
  | x :: p' => rfind_from (i + 1) (if N.eqb x c then i else acc) c p'
  end.

Definition rfind (p : str) (c : N) : Z := rfind_from 0 (-1) c p.

(** [os.path.splitext p]: the extension starts at the last dot of the
    last path component, leading dots of that component not counting. *)
Definition splitext (p : str) : str * str :=
  let sepIndex := rfind p SLASH in
  let dotIndex := rfind p DOT in
  if (sepIndex <? dotIndex)%Z then
    let filenameIndex := Z.to_nat (sepIndex + 1) in
    let leading := take (Z.to_nat dotIndex - filenameIndex) (drop filenameIndex p) in
    if forallb (N.eqb DOT) leading then (p, [])
    else (take (Z.to_nat dotIndex) p, drop (Z.to_nat dotIndex) p)
  else (p, []).

(** [base_name_no_ext, ext = os.path.splitext(name); if not ext: ext = ".mp3"]. *)
Definition split_audio_name (name : str) : str * str :=
  let '(base_name_no_ext, ext) := splitext name in
  (base_name_no_ext, if nonempty ext then ext else MP3).

(** [f"{base_name_no_ext}{suffix}{ext}"] under directory [dir]. *)
Definition variant_path (dir : str) (name : str) (sfx : str) : str :=
  let '(base_name_no_ext, ext) := split_audio_name name in
  path_join dir (base_name_no_ext ++ sfx ++ ext).

(** ** Library tables

    What [laoshi.py] takes from the Python runtime and is no part of the
    repository: the Unicode character classes and lower-casing outside
    ASCII, and the [csv] writer's rendering of one row (with its line
    terminator). *)
Class Lib := mkLib {
  unicode_isalnum : N → bool;
  unicode_isspace : N → bool;
  unicode_lower : N → str;
  csv_line : list str → str
}.

(** The [csv] module's default ("excel") dialect: a field is quoted when
    it holds a comma, a quote or a line break; quotes are doubled; the
    row ends in CR LF. *)
Definition csv_needs_quote (f : str) : bool :=
  existsb (λ c, N.eqb c 44 || N.eqb c 34 || N.eqb c 13 || N.eqb c 10)%N f.

Definition csv_field (f : str) : str :=
  if csv_needs_quote f
  then 34%N :: (f ≫= λ c, if N.eqb c 34 then [34; 34]%N else [c]) ++ [34%N]
  else f.

Fixpoint csv_join (fs : list str) : str :=
  match fs with
  | [] => []
  | [f] => csv_field f
  | f :: fs' => csv_field f ++ 44%N :: csv_join fs'
  end.

Definition excel_csv_line (fs : list str) : str := csv_join fs ++ [13; 10]%N.

(** A runtime that knows ASCII only: every other code point is a letter
    that is its own lower case, as the CJK ideographs are. *)
Definition ascii_lib : Lib :=
  mkLib (λ _, true) (λ _, false) (λ c, [c]) excel_csv_line.

(** What a session did, for the statements about it. *)
Inductive SessionEvent (E : Type) :=
| Shuffled
| Reached (e : E)          (* the loop body started on this entry *)
| Presented (e : E)        (* the listening prompt was shown for it *)
| Played (path : str) (ok : bool)   (* [playsound(path)] was called *)
| NothingToPlay            (* no file: "Cannot play audio." *)
| Revealed (e : E).

Arguments Shuffled {E}.
Arguments Reached {E} e.
Arguments Presented {E} e.
Arguments Played {E} path ok.
Arguments NothingToPlay {E}.
Arguments Revealed {E} e.

Section Model.
Context `{!Lib}.

Definition in_range (lo hi c : N) : bool := (N.leb lo c && N.leb c hi)%N.

(** [c.isalnum()] *)
Definition isalnum (c : N) : bool :=
  if (c <? 128)%N
  then in_range 48 57 c || in_range 65 90 c || in_range 97 122 c
  else unicode_isalnum c.

(** [c.isspace()] *)
Definition isspace (c : N) : bool :=
  if (c <? 128)%N
  then in_range 9 13 c || in_range 28 32 c
  else unicode_isspace c.

(** [s.lower()] *)
Definition lower_char (c : N) : str :=
  if (c <? 128)%N
  then (if in_range 65 90 c then [(c + 32)%N] else [c])
  else unicode_lower c.

Definition lower (s : str) : str := s ≫= lower_char.

(** [s.rstrip()], [s.lstrip()], [s.strip()] *)
Fixpoint lstrip (s : str) : str :=
  match s with
  | c :: s' => if isspace c then lstrip s' else s
  | [] => []
  end.

Definition rstrip (s : str) : str := reverse (lstrip (reverse s)).
Definition strip (s : str) : str := rstrip (lstrip s).

(** [s.split(sep)] for a one-character separator. *)
Fixpoint split_on (sep : N) (s : str) : list str :=
  match s with
  | [] => [[]]
  | c :: s' =>
      if N.eqb c sep then [] :: split_on sep s'
      else match split_on sep s' with
           | [] => [[c]]
           | p :: ps => (c :: p) :: ps
           end
  end.

(** [name.replace(" ", "_")] *)
Definition replace_space (name : str) : str :=
  (λ c, if N.eqb c 32 then 95%N else c) <$> name.

(** [sanitize_filename] *)
Definition sanitize_filename (name : str) : str :=
  let name := replace_space name in
  rstrip (filter (λ c, isalnum c || N.eqb c 95 || N.eqb c 45 = true) name).

(** ** The world *)

(** One reply of the speech endpoint to [requests.post]. *)
Inductive HttpResult :=
| RequestException
| Reply (status_code : Z) (content_type : option str) (content : bytes).

(** What [open(path, "wb")] followed by [f.write(data)] did: the whole
    file written, or an exception, raised either by [open] (nothing is
    left, [None]) or by the write after [open] had created or truncated
    the file ([Some] of what reached the disk). *)
Inductive WriteOutcome :=
| WriteOk
| WriteFails (left_behind : option bytes).

Inductive Event :=
| EvExists (path : str) (present : bool)
| EvTts (text : str) (speed : Q) (audio : option bytes)
| EvWrite (path : str) (outcome : WriteOutcome)
| EvRemove (path : str) (removed : bool)
| EvAppend (file : str) (row : list str) (saved : bool).

Record World := mkWorld {
  fs : gmap str bytes;          (* files on disk *)
  http : list HttpResult;       (* replies of the endpoint, in call order *)
  writes : list WriteOutcome;   (* outcomes of audio file writes *)
  removes : list bool;          (* [os.remove]: done, or [OSError] *)
  appends : list bool;          (* CSV appends: done, or an exception *)
  log : list Event              (* what was done, oldest first *)
}.

Definition IO (A : Type) : Type := World → A * World.

#[global] Instance IO_ret : MRet IO := λ A x w, (x, w).
#[global] Instance IO_bind : MBind IO :=
  λ A B f m w, let '(a, w') := m w in f a w'.

Definition emit (e : Event) : IO unit := λ w,
  (tt, mkWorld (fs w) (http w) (writes w) (removes w) (appends w) (log w ++ [e])).

Definition set_fs (f : gmap str bytes) : IO unit := λ w,
  (tt, mkWorld f (http w) (writes w) (removes w) (appends w) (log w)).

Definition get_fs : IO (gmap str bytes) := λ w, (fs w, w).

(** The next reply of the endpoint; an endpoint that has nothing more to
    say is unreachable. *)
Definition next_http : IO HttpResult := λ w,
  match http w with
  | [] => (RequestException, w)
  | r :: rs => (r, mkWorld (fs w) rs (writes w) (removes w) (appends w) (log w))
  end.

Definition next_write : IO WriteOutcome := λ w,
  match writes w with
  | [] => (WriteOk, w)
  | r :: rs => (r, mkWorld (fs w) (http w) rs (removes w) (appends w) (log w))
  end.

Definition next_remove : IO bool := λ w,
  match removes w with
  | [] => (true, w)
  | r :: rs => (r, mkWorld (fs w) (http w) (writes w) rs (appends w) (log w))
  end.

Definition next_append : IO bool := λ w,
  match appends w with
  | [] => (true, w)
  | r :: rs => (r, mkWorld (fs w) (http w) (writes w) (removes w) rs (log w))
  end.

(** [os.path.exists(path)] *)
Definition path_exists (path : str) : IO bool :=
  f ← get_fs;
  let present := bool_decide (is_Some (f !! path)) in
  _ ← emit (EvExists path present);
  mret present.

(** [with open(path, "wb") as f: f.write(data)]; [true] when no exception
    was raised. *)
Definition write_file (path : str) (data : bytes) : IO bool :=
  o ← next_write;
  f ← get_fs;
  _ ← emit (EvWrite path o);
  match o with
  | WriteOk => _ ← set_fs (<[path := data]> f); (mret true : IO bool)
  | WriteFails None => mret false
  | WriteFails (Some part) => _ ← set_fs (<[path := part]> f); mret false
  end.

(** [os.remove(path)]; [false] stands for [OSError]. *)
Definition remove_file (path : str) : IO bool :=
  ok ← next_remove;
  f ← get_fs;
  _ ← emit (EvRemove path ok);
  if (ok : bool) then _ ← set_fs (delete path f); mret true else mret false.

Record Args := mkArgs {
  debug : bool;
  kokoro_voice : str;
  kokoro_lang : str;
  kokoro_speed : Q
}.

(** ** Speech synthesis client *)

Definition AUDIO_MPEG : str := Eval cbv in lit "audio/mpeg".
Definition OCTET_STREAM : str := Eval cbv in lit "application/octet-stream".

(** What [generate_tts_audio] returns for one reply of the endpoint. *)
Definition audio_of_reply (r : HttpResult) : option bytes :=
  match r with
  | RequestException => None
  | Reply status_code header content =>
      if (status_code =? 200)%Z then
        let content_type := lower (default [] header) in
        if contains AUDIO_MPEG content_type
           || contains OCTET_STREAM content_type
           || negb (nonempty content_type)
        then Some content
        else None
      else None
  end.

(** [generate_tts_audio] *)
Definition generate_tts_audio (text_input voice lang_code : str) (speed : Q)
    (debug_mode : bool) : IO (option bytes) :=
  r ← next_http;
  let audio := audio_of_reply r in
  _ ← emit (EvTts text_input speed audio);
  mret audio.

(** [if audio_data:] *)
Definition audio_ok (audio_data : option bytes) : bool :=
  match audio_data with
  | Some (_ :: _) => true
  | _ => false
  end.

(** ** Vocabulary store *)

(** One row of [vocabulary.csv] as [load_vocab] returns it: a field the
    row lacks reads as [None]. *)
Record VocabEntry := mkVocab {
  character : option str;
  pinyin : option str;
  character_meaning : option str;
  audio_file_name : option str
}.

(** One row of [sentences.csv] as [load_sentences] returns it. *)
Record SentenceEntry := mkSentence {
  sentence_text : option str;
  sentence_audio_file_name : option str
}.

Definition VOCAB_FIELDS : list str :=
  Eval cbv in [lit "character"; lit "pinyin"; lit "character_meaning"; lit "audio_file_name"].
Definition SENTENCES_FIELDS : list str :=
  Eval cbv in [lit "sentence_text"; lit "audio_file_name"].

(** The body shared by [save_vocab_entry] and [save_sentence_entry]:
    [open(file, 'a')], the header when the file was absent or is empty,
    then the row.  An exception leaves the file as it was. *)
Definition append_row (file : str) (fieldnames row : list str) : IO unit :=
  file_exists ← path_exists file;
  ok ← next_append;
  _ ← emit (EvAppend file row ok);
  if (ok : bool) then
    f ← get_fs;
    let old := default [] (f !! file) in
    let header :=
      if negb file_exists || bool_decide (length old = 0)
      then csv_line fieldnames else [] in
    set_fs (<[file := old ++ header ++ csv_line row]> f)
  else mret tt.

(** [save_vocab_entry] *)
Definition save_vocab_entry (character pinyin character_meaning audio_file_name : str)
    (debug_mode : bool) : IO unit :=
  append_row VOCAB_FILE VOCAB_FIELDS
    [character; pinyin; character_meaning; audio_file_name].

(** [save_sentence_entry] *)
Definition save_sentence_entry (sentence_text audio_file_name : str)
    (debug_mode : bool) : IO unit :=
  append_row SENTENCES_FILE SENTENCES_FIELDS [sentence_text; audio_file_name].

(** ** Audio cache: the startup sweep *)

(** [speeds_to_generate], in the dictionary's insertion order. *)
Definition speeds_to_generate (args : Args) : list (str * Q) :=
  [ (DEFAULT_SPEED_SUFFIX, kokoro_speed args);
    (SLOWER_SPEED_SUFFIX, SLOWER_KOKORO_SPEED);
    (EXTRA_SLOW_SPEED_SUFFIX, EXTRA_SLOW_KOKORO_SPEED) ].

Record Counters := mkCounters {
  items_all_speeds_found : nat;
  items_had_missing_speeds : nat;
  individual_files_generated : nat;
  individual_files_failed_generation : nat;
  skipped_incomplete_csv : nat
}.

Definition no_counts : Counters := mkCounters 0 0 0 0 0.

(** The variables of one iteration of the sweep's outer loop. *)
Record ItemState := mkItem {
  counts : Counters;
  all_speeds_present_for_this_item : bool;
  generation_attempted_for_this_item : bool
}.

Definition count_generated (c : Counters) : Counters :=
  mkCounters (items_all_speeds_found c) (items_had_missing_speeds c)
    (S (individual_files_generated c)) (individual_files_failed_generation c)
    (skipped_incomplete_csv c).

Definition count_failed (c : Counters) : Counters :=
  mkCounters (items_all_speeds_found c) (items_had_missing_speeds c)
    (individual_files_generated c) (S (individual_files_failed_generation c))
    (skipped_incomplete_csv c).

Definition count_skipped (c : Counters) : Counters :=
  mkCounters (items_all_speeds_found c) (items_had_missing_speeds c)
    (individual_files_generated c) (individual_files_failed_generation c)
    (S (skipped_incomplete_csv c)).

Definition count_all_found (c : Counters) : Counters :=
  mkCounters (S (items_all_speeds_found c)) (items_had_missing_speeds c)
    (individual_files_generated c) (individual_files_failed_generation c)
    (skipped_incomplete_csv c).

Definition count_had_missing (c : Counters) : Counters :=
  mkCounters (items_all_speeds_found c) (S (items_had_missing_speeds c))
    (individual_files_generated c) (individual_files_failed_generation c)
    (skipped_incomplete_csv c).

(** A [for] loop over a list, threading the loop's variables. *)
Fixpoint for_each {A S : Type} (body : A → S → IO S) (l : list A) (s : S) : IO S :=
  match l with
  | [] => mret s
  | a :: l' => s' ← body a s; for_each body l' s'
  end.

(** The body of [for suffix, speed_value in speeds_to_generate.items()]
    in the sweep. *)
Definition ensure_speed (args : Args) (dir text name : str) (sv : str * Q)
    (st : ItemState) : IO ItemState :=
  let '(suffix, speed_value) := sv in
  let audio_path := variant_path dir name suffix in
  present ← path_exists audio_path;
  if (present : bool) then mret st
  else
    audio_data ← generate_tts_audio text (kokoro_voice args) (kokoro_lang args)
                   speed_value (debug args);
    if audio_ok audio_data then
      saved ← write_file audio_path (default [] audio_data);
      if (saved : bool)
      then mret (mkItem (count_generated (counts st)) false true)
      else mret (mkItem (count_failed (counts st)) false true)
    else mret (mkItem (count_failed (counts st)) false true).

(** The body of [for entry in vocab], on the entry's key field and
    [audio_file_name]. *)
Definition ensure_entry (args : Args) (dir : str) (e : option str * option str)
    (c : Counters) : IO Counters :=
  let '(key, base_audio_file_name) := e in
  if negb (truthy key) || negb (truthy base_audio_file_name) then
    mret (count_skipped c)
  else
    st ← for_each
           (ensure_speed args dir (default [] key) (default [] base_audio_file_name))
           (speeds_to_generate args) (mkItem c true false);
    if all_speeds_present_for_this_item st then mret (count_all_found (counts st))
    else if generation_attempted_for_this_item st
         then mret (count_had_missing (counts st))
         else mret (counts st).

(** The sweep over the loaded entries of one kind; [None] when the list
    is empty and no summary is printed. *)
Definition sweep (args : Args) (dir : str) (entries : list (option str * option str))
    : IO (option Counters) :=
  match entries with
  | [] => mret None
  | _ => c ← for_each (ensure_entry args dir) entries no_counts; mret (Some c)
  end.

(** [ensure_audio_files_exist], on what [load_vocab] returned. *)
Definition ensure_audio_files_exist (args : Args) (vocab : list VocabEntry)
    : IO (option Counters) :=
  sweep args AUDIO_CHAR_DIR ((λ e, (character e, audio_file_name e)) <$> vocab).

(** [ensure_sentence_audio_files_exist], on what [load_sentences] returned. *)
Definition ensure_sentence_audio_files_exist (args : Args)
    (sentences : list SentenceEntry) : IO (option Counters) :=
  sweep args AUDIO_PRO_DIR
    ((λ e, (sentence_text e, sentence_audio_file_name e)) <$> sentences).

(** The two sweeps as [main] runs them at startup. *)
Definition startup_sweep (args : Args) (vocab : list VocabEntry)
    (sentences : list SentenceEntry) : IO (option Counters * option Counters) :=
  r1 ← ensure_audio_files_exist args vocab;
  r2 ← ensure_sentence_audio_files_exist args sentences;
  mret (r1, r2).

(** ** Audio cache: interactive creation *)

Definition UNDERSCORE : N := 95.
Definition UNKNOWN_PINYIN : str := Eval cbv in lit "unknown_pinyin".

(** The [while final_base_audio_filename_for_csv in
    current_audio_filenames_in_csv] loop: [candidate counter] is the name
    tried after [counter - 1] clashes.  [fuel] bounds the iterations;
    [None] when it runs out. *)
Fixpoint probe (fuel : nat) (taken : list (option str)) (candidate : nat → str)
    (current : str) (counter : nat) : option str :=
  if bool_decide (Some current ∈ taken) then
    match fuel with
    | 0 => None
    | S fuel' => probe fuel' taken candidate (candidate counter) (S counter)
    end
  else Some current.

(** [f"{base_filename_sanitized}_{pinyin_sanitized}_{counter}.mp3"] *)
Definition word_candidate (base pinyin_sanitized : str) (counter : nat) : str :=
  base ++ UNDERSCORE :: pinyin_sanitized ++ UNDERSCORE :: str_of_nat counter ++ MP3.

(** [f"{base_filename_sanitized}_{counter}.mp3"] *)
Definition sentence_candidate (base : str) (counter : nat) : str :=
  base ++ UNDERSCORE :: str_of_nat counter ++ MP3.

(** The name stored for a new word: lines 418 to 427. *)
Definition word_filename (existing_vocab : list VocabEntry)
    (pinyin base_audio_name_idea : str) : option str :=
  let base_filename_sanitized := sanitize_filename base_audio_name_idea in
  let pinyin_sanitized :=
    if nonempty pinyin then sanitize_filename pinyin else UNKNOWN_PINYIN in
  let current_audio_filenames_in_csv := audio_file_name <$> existing_vocab in
  probe (S (length existing_vocab)) current_audio_filenames_in_csv
    (word_candidate base_filename_sanitized pinyin_sanitized)
    (base_filename_sanitized ++ MP3) 1.

(** The name stored for a new sentence: lines 530 to 536. *)
Definition sentence_filename (existing_sentences : list SentenceEntry)
    (base_audio_name_idea : str) : option str :=
  let base_filename_sanitized := sanitize_filename base_audio_name_idea in
  let current_audio_filenames_in_csv :=
    sentence_audio_file_name <$> existing_sentences in
  probe (S (length existing_sentences)) current_audio_filenames_in_csv
    (sentence_candidate base_filename_sanitized)
    (base_filename_sanitized ++ MP3) 1.

(** The [for suffix, speed_value in speeds_to_generate.items()] loop of
    the interactive flows, with its [break]s: the flag
    [all_speeds_generated_successfully] and [generated_paths_for_this_item]. *)
Fixpoint generate_all (args : Args) (dir text name : str) (speeds : list (str * Q))
    (generated_paths_for_this_item : list str) : IO (bool * list str) :=
  match speeds with
  | [] => mret (true, generated_paths_for_this_item)
  | (suffix, speed_value) :: rest =>
      let audio_filepath := variant_path dir name suffix in
      audio_data ← generate_tts_audio text (kokoro_voice args) (kokoro_lang args)
                     speed_value (debug args);
      if audio_ok audio_data then
        saved ← write_file audio_filepath (default [] audio_data);
        if (saved : bool)
        then generate_all args dir text name rest
               (generated_paths_for_this_item ++ [audio_filepath])
        else mret (false, generated_paths_for_this_item)
      else mret (false, generated_paths_for_this_item)
  end.

(** [for path_to_delete in generated_paths_for_this_item]: remove what
    exists; an [OSError] is reported and the loop goes on. *)
Definition remove_if_exists (path_to_delete : str) : IO unit :=
  present ← path_exists path_to_delete;
  if (present : bool)
  then _ ← remove_file path_to_delete; mret tt
  else mret tt.

Definition cleanup (generated_paths_for_this_item : list str) : IO unit :=
  for_each (λ path_to_delete (_ : unit), remove_if_exists path_to_delete)
           generated_paths_for_this_item tt.

(** What became of one entry of an input line. *)
Inductive EntryResult :=
| BadFormat
| Duplicate
| Added (stored_name : str)
| NotSaved (chosen_name : str)
| Unnamed.   (* the naming loop ran out of fuel *)

(** The body of [for entry_str in entries_on_line] in
    [update_word_vocab_interactive]. *)
Definition add_word (args : Args) (entry_str : str) (existing_vocab : list VocabEntry)
    : IO (EntryResult * list VocabEntry) :=
  match strip <$> split_on 124 entry_str with
  | [char; pinyin; character_meaning; base_audio_name_idea] =>
      if existsb (λ voc_entry, bool_decide (character voc_entry = Some char))
           existing_vocab
      then mret (Duplicate, existing_vocab)
      else
        match word_filename existing_vocab pinyin base_audio_name_idea with
        | None => mret (Unnamed, existing_vocab)
        | Some final_base_audio_filename_for_csv =>
            '(all_speeds_generated_successfully, generated_paths_for_this_item) ←
              generate_all args AUDIO_CHAR_DIR char final_base_audio_filename_for_csv
                (speeds_to_generate args) [];
            if (all_speeds_generated_successfully : bool) then
              _ ← save_vocab_entry char pinyin character_meaning
                    final_base_audio_filename_for_csv (debug args);
              mret (Added final_base_audio_filename_for_csv,
                    existing_vocab ++
                      [mkVocab (Some char) (Some pinyin) (Some character_meaning)
                         (Some final_base_audio_filename_for_csv)])
            else
              _ ← cleanup generated_paths_for_this_item;
              mret (NotSaved final_base_audio_filename_for_csv, existing_vocab)
        end
  | _ => mret (BadFormat, existing_vocab)
  end.

(** The body of [for entry_str in entries_on_line] in
    [update_sentence_vocab_interactive]. *)
Definition add_sentence (args : Args) (entry_str : str)
    (existing_sentences : list SentenceEntry)
    : IO (EntryResult * list SentenceEntry) :=
  match strip <$> split_on 124 entry_str with
  | [text; base_audio_name_idea] =>
      if existsb (λ sent_entry, bool_decide (sentence_text sent_entry = Some text))
           existing_sentences
      then mret (Duplicate, existing_sentences)
      else
        match sentence_filename existing_sentences base_audio_name_idea with
        | None => mret (Unnamed, existing_sentences)
        | Some final_base_audio_filename_for_csv =>
            '(all_speeds_generated_successfully, generated_paths_for_this_item) ←
              generate_all args AUDIO_PRO_DIR text
                final_base_audio_filename_for_csv (speeds_to_generate args) [];
            if (all_speeds_generated_successfully : bool) then
              _ ← save_sentence_entry text
                    final_base_audio_filename_for_csv (debug args);
              mret (Added final_base_audio_filename_for_csv,
                    existing_sentences ++
                      [mkSentence (Some text)
                         (Some final_base_audio_filename_for_csv)])
            else
              _ ← cleanup generated_paths_for_this_item;
              mret (NotSaved final_base_audio_filename_for_csv, existing_sentences)
        end
  | _ => mret (BadFormat, existing_sentences)
  end.

(** What [Prompt.ask] gave: a line, or [EOFError] / [KeyboardInterrupt]. *)
Inductive PromptResult :=
| Typed (line : str)
| Interrupted.

(** [entries_on_line = [e.strip() for e in line.split(';') if e.strip()]] *)
Definition entries_on_line (user_input_line : str) : list str :=
  filter (λ e, nonempty e = true) (strip <$> split_on 59 user_input_line).

Definition is_done (user_input_line : str) : bool :=
  let l := lower user_input_line in
  bool_decide (l ∈ [lit "done"; lit "exit"; lit "quit"]).

(** The [while True] loop of the interactive flows over what the user
    types; input that ends is an [EOFError].  The loop's variable is the
    in-memory list of entries; [add] is the body for one entry. *)
Fixpoint interactive_loop {E : Type} (add : str → list E → IO (EntryResult * list E))
    (inputs : list PromptResult) (existing : list E) : IO (list E) :=
  match inputs with
  | [] | Interrupted :: _ => mret existing
  | Typed line :: rest =>
      let user_input_line := strip line in
      if is_done user_input_line then mret existing
      else
        existing' ← for_each (λ entry_str ex, r ← add entry_str ex; mret r.2)
                      (entries_on_line user_input_line) existing;
        interactive_loop add rest existing'
  end.

(** [update_word_vocab_interactive], on what [load_vocab] returned. *)
Definition update_word_vocab_interactive (args : Args) (loaded : list VocabEntry)
    (inputs : list PromptResult) : IO (list VocabEntry) :=
  interactive_loop (add_word args) inputs loaded.

(** [update_sentence_vocab_interactive], on what [load_sentences] returned. *)
Definition update_sentence_vocab_interactive (args : Args)
    (loaded : list SentenceEntry) (inputs : list PromptResult)
    : IO (list SentenceEntry) :=
  interactive_loop (add_sentence args) inputs loaded.

(** ** Quiz sessions *)

(** [random.shuffle(x)] as CPython does it, from the last index down:
    [j = randbelow(i + 1); x[i], x[j] = x[j], x[i]].  The draws come from
    the random generator, one per index. *)
Definition swap {A : Type} (i j : nat) (x : list A) : list A :=
  match x !! i, x !! j with
  | Some xi, Some xj => <[j := xi]> (<[i := xj]> x)
  | _, _ => x
  end.

Fixpoint shuffle_from {A : Type} (i : nat) (draws : list nat) (x : list A) : list A :=
  match i with
  | 0 => x
  | S i' =>
      let j := hd 0 draws `mod` S i in
      shuffle_from i' (tl draws) (swap i j x)
  end.

Definition shuffle {A : Type} (draws : list nat) (x : list A) : list A :=
  shuffle_from (length x - 1) draws x.

(** What the surroundings answer while a session takes one step: the key
    [readchar.readkey()] returns ([None]: [KeyboardInterrupt]), the line
    [Prompt.ask] returns, the answer to [Confirm.ask], whether
    [playsound] returns normally, and the generator's draws. *)
Record Tick := mkTick {
  key : option str;
  prompt : PromptResult;
  answer : bool;
  plays : bool;
  draws : list nat
}.

(** [readchar.key] on POSIX terminals. *)
Definition KEY_LEFT : str := [27; 91; 68]%N.
Definition KEY_RIGHT : str := [27; 91; 67]%N.
Definition KEY_ENTER : str := [10]%N.
Definition KEY_SPACE : str := [32]%N.

(** [[i for i, conf in enumerate(SPEED_CONFIGURATIONS)
      if conf["value"] == DEFAULT_KOKORO_SPEED]] *)
Definition default_speed_indices : list nat :=
  omap (λ ic, if Qeq_bool (value ic.2) DEFAULT_KOKORO_SPEED then Some ic.1 else None)
       (imap (λ i conf, (i, conf)) SPEED_CONFIGURATIONS).

(** The closure [play_current_sentence_audio] of [run_dictation_pro], on
    the disk, the item's [audio_file_name] and the speed index of the
    moment: the file handed to [playsound], if any, and the value
    returned.  An [IndexError] is [None]. *)
Definition play_current_sentence_audio (disk : gmap str bytes)
    (base_audio_file_name : str) (current_speed_index : Z) (plays : bool)
    : option (option str * bool) :=
  current_speed_config ← SPEED_CONFIGURATIONS !! Z.to_nat current_speed_index;
  let audio_path_for_play :=
    variant_path AUDIO_PRO_DIR base_audio_file_name (suffix current_speed_config) in
  if bool_decide (is_Some (disk !! audio_path_for_play))
  then Some (Some audio_path_for_play, plays)
  else
    default_speed_config_idx ← head default_speed_indices;
    default_conf ← SPEED_CONFIGURATIONS !! default_speed_config_idx;
    let audio_path_for_play :=
      variant_path AUDIO_PRO_DIR base_audio_file_name (suffix default_conf) in
    if bool_decide (is_Some (disk !! audio_path_for_play))
    then Some (Some audio_path_for_play, plays)
    else Some (None, false).

Definition play_events {E : Type} (r : option str * bool) : list (SessionEvent E) :=
  match r with
  | (Some path, ok) => [Played path ok]
  | (None, _) => [NothingToPlay]
  end.

(** *** Sentence drill ([run_dictation_pro]) *)

Inductive ProPc :=
| PLoop      (* at [while current_item_idx < total_items] *)
| PConfirm   (* at [Confirm.ask("Error playing audio. ...")] *)
| PKeys      (* at [readchar.readkey()] of the input loop *)
| PReveal    (* the sentence is shown; at [final_key = readchar.readkey()] *)
| PAgain     (* at [again_key = readchar.readkey()] *)
| PDone.     (* the function has returned *)

Record ProState := mkPro {
  pro_pc : ProPc;
  sentences_vocab : list SentenceEntry;
  current_item_idx : nat;
  current_speed_index : Z
}.

Definition n_speeds : Z := Z.of_nat (length SPEED_CONFIGURATIONS).

(** The session up to the first [while]: nothing to do on an empty list
    or when the user goes back; otherwise the first shuffle. *)
Definition pro_start (loaded : list SentenceEntry) (ready : bool) (first_draws : list nat)
    : ProState * list (SessionEvent SentenceEntry) :=
  let speed0 := Z.of_nat (default 0 (head default_speed_indices)) in
  if bool_decide (loaded = []) || negb ready
  then (mkPro PDone loaded 0 speed0, [])
  else (mkPro PLoop (shuffle first_draws loaded) 0 speed0, [Shuffled]).

(** One step of [run_dictation_pro] from a waiting point to the next. *)
Definition pro_step (disk : gmap str bytes) (st : ProState) (t : Tick)
    : ProState * list (SessionEvent SentenceEntry) :=
  let vocab := sentences_vocab st in
  let idx := current_item_idx st in
  let speed := current_speed_index st in
  let total_items := length vocab in
  let name := default [] (vocab !! idx ≫= sentence_audio_file_name) in
  let replay speed' :=
    match play_current_sentence_audio disk name speed' (plays t) with
    | None => (mkPro PDone vocab idx speed', [])
    | Some r => (mkPro PKeys vocab idx speed', play_events r)
    end in
  match pro_pc st with
  | PLoop =>
      match vocab !! idx with
      | None => (mkPro PDone vocab idx speed, [])
      | Some item_data =>
          if negb (truthy (sentence_text item_data))
             || negb (truthy (sentence_audio_file_name item_data))
          then (mkPro PLoop vocab (S idx) speed, [Reached item_data])
          else
            match play_current_sentence_audio disk name speed (plays t) with
            | None => (mkPro PDone vocab idx speed, [Reached item_data; Presented item_data])
            | Some r =>
                let play_successful := r.2 in
                (mkPro (if play_successful then PKeys else PConfirm) vocab idx speed,
                 Reached item_data :: Presented item_data :: play_events r)
            end
      end
  | PConfirm =>
      if answer t then (mkPro PLoop vocab (S idx) speed, [])
      else (mkPro PDone vocab idx speed, [])
  | PKeys =>
      match key t with
      | None => (mkPro PDone vocab idx speed, [])
      | Some k =>
          if bool_decide (k = KEY_LEFT) then replay ((speed - 1 + n_speeds) `mod` n_speeds)%Z
          else if bool_decide (k = KEY_RIGHT) then replay ((speed + 1) `mod` n_speeds)%Z
          else if bool_decide (k = KEY_SPACE) then replay speed
          else if bool_decide (k = KEY_ENTER)
          then (mkPro PReveal vocab idx speed,
                match vocab !! idx with Some e => [Revealed e] | None => [] end)
          else if bool_decide (lower k = [113]%N) then (mkPro PDone vocab idx speed, [])
          else (mkPro PKeys vocab idx speed, [])
      end
  | PReveal =>
      match key t with
      | None => (mkPro PDone vocab idx speed, [])
      | Some final_key =>
          if bool_decide (lower final_key = [113]%N) then (mkPro PDone vocab idx speed, [])
          else if bool_decide (total_items ≤ S idx)
               then (mkPro PAgain vocab (S idx) speed, [])
               else (mkPro PLoop vocab (S idx) speed, [])
      end
  | PAgain =>
      match key t with
      | None => (mkPro PDone vocab idx speed, [])
      | Some k =>
          let again_key := lower k in
          if bool_decide (again_key = [121]%N)
          then (mkPro PLoop (shuffle (draws t) vocab) 0 speed, [Shuffled])
          else if bool_decide (again_key = [110]%N) || bool_decide (again_key = [113]%N)
               then (mkPro PDone vocab total_items speed, [])
               else (mkPro PAgain vocab idx speed, [])
      end
  | PDone => (st, [])
  end.

(** *** Word drill ([run_dictation_practice]) *)

Inductive WordPc :=
| WLoop      (* at [while current_idx < total_items] *)
| WSkip      (* at [Prompt.ask("Press Enter to skip to next word...")] *)
| WConfirm   (* at [Confirm.ask("Error playing audio. ...")] *)
| WListen    (* the audio was played; at the first [Prompt.ask("")] *)
| WReveal    (* the character is shown; at the second [Prompt.ask("")] *)
| WAgain     (* at [Confirm.ask("Practice again with a new shuffle?")] *)
| WDone.

Record WordState := mkWord {
  word_pc : WordPc;
  vocab : list VocabEntry;
  current_idx : nat
}.

Definition word_start (loaded : list VocabEntry) (ready : bool) (first_draws : list nat)
    : WordState * list (SessionEvent VocabEntry) :=
  if bool_decide (loaded = []) || negb ready
  then (mkWord WDone loaded 0, [])
  else (mkWord WLoop (shuffle first_draws loaded) 0, [Shuffled]).

(** One step of [run_dictation_practice] from a waiting point to the next. *)
Definition word_step (disk : gmap str bytes) (st : WordState) (t : Tick)
    : WordState * list (SessionEvent VocabEntry) :=
  let vocab := vocab st in
  let idx := current_idx st in
  let total_items := length vocab in
  match word_pc st with
  | WLoop =>
      match vocab !! idx with
      | None => (mkWord WDone vocab idx, [])
      | Some item =>
          if negb (truthy (character item) && truthy (pinyin item)
                   && truthy (character_meaning item) && truthy (audio_file_name item))
          then (mkWord WLoop vocab (S idx), [Reached item])
          else
            let audio_to_play :=
              variant_path AUDIO_CHAR_DIR (default [] (audio_file_name item))
                DEFAULT_SPEED_SUFFIX in
            if negb (bool_decide (is_Some (disk !! audio_to_play)))
            then (mkWord WSkip vocab idx, [Reached item; NothingToPlay])
            else (mkWord (if plays t then WListen else WConfirm) vocab idx,
                  [Reached item; Presented item; Played audio_to_play (plays t)])
      end
  | WSkip =>
      match prompt t with
      | Typed _ => (mkWord WLoop vocab (S idx), [])
      | Interrupted => (mkWord WDone vocab idx, [])
      end
  | WConfirm =>
      if answer t then (mkWord WLoop vocab (S idx), [])
      else (mkWord WDone vocab idx, [])
  | WListen =>
      match prompt t with
      | Typed _ =>
          (mkWord WReveal vocab idx,
           match vocab !! idx with Some e => [Revealed e] | None => [] end)
      | Interrupted => (mkWord WDone vocab idx, [])
      end
  | WReveal =>
      match prompt t with
      | Typed _ =>
          if bool_decide (total_items ≤ S idx)
          then (mkWord WAgain vocab (S idx), [])
          else (mkWord WLoop vocab (S idx), [])
      | Interrupted => (mkWord WDone vocab idx, [])
      end
  | WAgain =>
      if answer t
      then (mkWord WLoop (shuffle (draws t) vocab) 0, [Shuffled])
      else (mkWord WDone vocab idx, [])
  | WDone => (st, [])
  end.

(** A session run: the steps taken in turn, with everything done so far. *)
Definition run {S E : Type} (step : S → Tick → S * list E)
    (start : S * list E) (ticks : list Tick) : S * list E :=
  fold_left (λ acc t, let r := step acc.1 t in (r.1, acc.2 ++ r.2)) ticks start.

Definition run_dictation_pro (disk : gmap str bytes) (loaded : list SentenceEntry)
    (ready : bool) (first_draws : list nat) (ticks : list Tick)
    : ProState * list (SessionEvent SentenceEntry) :=
  run (pro_step disk) (pro_start loaded ready first_draws) ticks.

Definition run_dictation_practice (disk : gmap str bytes) (loaded : list VocabEntry)
    (ready : bool) (first_draws : list nat) (ticks : list Tick)
    : WordState * list (SessionEvent VocabEntry) :=
  run (word_step disk) (word_start loaded ready first_draws) ticks.

End Model.

(** * The store read back, and the menus

    [csv.reader] is the Python runtime's: what it makes of a file's
    content, the rows in order or an exception ([None]), is a table of
    the runtime like [csv_line]. *)
Class CsvReader := csv_rows : str → option (list (list str)).

(** [readchar.key] on POSIX terminals, continued. *)
Definition KEY_UP : str := [27; 91; 65]%N.
Definition KEY_DOWN : str := [27; 91; 66]%N.

Section Store.
Context {lib : Lib} {reader : CsvReader}.

(** [d = dict(zip(fieldnames, row))], the fields a short row lacks set
    to [None], then [d.get(field)]: the value under the last column of
    that name, [None] when there is no such column or the row ends
    before it.  [found] is the value met so far. *)
Fixpoint row_get (fieldnames row : list str) (field : str) (found : option str)
    : option str :=
  match fieldnames with
  | [] => found
  | k :: ks =>
      row_get ks (tail row) field (if bool_decide (k = field) then head row else found)
  end.

(** [csv.DictReader(f)], iterated to the end: the first row gives the
    field names, rows without any field are passed over, and each other
    row is the dictionary [row.get]. *)
Definition DictReader (content : str) : option (list (str → option str)) :=
  rows ← csv_rows content;
  match rows with
  | [] => Some []
  | fieldnames :: rows =>
      Some ((λ row field, row_get fieldnames row field None)
              <$> filter (λ row, row ≠ []) rows)
  end.

(** [load_vocab]: no file, or any exception while reading, gives the
    empty list. *)
Definition load_vocab (disk : gmap str bytes) : list VocabEntry :=
  match disk !! VOCAB_FILE with
  | None => []
  | Some content =>
      match DictReader content with
      | None => []
      | Some rows =>
          (λ row, mkVocab (row (lit "character")) (row (lit "pinyin"))
                    (row (lit "character_meaning")) (row (lit "audio_file_name")))
            <$> rows
      end
  end.

(** [load_sentences] *)
Definition load_sentences (disk : gmap str bytes) : list SentenceEntry :=
  match disk !! SENTENCES_FILE with
  | None => []
  | Some content =>
      match DictReader content with
      | None => []
      | Some rows =>
          (λ row, mkSentence (row (lit "sentence_text")) (row (lit "audio_file_name")))
            <$> rows
      end
  end.

(** The functions as [main] and the menus call them: the list is loaded
    from the disk of the moment. *)
Definition ensure_audio_files_exist_run (args : Args) : IO (option Counters) :=
  disk ← get_fs; ensure_audio_files_exist args (load_vocab disk).

Definition ensure_sentence_audio_files_exist_run (args : Args) : IO (option Counters) :=
  disk ← get_fs; ensure_sentence_audio_files_exist args (load_sentences disk).

Definition update_word_vocab_interactive_run (args : Args) (inputs : list PromptResult)
    : IO (list VocabEntry) :=
  disk ← get_fs; update_word_vocab_interactive args (load_vocab disk) inputs.

Definition update_sentence_vocab_interactive_run (args : Args)
    (inputs : list PromptResult) : IO (list SentenceEntry) :=
  disk ← get_fs; update_sentence_vocab_interactive args (load_sentences disk) inputs.

(** ** Menus *)

(** [display_main_menu] over the keys pressed: the choice returned and
    the keys not read, or [None] while the menu is still waiting when
    the keys end. *)
Fixpoint display_main_menu_from (current_selection : Z) (keys : list str)
    : option (str * list str) :=
  match keys with
  | [] => None
  | key :: keys' =>
      if bool_decide (key = KEY_UP)
      then display_main_menu_from ((current_selection - 1 + 4) `mod` 4)%Z keys'
      else if bool_decide (key = KEY_DOWN)
      then display_main_menu_from ((current_selection + 1) `mod` 4)%Z keys'
      else if bool_decide (key = KEY_ENTER) then
        if (current_selection =? 0)%Z then Some (lit "dictation", keys')
        else if (current_selection =? 1)%Z then Some (lit "dictation_pro", keys')
        else if (current_selection =? 2)%Z then Some (lit "update_vocab", keys')
        else if (current_selection =? 3)%Z then Some (lit "exit", keys')
        else display_main_menu_from current_selection keys'
      else if bool_decide (lower key = [113]%N) then Some (lit "exit", keys')
      else display_main_menu_from current_selection keys'
  end.

Definition display_main_menu (keys : list str) : option (str * list str) :=
  display_main_menu_from 0 keys.

(** [display_dictation_pro_start_options] *)
Fixpoint display_dictation_pro_start_options_from (current_selection : Z)
    (keys : list str) : option (str * list str) :=
  match keys with
  | [] => None
  | key :: keys' =>
      if bool_decide (key = KEY_UP)
      then display_dictation_pro_start_options_from
             ((current_selection - 1 + 2) `mod` 2)%Z keys'
      else if bool_decide (key = KEY_DOWN)
      then display_dictation_pro_start_options_from
             ((current_selection + 1) `mod` 2)%Z keys'
      else if bool_decide (key = KEY_ENTER) then
        if (current_selection =? 0)%Z then Some (lit "ready", keys')
        else if (current_selection =? 1)%Z then Some (lit "go_back", keys')
        else display_dictation_pro_start_options_from current_selection keys'
      else if bool_decide (lower key = [113]%N) then Some (lit "go_back", keys')
      else display_dictation_pro_start_options_from current_selection keys'
  end.

Definition display_dictation_pro_start_options (keys : list str)
    : option (str * list str) :=
  display_dictation_pro_start_options_from 0 keys.

(** What is left of the typed input when a session of the input loop
    has ended. *)
Fixpoint after_session (inputs : list PromptResult) : list PromptResult :=
  match inputs with
  | [] => []
  | Interrupted :: rest => rest
  | Typed line :: rest => if is_done (strip line) then rest else after_session rest
  end.

(** [handle_update_vocabulary_menu] over the keys pressed and the lines
    typed: whether it returned ([false]: it is still waiting when the
    keys end), and the keys and lines not read.  The cursor is back on
    the first option after each session. *)
Fixpoint handle_update_vocabulary_menu_from (args : Args) (current_selection : Z)
    (keys : list str) (inputs : list PromptResult)
    : IO (bool * list str * list PromptResult) :=
  match keys with
  | [] => mret (false, [], inputs)
  | key :: keys' =>
      if bool_decide (key = KEY_UP)
      then handle_update_vocabulary_menu_from args
             ((current_selection - 1 + 3) `mod` 3)%Z keys' inputs
      else if bool_decide (key = KEY_DOWN)
      then handle_update_vocabulary_menu_from args
             ((current_selection + 1) `mod` 3)%Z keys' inputs
      else if bool_decide (key = KEY_ENTER) then
        if (current_selection =? 0)%Z then
          _ ← update_word_vocab_interactive_run args inputs;
          handle_update_vocabulary_menu_from args 0 keys' (after_session inputs)
        else if (current_selection =? 1)%Z then
          _ ← update_sentence_vocab_interactive_run args inputs;
          handle_update_vocabulary_menu_from args 0 keys' (after_session inputs)
        else if (current_selection =? 2)%Z then mret (true, keys', inputs)
        else handle_update_vocabulary_menu_from args current_selection keys' inputs
      else if bool_decide (lower key = [113]%N) then mret (true, keys', inputs)
      else handle_update_vocabulary_menu_from args current_selection keys' inputs
  end.

Definition handle_update_vocabulary_menu (args : Args) (keys : list str)
    (inputs : list PromptResult) : IO (bool * list str * list PromptResult) :=
  handle_update_vocabulary_menu_from args 0 keys inputs.

End Store.

(** * Vocabulary of the statements

    What the statements below say about a run: counts and projections
    of the events logged, summaries of what a loop did, and the
    invariants of the sessions. *)

Section Vocabulary.
Context `{!Lib}.


(** The reply [generate_tts_audio] is about to receive: the next one, or
    a transport error when the endpoint has nothing to say. *)
Definition next_reply (w : World) : HttpResult :=
  default RequestException (head (http w)).


(** The outcome the next CSV append will have. *)
Definition next_append_ok (w : World) : bool := default true (head (appends w)).

(** A failed generation: a synthesis without audio, or a save that
    raised. *)
Definition is_failure (e : Event) : bool :=
  match e with
  | EvTts _ _ a => negb (audio_ok a)
  | EvWrite _ (WriteFails _) => true
  | _ => false
  end.

(** A successful generation: a file saved whole. *)
Definition is_generated (e : Event) : bool :=
  match e with
  | EvWrite _ WriteOk => true
  | _ => false
  end.

(** The path an [os.path.exists] looked at. *)
Definition checked_path (e : Event) : option str :=
  match e with
  | EvExists p _ => Some p
  | _ => None
  end.

(** How many elements of a list satisfy [f]. *)
Fixpoint count {A : Type} (f : A → bool) (l : list A) : nat :=
  match l with
  | [] => 0
  | x :: l' => (if f x then 1 else 0) + count f l'
  end.

(** The failed and the successful generations among some events, and the
    paths examined with [os.path.exists]. *)
Definition failures (evs : list Event) : nat := count is_failure evs.
Definition generations (evs : list Event) : nat := count is_generated evs.
Definition checked (evs : list Event) : list str := omap checked_path evs.

(** What one pass through the sweep's inner loop body can do. *)
Inductive SpeedCase (text : str) (speed : Q) (p : str) (st : ItemState) (w : World)
    : ItemState → World → list Event → Prop :=
| speed_present w' :
    is_Some (fs w !! p) → fs w' = fs w →
    http w' = http w → writes w' = writes w →
    SpeedCase text speed p st w st w' [EvExists p true]
| speed_no_audio a w' :
    fs w !! p = None → audio_ok a = false → fs w' = fs w →
    SpeedCase text speed p st w (mkItem (count_failed (counts st)) false true) w'
      [EvExists p false; EvTts text speed a]
| speed_saved a w' :
    fs w !! p = None → audio_ok a = true →
    fs w' = <[p := default [] a]> (fs w) →
    SpeedCase text speed p st w (mkItem (count_generated (counts st)) false true) w'
      [EvExists p false; EvTts text speed a; EvWrite p WriteOk]
| speed_not_saved a o w' :
    fs w !! p = None → audio_ok a = true →
    fs w' = match o with Some part => <[p := part]> (fs w) | None => fs w end →
    SpeedCase text speed p st w (mkItem (count_failed (counts st)) false true) w'
      [EvExists p false; EvTts text speed a; EvWrite p (WriteFails o)].

(** What a stretch of the sweep did: [evs] were logged, [paths] were
    examined, [n] complete and [k] incomplete entries were finished. *)
Record Summary (evs : list Event) (paths : list str) (n k : nat)
    (c : Counters) (w : World) (c' : Counters) (w' : World) : Prop := {
  sum_log : log w' = log w ++ evs;
  sum_checked : checked evs = paths;
  sum_failed :
    individual_files_failed_generation c' =
    individual_files_failed_generation c + failures evs;
  sum_generated :
    individual_files_generated c' = individual_files_generated c + generations evs;
  sum_items :
    items_all_speeds_found c' + items_had_missing_speeds c' =
    items_all_speeds_found c + items_had_missing_speeds c + n;
  sum_found_mono : items_all_speeds_found c ≤ items_all_speeds_found c';
  sum_missing_mono : items_had_missing_speeds c ≤ items_had_missing_speeds c';
  sum_skipped : skipped_incomplete_csv c' = skipped_incomplete_csv c + k;
  sum_mono : ∀ q, is_Some (fs w !! q) → is_Some (fs w' !! q);
  sum_filled : failures evs = 0 → ∀ p, p ∈ paths → is_Some (fs w' !! p);
  sum_idle :
    (∀ p, p ∈ paths → is_Some (fs w !! p)) →
    fs w' = fs w ∧ http w' = http w ∧ writes w' = writes w
    ∧ failures evs = 0 ∧ generations evs = 0
    ∧ items_all_speeds_found c' = items_all_speeds_found c + n
}.

(** The flags of the entry in hand: once a speed was found missing,
    generation was attempted. *)
Definition flags_ok (st : ItemState) : Prop :=
  all_speeds_present_for_this_item st = true
  ∨ generation_attempted_for_this_item st = true.

(** The artifact files of a stored name, one per speed, in order. *)
Definition speed_paths (dir name : str) (speeds : list (str * Q)) : list str :=
  (λ sv, variant_path dir name sv.1) <$> speeds.

(** An entry the sweep works on: key field and audio name both present. *)
Definition complete (e : option str * option str) : bool :=
  truthy e.1 && truthy e.2.

(** The files the sweep has to examine for an entry, in order. *)
Definition entry_paths (args : Args) (dir : str) (e : option str * option str)
    : list str :=
  if complete e then speed_paths dir (default [] e.2) (speeds_to_generate args) else [].

(** The files the sweep has to examine for a loaded list, in order. *)
Definition expected_paths (args : Args) (dir : str)
    (entries : list (option str * option str)) : list str :=
  entries ≫= entry_paths args dir.

(** The counters of a sweep; all zero when no summary was printed. *)
Definition counters (r : option Counters) : Counters := default no_counts r.

(** What a computation added to the log. *)
Definition new_events (w w' : World) : list Event := drop (length (log w)) (log w').

(** The word of the scenario: 你好, nǐ hǎo, hello, hello.mp3. *)
Definition HELLO : VocabEntry :=
  mkVocab (Some [20320; 22909]%N) (Some [110; 464; 32; 104; 462; 111]%N)
    (Some (lit "hello")) (Some (lit "hello.mp3")).

(** A character that may stand in a sanitized name: neither a dot nor a
    slash. *)
Definition clean_char (c : N) : Prop := c ≠ DOT ∧ c ≠ SLASH.
Definition clean (s : str) : Prop := Forall clean_char s.

(** The stem and extension the program derives from a stored name
    [x ++ ".mp3"] with a clean [x]: Python's [splitext] sees no extension
    in the bare name [".mp3"]. *)
Definition stem_of (x : str) : str := if nonempty x then x else MP3.

(** The three file name suffixes of [speeds_to_generate]. *)
Definition SUFFIXES : list str :=
  [DEFAULT_SPEED_SUFFIX; SLOWER_SPEED_SUFFIX; EXTRA_SLOW_SPEED_SUFFIX].

(** The files saved whole, the rows appended, and the deletions that
    raised, among some events. *)
Definition saved (evs : list Event) : list str :=
  omap (λ e, match e with EvWrite p WriteOk => Some p | _ => None end) evs.
Definition appended (evs : list Event) : list (str * list str) :=
  omap (λ e, match e with EvAppend f row _ => Some (f, row) | _ => None end) evs.
Definition undeleted (evs : list Event) : list str :=
  omap (λ e, match e with EvRemove p false => Some p | _ => None end) evs.
(** The paths some events wrote to or deleted. *)
Definition touched (evs : list Event) : list str :=
  omap (λ e, match e with
             | EvWrite p _ | EvRemove p _ | EvAppend p _ _ => Some p
             | _ => None
             end) evs.

(** What the generation loop of the interactive flows did. *)
Record Generated (dir name : str) (speeds : list (str * Q)) (gp : list str) (w : World)
    (ok : bool) (gp' : list str) (w' : World) (evs : list Event) : Prop := {
  gen_log : log w' = log w ++ evs;
  gen_removes : removes w' = removes w;
  gen_appends : appends w' = appends w;
  gen_paths : gp' = gp ++ saved evs;
  gen_saved_prefix : ∃ rest, speed_paths dir name speeds = saved evs ++ rest;
  gen_ok : if ok then failures evs = 0 ∧ saved evs = speed_paths dir name speeds
           else failures evs = 1;
  gen_quiet : appended evs = [] ∧ undeleted evs = [];
  gen_touched : ∀ p, p ∈ touched evs → p ∈ speed_paths dir name speeds;
  gen_frame : ∀ q, q ∉ speed_paths dir name speeds → fs w' !! q = fs w !! q
}.

(** What the clean-up loop did. *)
Record Cleaned (gp : list str) (w w' : World) (evs : list Event) : Prop := {
  cl_log : log w' = log w ++ evs;
  cl_appends : appends w' = appends w;
  cl_quiet : saved evs = [] ∧ appended evs = [] ∧ failures evs = 0;
  cl_gone : ∀ p, p ∈ gp → fs w' !! p = None ∨ p ∈ undeleted evs;
  cl_frame : ∀ q, q ∉ gp → fs w' !! q = fs w !! q;
  cl_anti : ∀ q, fs w !! q = None → fs w' !! q = None
}.

(** A name as the interactive flows store it: a clean stem and [.mp3]. *)
Definition stored_name (n : str) : Prop := ∃ x, n = x ++ MP3 ∧ clean x.

(** The part the two flows share once the name is chosen: generate all
    speeds, then either save the row or clean up. *)
Definition create_tail {E : Type} (args : Args) (dir text n file : str)
    (fieldnames row : list str) (e : E) (existing : list E)
    : IO (EntryResult * list E) :=
  '(all_speeds_generated_successfully, generated_paths_for_this_item) ←
    generate_all args dir text n (speeds_to_generate args) [];
  if (all_speeds_generated_successfully : bool) then
    _ ← append_row file fieldnames row;
    mret (Added n, existing ++ [e])
  else
    _ ← cleanup generated_paths_for_this_item;
    mret (NotSaved n, existing).



(** The name an entry's artifacts were written under. *)
Definition chosen_name (res : EntryResult) : option str :=
  match res with
  | Added n | NotSaved n => Some n
  | _ => None
  end.











(** ** More vocabulary: the sweep seen from the disk and the endpoint *)

(** A character [sanitize_filename] lets through. *)
Definition name_char (c : N) : bool := isalnum c || N.eqb c 95 || N.eqb c 45.

(** The files found missing, the synthesis requests and the deletions
    among some events. *)
Definition is_missing (e : Event) : bool :=
  match e with
  | EvExists _ false => true
  | _ => false
  end.

Definition is_request (e : Event) : bool :=
  match e with
  | EvTts _ _ _ => true
  | _ => false
  end.

Definition missing (evs : list Event) : nat := count is_missing evs.
Definition requests (evs : list Event) : nat := count is_request evs.
Definition removed (evs : list Event) : list str :=
  omap (λ e, match e with EvRemove p _ => Some p | _ => None end) evs.



(** What a stretch of the sweep did to the disk and asked of the
    endpoint: [ask text speed] holds of every request made. *)
Record Gentle (ask : str → Q → Prop) (evs : list Event) (paths : list str)
    (w w' : World) : Prop := {
  gt_log : log w' = log w ++ evs;
  gt_keep : ∀ q d, fs w !! q = Some d → fs w' !! q = Some d;
  gt_frame : ∀ q, q ∉ paths → fs w' !! q = fs w !! q;
  gt_removes : removes w' = removes w;
  gt_appends : appends w' = appends w;
  gt_quiet : appended evs = [] ∧ removed evs = [];
  gt_account : generations evs + failures evs = missing evs;
  gt_requests : requests evs = missing evs;
  gt_http : http w' = drop (requests evs) (http w);
  gt_asked : ∀ text speed a, EvTts text speed a ∈ evs → ask text speed;
  gt_written : ∀ p o, EvWrite p o ∈ evs → fs w !! p = None ∧ p ∈ paths
}.


(** The requests the sweep may make for a loaded list: the key text of a
    complete entry, at one of the three speeds. *)
Definition sweep_asks (args : Args) (entries : list (option str * option str))
    (text : str) (speed : Q) : Prop :=
  (∃ e, e ∈ entries ∧ complete e = true ∧ e.1 = Some text)
  ∧ speed ∈ (snd <$> speeds_to_generate args).


(** ** More vocabulary: the store *)

(** A file that holds audio: it is on the disk and not empty. *)
Definition audible (disk : gmap str bytes) (p : str) : Prop :=
  ∃ d, disk !! p = Some d ∧ d ≠ [].

(** The row written for an entry. *)
Definition vocab_row (e : VocabEntry) : list str :=
  [default [] (character e); default [] (pinyin e);
   default [] (character_meaning e); default [] (audio_file_name e)].

Definition sentence_row (e : SentenceEntry) : list str :=
  [default [] (sentence_text e); default [] (sentence_audio_file_name e)].

(** A CSV file's content after some rows were appended to [old], one
    append each: the header comes first when [old] was empty. *)
Definition appended_to (old : str) (fieldnames : list str) (rows : list (list str))
    : str :=
  match rows with
  | [] => old
  | _ => old ++ (if bool_decide (old = []) then csv_line fieldnames else [])
             ++ concat (csv_line <$> rows)
  end.

(** What became of an entry whose name [n] was chosen. *)
Record Stored {E : Type} (args : Args) (dir file : str) (fieldnames row : list str)
    (e : E) (n : str) (existing : list E) (w : World) (res : EntryResult)
    (existing' : list E) (w' : World) : Prop := {
  so_res : res = Added n ∨ res = NotSaved n;
  so_added : res = Added n →
    existing' = existing ++ [e]
    ∧ (∀ p, p ∈ speed_paths dir n (speeds_to_generate args) → audible (fs w') p)
    ∧ fs w' !! file =
        (if next_append_ok w
         then Some (appended_to (default [] (fs w !! file)) fieldnames [row])
         else fs w !! file)
    ∧ appends w' = tail (appends w);
  so_not_saved : res = NotSaved n →
    existing' = existing ∧ fs w' !! file = fs w !! file ∧ appends w' = appends w;
  so_frame : ∀ q, q ∉ speed_paths dir n (speeds_to_generate args) → q ≠ file →
    fs w' !! q = fs w !! q
}.

(** The in-memory list and the CSV file after some entries were added
    to the list [loaded], from the world [w0] on, while every append
    succeeds. *)
Definition in_step {E : Type} (file : str) (fieldnames : list str)
    (row_of : E → list str) (loaded : list E) (w0 : World)
    (existing : list E) (w : World) : Prop :=
  Forall (λ b, b = true) (appends w)
  ∧ ∃ added,
      existing = loaded ++ added
      ∧ fs w !! file =
          match added with
          | [] => fs w0 !! file
          | _ => Some (appended_to (default [] (fs w0 !! file)) fieldnames
                         (row_of <$> added))
          end.


(** ** More vocabulary: what a drill may do *)

(** A sentence the drill presents: text and stored name are there. *)
Definition sentence_complete (item : SentenceEntry) : bool :=
  truthy (sentence_text item) && truthy (sentence_audio_file_name item).

(** A word the drill presents: all four fields are there. *)
Definition word_complete (item : VocabEntry) : bool :=
  truthy (character item) && truthy (pinyin item)
  && truthy (character_meaning item) && truthy (audio_file_name item).

(** The default-speed artifact of a word. *)
Definition word_audio (item : VocabEntry) : str :=
  variant_path AUDIO_CHAR_DIR (default [] (audio_file_name item)) DEFAULT_SPEED_SUFFIX.

(** An event the sentence drill may log: [playsound] only ever gets a
    file that is on the disk, an artifact of a loaded entry; what is
    presented or revealed is a loaded entry with text and name. *)
Definition pro_event_ok (disk : gmap str bytes) (loaded : list SentenceEntry)
    (e : SessionEvent SentenceEntry) : Prop :=
  match e with
  | Played p _ =>
      is_Some (disk !! p)
      ∧ ∃ item sfx, item ∈ loaded ∧ sentence_complete item = true ∧ sfx ∈ SUFFIXES
          ∧ p = variant_path AUDIO_PRO_DIR
                  (default [] (sentence_audio_file_name item)) sfx
  | Presented item | Revealed item => item ∈ loaded ∧ sentence_complete item = true
  | Reached item => item ∈ loaded
  | _ => True
  end.

(** An event the word drill may log: [playsound] only ever gets the
    default-speed file of a loaded entry, and the file is on the disk;
    what is presented or revealed is a loaded entry with all its fields
    whose default-speed file is on the disk. *)
Definition word_event_ok (disk : gmap str bytes) (loaded : list VocabEntry)
    (e : SessionEvent VocabEntry) : Prop :=
  match e with
  | Played p _ =>
      is_Some (disk !! p)
      ∧ ∃ item, item ∈ loaded ∧ word_complete item = true ∧ p = word_audio item
  | Presented item | Revealed item =>
      item ∈ loaded ∧ word_complete item = true ∧ is_Some (disk !! word_audio item)
  | Reached item => item ∈ loaded
  | _ => True
  end.

(** The sentence drill between two steps, for its safety: the speed
    index is one of the table, the item index is within the list, and
    while the drill waits on an item that item is complete. *)
Definition pro_safe (disk : gmap str bytes) (loaded : list SentenceEntry)
    (s : ProState * list (SessionEvent SentenceEntry)) : Prop :=
  let st := s.1 in
  sentences_vocab st ≡ₚ loaded
  ∧ (0 ≤ current_speed_index st < 3)%Z
  ∧ current_item_idx st ≤ length (sentences_vocab st)
  ∧ match pro_pc st with
    | PConfirm | PKeys | PReveal =>
        ∃ item, sentences_vocab st !! current_item_idx st = Some item
                ∧ sentence_complete item = true
    | _ => True
    end
  ∧ Forall (pro_event_ok disk loaded) s.2.

(** The same for the word drill. *)
Definition word_safe (disk : gmap str bytes) (loaded : list VocabEntry)
    (s : WordState * list (SessionEvent VocabEntry)) : Prop :=
  let st := s.1 in
  vocab st ≡ₚ loaded
  ∧ current_idx st ≤ length (vocab st)
  ∧ match word_pc st with
    | WSkip => current_idx st < length (vocab st)
    | WConfirm | WListen | WReveal =>
        ∃ item, vocab st !! current_idx st = Some item
                ∧ word_complete item = true ∧ is_Some (disk !! word_audio item)
    | _ => True
    end
  ∧ Forall (word_event_ok disk loaded) s.2.









(** ** More vocabulary: what a creation asks and keeps *)

(** The synthesis requests among some events: text and speed, in
    order. *)
Definition asked (evs : list Event) : list (str * Q) :=
  omap (λ e, match e with EvTts text speed _ => Some (text, speed) | _ => None end) evs.

(** The requests for one entry when nothing fails: its text at the
    three speeds, in the order of [speeds_to_generate]. *)
Definition all_requests (args : Args) (text : str) : list (str * Q) :=
  (λ sv : str * Q, (text, sv.2)) <$> speeds_to_generate args.

(** What the creation of one entry asked of the endpoint: requests for
    the entry's text, in the order of the speeds, one more than the
    files saved if something failed and as many otherwise; nothing is
    asked after a failure. *)
Record Asking (args : Args) (text : str) (w : World) (res : EntryResult)
    (w' : World) : Prop := {
  ask_order : asked (new_events w w') `prefix_of` all_requests args text;
  ask_all : (∃ n, res = Added n) → asked (new_events w w') = all_requests args text;
  ask_count :
    length (asked (new_events w w'))
    = length (saved (new_events w w')) + failures (new_events w w');
  ask_once : failures (new_events w w') ≤ 1
}.

(** The entries a session added, each with a name of the stored form
    whose three artifact files hold audio on the disk of [w]. *)
Definition kept {E : Type} (args : Args) (dir : str) (nm : E → option str)
    (loaded existing : list E) (w : World) : Prop :=
  ∃ added,
    existing = loaded ++ added
    ∧ ∀ e, e ∈ added →
        ∃ n, nm e = Some n ∧ stored_name n
             ∧ ∀ p, p ∈ speed_paths dir n (speeds_to_generate args) → audible (fs w) p.


End Vocabulary.

(** The arguments [argparse] gives when the command line has none. *)
Definition default_args : Args :=
  mkArgs false (lit "zf_xiaoxiao") (lit "z") DEFAULT_KOKORO_SPEED.

(** A reply of the endpoint that is good audio. *)
Definition good_audio (b : bytes) : HttpResult := Reply 200 (Some AUDIO_MPEG) b.

(** ** A CSV reader for the concrete runs

    [csv.reader] with the default dialect, as CPython's [_csv] module
    parses: the file is read line by line, the line ends kept, and each
    character moves a small state machine; a quoted field may run over
    several lines. *)
Inductive ParserState :=
| START_RECORD
| START_FIELD
| IN_FIELD
| IN_QUOTED_FIELD
| QUOTE_IN_QUOTED_FIELD
| EAT_CRNL.

Record Parser := mkParser {
  parser_state : ParserState;
  parser_field : str;
  parser_fields : list str
}.

Definition parse_reset : Parser := mkParser START_RECORD [] [].

Definition parse_save_field (p : Parser) (s : ParserState) : Parser :=
  mkParser s [] (parser_fields p ++ [parser_field p]).

Definition parse_add_char (p : Parser) (c : N) (s : ParserState) : Parser :=
  mkParser s (parser_field p ++ [c]) (parser_fields p).

Definition is_newline (c : N) : bool := N.eqb c 10 || N.eqb c 13.

(** [parse_process_char]; [None] as character is the end of the line,
    [None] as result an error. *)
Definition parse_process_char (p : Parser) (c : option N) : option Parser :=
  let start_field :=
    match c with
    | None => Some (parse_save_field p START_RECORD)
    | Some ch =>
        if is_newline ch then Some (parse_save_field p EAT_CRNL)
        else if N.eqb ch 34 then Some (mkParser IN_QUOTED_FIELD (parser_field p)
                                         (parser_fields p))
        else if N.eqb ch 44 then Some (parse_save_field p START_FIELD)
        else Some (parse_add_char p ch IN_FIELD)
    end in
  match parser_state p with
  | START_RECORD =>
      match c with
      | None => Some p
      | Some ch =>
          if is_newline ch
          then Some (mkParser EAT_CRNL (parser_field p) (parser_fields p))
          else start_field
      end
  | START_FIELD => start_field
  | IN_FIELD =>
      match c with
      | None => Some (parse_save_field p START_RECORD)
      | Some ch =>
          if is_newline ch then Some (parse_save_field p EAT_CRNL)
          else if N.eqb ch 44 then Some (parse_save_field p START_FIELD)
          else Some (parse_add_char p ch IN_FIELD)
      end
  | IN_QUOTED_FIELD =>
      match c with
      | None => Some p
      | Some ch =>
          if N.eqb ch 34
          then Some (mkParser QUOTE_IN_QUOTED_FIELD (parser_field p) (parser_fields p))
          else Some (parse_add_char p ch IN_QUOTED_FIELD)
      end
  | QUOTE_IN_QUOTED_FIELD =>
      match c with
      | None => Some (parse_save_field p START_RECORD)
      | Some ch =>
          if N.eqb ch 34 then Some (parse_add_char p ch IN_QUOTED_FIELD)
          else if N.eqb ch 44 then Some (parse_save_field p START_FIELD)
          else if is_newline ch then Some (parse_save_field p EAT_CRNL)
          else Some (parse_add_char p ch IN_FIELD)
      end
  | EAT_CRNL =>
      match c with
      | None => Some (mkParser START_RECORD (parser_field p) (parser_fields p))
      | Some ch => if is_newline ch then Some p else None
      end
  end.

(** The lines of a file opened with [newline=''], their ends kept. *)
Fixpoint file_lines (line : str) (content : str) : list str :=
  match content with
  | [] => match line with [] => [] | _ => [line] end
  | c :: rest =>
      if N.eqb c 10 then (line ++ [c]) :: file_lines [] rest
      else if N.eqb c 13 then
        match rest with
        | c' :: rest' =>
            if N.eqb c' 10 then (line ++ [c; c']) :: file_lines [] rest'
            else (line ++ [c]) :: file_lines [] rest
        | [] => [line ++ [c]]
        end
      else file_lines (line ++ [c]) rest
  end.

Definition parse_line (p : Parser) (line : str) : option Parser :=
  p' ← foldl (λ acc c, acc ≫= λ q, parse_process_char q (Some c)) (Some p) line;
  parse_process_char p' None.

(** The reader iterated to the end of the lines. *)
Fixpoint read_rows (p : Parser) (lines : list str) : option (list (list str)) :=
  match lines with
  | [] =>
      match parser_state p with
      | IN_QUOTED_FIELD => Some [parser_fields p ++ [parser_field p]]
      | _ => Some []
      end
  | line :: lines' =>
      p' ← parse_line p line;
      match parser_state p' with
      | START_RECORD => rows ← read_rows parse_reset lines'; Some (parser_fields p' :: rows)
      | _ => read_rows p' lines'
      end
  end.

Definition excel_csv_rows : CsvReader := λ content,
  read_rows parse_reset (file_lines [] content).

(** ** Menu vocabulary *)

(** What the menus return, in the order of their options. *)
Definition MAIN_MENU_CHOICES : list str :=
  [lit "dictation"; lit "dictation_pro"; lit "update_vocab"; lit "exit"].
Definition START_CHOICES : list str := [lit "ready"; lit "go_back"].

(** An arrow key of the menus. *)
Definition arrow (k : str) : Prop := k = KEY_UP ∨ k = KEY_DOWN.

(** Where some presses of UP and DOWN take the cursor: one down for
    each DOWN, one up for each UP. *)
Definition net_moves (keys : list str) : Z :=
  foldr (λ k z, ((if bool_decide (k = KEY_DOWN) then 1 else -1) + z)%Z) 0%Z keys.

(** An entry as the interactive flows build it: every field is there. *)
Definition full_word (e : VocabEntry) : Prop :=
  is_Some (character e) ∧ is_Some (pinyin e)
  ∧ is_Some (character_meaning e) ∧ is_Some (audio_file_name e).

Definition full_sentence (e : SentenceEntry) : Prop :=
  is_Some (sentence_text e) ∧ is_Some (sentence_audio_file_name e).


(** * Properties *)

Section Proofs.
Context `{!Lib}.


(** ** Strings *)






(** ** Speech synthesis client *)




(** ** Running the primitives *)

Lemma path_exists_run path w :
  path_exists path w =
  (bool_decide (is_Some (fs w !! path)),
   mkWorld (fs w) (http w) (writes w) (removes w) (appends w)
     (log w ++ [EvExists path (bool_decide (is_Some (fs w !! path)))])).
Proof. reflexivity. Qed.

Lemma append_row_fs file fieldnames row w :
  fs (append_row file fieldnames row w).2 =
  if next_append_ok w then
    let old := default [] (fs w !! file) in
    <[file := old
              ++ (if bool_decide (old = []) then csv_line fieldnames else [])
              ++ csv_line row]> (fs w)
  else fs w.
Proof.
  unfold append_row, next_append_ok, mbind, IO_bind. rewrite path_exists_run.
  unfold next_append. cbn [appends]. destruct (appends w) as [|[] rest]; cbn.
  all: try reflexivity.
  all: destruct (fs w !! file) as [[|c old]|] eqn:E; cbn; reflexivity.
Qed.

(** ** Vocabulary store *)

(** C8: an append writes the header exactly when the CSV file is absent
    or empty, then the one record, after the old contents; nothing else
    on disk changes.  An append that raises leaves the disk as it was. *)
Theorem append_writes_header_iff_empty (c p m a st sa : str) (dbg : bool) (w : World) :
  let old_v := default [] (fs w !! VOCAB_FILE) in
  let old_s := default [] (fs w !! SENTENCES_FILE) in
  fs (save_vocab_entry c p m a dbg w).2 =
    (if next_append_ok w then
       <[VOCAB_FILE :=
           old_v ++ (if bool_decide (old_v = []) then csv_line VOCAB_FIELDS else [])
                 ++ csv_line [c; p; m; a]]> (fs w)
     else fs w)
  ∧ fs (save_sentence_entry st sa dbg w).2 =
    (if next_append_ok w then
       <[SENTENCES_FILE :=
           old_s ++ (if bool_decide (old_s = []) then csv_line SENTENCES_FIELDS else [])
                 ++ csv_line [st; sa]]> (fs w)
     else fs w)
  ∧ (old_v = [] ↔ fs w !! VOCAB_FILE = None ∨ fs w !! VOCAB_FILE = Some [])
  ∧ (old_s = [] ↔ fs w !! SENTENCES_FILE = None ∨ fs w !! SENTENCES_FILE = Some []).
Proof.
  cbn zeta. split; [apply append_row_fs|]. split; [apply append_row_fs|].
  split.
  - destruct (fs w !! VOCAB_FILE) as [[|]|]; simpl; split; try done; eauto.
    by intros [? | ?].
  - destruct (fs w !! SENTENCES_FILE) as [[|]|]; simpl; split; try done; eauto.
    by intros [? | ?].
Qed.

(** ** The startup sweep *)

Lemma count_app {A : Type} (f : A → bool) (a b : list A) :
  count f (a ++ b) = count f a + count f b.
Proof. induction a as [|x a IH]; simpl; [done | rewrite IH; lia]. Qed.

Lemma failures_app a b : failures (a ++ b) = failures a + failures b.
Proof. apply count_app. Qed.
Lemma generations_app a b : generations (a ++ b) = generations a + generations b.
Proof. apply count_app. Qed.
Lemma checked_app a b : checked (a ++ b) = checked a ++ checked b.
Proof. apply omap_app. Qed.

Ltac io_unfold :=
  cbv beta iota zeta delta
    [mbind IO_bind mret IO_ret path_exists generate_tts_audio write_file
     remove_file next_http next_write next_remove next_append emit get_fs set_fs];
  cbn [fs http writes removes appends log fst snd].

Lemma ensure_speed_case args dir text name sfx speed st w :
  ∃ evs,
    log (ensure_speed args dir text name (sfx, speed) st w).2 = log w ++ evs
    ∧ removes (ensure_speed args dir text name (sfx, speed) st w).2 = removes w
    ∧ appends (ensure_speed args dir text name (sfx, speed) st w).2 = appends w
    ∧ SpeedCase text speed (variant_path dir name sfx) st w
        (ensure_speed args dir text name (sfx, speed) st w).1
        (ensure_speed args dir text name (sfx, speed) st w).2 evs.
Proof.
  unfold ensure_speed. set (p := variant_path dir name sfx).
  io_unfold.
  destruct (fs w !! p) as [d|] eqn:Hp.
  - rewrite bool_decide_eq_true_2 by eauto. cbn.
    eexists. do 3 (split; [reflexivity|]). constructor; eauto.
  - rewrite bool_decide_eq_false_2 by (intros [? ?]; done). cbn.
    destruct (http w) as [|r rest]; cbn.
    + eexists. rewrite <- app_assoc. do 3 (split; [reflexivity|]).
      by apply speed_no_audio.
    + destruct (audio_ok (audio_of_reply r)) eqn:Ha; cbn.
      * destruct (writes w) as [|[|[part|]] wr]; cbn; rewrite <- !app_assoc;
          eexists; (do 3 (split; [reflexivity|])).
        -- by apply speed_saved.
        -- by apply speed_saved.
        -- by apply (speed_not_saved _ _ _ _ _ _ (Some part)).
        -- by apply (speed_not_saved _ _ _ _ _ _ None).
      * eexists. rewrite <- app_assoc. do 3 (split; [reflexivity|]).
        by apply speed_no_audio.
Qed.

Lemma Summary_nil c w : Summary [] [] 0 0 c w c w.
Proof.
  split; rewrite ?app_nil_r; try done; try (unfold failures, generations; simpl; lia).
  intros _ p Hp. by apply elem_of_nil in Hp.
Qed.

Lemma Summary_app evs1 evs2 paths1 paths2 n1 n2 k1 k2 c w c1 w1 c2 w2 :
  Summary evs1 paths1 n1 k1 c w c1 w1 →
  Summary evs2 paths2 n2 k2 c1 w1 c2 w2 →
  Summary (evs1 ++ evs2) (paths1 ++ paths2) (n1 + n2) (k1 + k2) c w c2 w2.
Proof.
  intros [L1 C1 F1 G1 I1 A1 B1 S1 M1 P1 D1] [L2 C2 F2 G2 I2 A2 B2 S2 M2 P2 D2]. split.
  - by rewrite L2, L1, app_assoc.
  - by rewrite checked_app, C1, C2.
  - rewrite failures_app. lia.
  - rewrite generations_app. lia.
  - lia.
  - lia.
  - lia.
  - lia.
  - eauto.
  - rewrite failures_app. intros Hz p [Hp|Hp]%elem_of_app.
    + apply M2, P1; [lia | done].
    + apply P2; [lia | done].
  - intros Hall.
    destruct D1 as (E1 & H1 & W1 & Z1 & Y1 & X1).
    { intros p Hp. apply Hall, elem_of_app. by left. }
    destruct D2 as (E2 & H2 & W2 & Z2 & Y2 & X2).
    { intros p Hp. rewrite E1. apply Hall, elem_of_app. by right. }
    rewrite failures_app, generations_app.
    repeat split; try congruence; lia.
Qed.

Lemma ensure_speed_summary args dir text name sfx speed st w :
  ∃ evs,
    Summary evs [variant_path dir name sfx] 0 0 (counts st) w
      (counts (ensure_speed args dir text name (sfx, speed) st w).1)
      (ensure_speed args dir text name (sfx, speed) st w).2
    ∧ (flags_ok st → flags_ok (ensure_speed args dir text name (sfx, speed) st w).1)
    ∧ (is_Some (fs w !! variant_path dir name sfx) →
       (ensure_speed args dir text name (sfx, speed) st w).1 = st)
    ∧ (all_speeds_present_for_this_item
         (ensure_speed args dir text name (sfx, speed) st w).1 = true →
       all_speeds_present_for_this_item st = true).
Proof.
  destruct (ensure_speed_case args dir text name sfx speed st w)
    as (evs & Hlog & _ & _ & Hcase).
  exists evs.
  destruct Hcase as [w' Hp Hfs Hh Hw | a w' Hp Ha Hfs | a w' Hp Ha Hfs | a o w' Hp Ha Hfs].
  all: split; [split|].
  all: try done.
  all: try (unfold failures, generations; simpl; rewrite ?Ha; simpl; lia).
  all: try (split; [by right | split; [intros [? ?]; congruence | done]]).
  all: try (intros Hall; destruct (Hall (variant_path dir name sfx)) as [? ?];
            [apply list_elem_of_singleton; done | congruence]).
  all: try (unfold failures; simpl; rewrite ?Ha; simpl; intros; lia).
  all: try (intros _ p ->%list_elem_of_singleton; rewrite Hfs, ?lookup_insert_eq; eauto).
  all: try (intros _; unfold failures, generations; simpl; repeat split; (done || lia)).
  all: intros q Hq; rewrite Hfs; try done.
  all: try destruct o as [part|]; try done.
  all: destruct (decide (variant_path dir name sfx = q)) as [->|Hne];
    [rewrite lookup_insert_eq; eauto | by rewrite lookup_insert_ne].
Qed.

Lemma ensure_speeds_summary args dir text name speeds st w :
  ∃ evs,
    Summary evs (speed_paths dir name speeds) 0 0 (counts st) w
      (counts (for_each (ensure_speed args dir text name) speeds st w).1)
      (for_each (ensure_speed args dir text name) speeds st w).2
    ∧ (flags_ok st →
       flags_ok (for_each (ensure_speed args dir text name) speeds st w).1)
    ∧ ((∀ p, p ∈ speed_paths dir name speeds → is_Some (fs w !! p)) →
       (for_each (ensure_speed args dir text name) speeds st w).1 = st).
Proof.
  revert st w. induction speeds as [|[sfx speed] speeds IH]; intros st w.
  - exists []. split; [apply Summary_nil | done].
  - cbn [for_each]. unfold mbind, IO_bind.
    destruct (ensure_speed_summary args dir text name sfx speed st w)
      as (evs1 & S1 & F1 & I1 & _).
    destruct (ensure_speed args dir text name (sfx, speed) st w) as [st1 w1].
    destruct (IH st1 w1) as (evs2 & S2 & F2 & I2).
    cbn [fst snd] in *.
    exists (evs1 ++ evs2). split; [|split].
    + apply (Summary_app _ _ [_] _ 0 0 0 0 _ _ _ _ _ _ S1 S2).
    + eauto.
    + intros Hall. rewrite I2.
      * apply I1. apply Hall. left.
      * intros p Hp. destruct (sum_idle _ _ _ _ _ _ _ _ S1) as [-> _].
        -- intros q ->%list_elem_of_singleton. apply Hall. left.
        -- apply Hall. by right.
Qed.

Lemma ensure_entry_summary args dir e c w :
  ∃ evs,
    Summary evs (entry_paths args dir e)
      (if complete e then 1 else 0) (if complete e then 0 else 1)
      c w (ensure_entry args dir e c w).1 (ensure_entry args dir e c w).2.
Proof.
  destruct e as [key name]. unfold ensure_entry, entry_paths, complete. cbn [fst snd].
  destruct (truthy key) eqn:Hk; [destruct (truthy name) eqn:Hn|]; cbn [negb orb andb].
  2,3: exists []; destruct (Summary_nil c w); split; try done; simpl; lia.
  unfold mbind, IO_bind.
  destruct (ensure_speeds_summary args dir (default [] key) (default [] name)
              (speeds_to_generate args) (mkItem c true false) w) as (evs & S & F & I).
  destruct (for_each _ _ _ w) as [st w'] eqn:E. cbn [fst snd] in *.
  exists evs.
  assert (Hfl : flags_ok st) by (apply F; by left).
  destruct S as [L C Fa G It A B Sk M P D]. cbn [counts] in *.
  destruct (all_speeds_present_for_this_item st) eqn:Hall; cbn [mret IO_ret fst snd].
  - split; try done; try (cbn; lia).
    intros Hp. destruct (D Hp) as (? & ? & ? & ? & ? & ?).
    repeat split; try done; cbn; lia.
  - destruct Hfl as [Hfl | Hfl]; [congruence|].
    rewrite Hfl. cbn [mret IO_ret fst snd].
    split; try done; try (cbn; lia).
    intros Hp. rewrite (I Hp) in Hall. done.
Qed.

Lemma sweep_loop_summary args dir entries c w :
  ∃ evs,
    Summary evs (expected_paths args dir entries)
      (count complete entries) (count (λ e, negb (complete e)) entries)
      c w (for_each (ensure_entry args dir) entries c w).1
      (for_each (ensure_entry args dir) entries c w).2.
Proof.
  revert c w. induction entries as [|e entries IH]; intros c w.
  - exists []. apply Summary_nil.
  - cbn [for_each]. unfold mbind, IO_bind.
    destruct (ensure_entry_summary args dir e c w) as (evs1 & S1).
    destruct (ensure_entry args dir e c w) as [c1 w1].
    destruct (IH c1 w1) as (evs2 & S2).
    cbn [fst snd] in *.
    exists (evs1 ++ evs2).
    pose proof (Summary_app _ _ _ _ _ _ _ _ _ _ _ _ _ _ S1 S2) as S.
    cbn [count]. destruct (complete e); exact S.
Qed.

Lemma sweep_summary args dir entries w :
  ∃ evs,
    Summary evs (expected_paths args dir entries)
      (count complete entries) (count (λ e, negb (complete e)) entries)
      no_counts w (counters (sweep args dir entries w).1) (sweep args dir entries w).2
    ∧ ((sweep args dir entries w).1 = None ↔ entries = []).
Proof.
  destruct entries as [|e entries].
  - exists []. split; [apply Summary_nil | done].
  - unfold sweep, mbind, IO_bind.
    destruct (sweep_loop_summary args dir (e :: entries) no_counts w) as (evs & S).
    destruct (for_each _ _ _ w) as [c w']. exists evs. split; [exact S | done].
Qed.

Lemma Summary_new_events evs paths n k c w c' w' :
  Summary evs paths n k c w c' w' → new_events w w' = evs.
Proof.
  intros S. unfold new_events. rewrite (sum_log _ _ _ _ _ _ _ _ S).
  by rewrite drop_app_length.
Qed.


(** C2: when the startup sweep reported no failed file, a second run on
    the disk it left (whatever the endpoint and the disk would answer)
    changes no file, asks the endpoint nothing, generates nothing, and
    counts every entry the first run worked on as having all speeds. *)
Theorem sweep_twice_generates_nothing args vocab sentences w w2 :
  let first := startup_sweep args vocab sentences w in
  let second := startup_sweep args vocab sentences w2 in
  individual_files_failed_generation (counters first.1.1) = 0 →
  individual_files_failed_generation (counters first.1.2) = 0 →
  fs w2 = fs first.2 →
  fs second.2 = fs w2
  ∧ http second.2 = http w2
  ∧ generations (new_events w2 second.2) = 0
  ∧ individual_files_generated (counters second.1.1) = 0
  ∧ individual_files_generated (counters second.1.2) = 0
  ∧ items_all_speeds_found (counters second.1.1) =
      items_all_speeds_found (counters first.1.1)
      + items_had_missing_speeds (counters first.1.1)
  ∧ items_all_speeds_found (counters second.1.2) =
      items_all_speeds_found (counters first.1.2)
      + items_had_missing_speeds (counters first.1.2).
Proof.
  cbn zeta. unfold startup_sweep, ensure_audio_files_exist,
    ensure_sentence_audio_files_exist, mbind, IO_bind.
  set (ws := (λ e, (character e, audio_file_name e)) <$> vocab).
  set (ss := (λ e, (sentence_text e, sentence_audio_file_name e)) <$> sentences).
  destruct (sweep_summary args AUDIO_CHAR_DIR ws w) as (e1 & S1 & _).
  destruct (sweep args AUDIO_CHAR_DIR ws w) as [r1 w1].
  destruct (sweep_summary args AUDIO_PRO_DIR ss w1) as (e2 & S2 & _).
  destruct (sweep args AUDIO_PRO_DIR ss w1) as [r2 w1'].
  destruct (sweep_summary args AUDIO_CHAR_DIR ws w2) as (e3 & S3 & _).
  destruct (sweep args AUDIO_CHAR_DIR ws w2) as [r3 w3].
  destruct (sweep_summary args AUDIO_PRO_DIR ss w3) as (e4 & S4 & _).
  destruct (sweep args AUDIO_PRO_DIR ss w3) as [r4 w4].
  cbn [fst snd mret IO_ret] in *. intros F1 F2 Hfs.
  pose proof (sum_failed _ _ _ _ _ _ _ _ S1) as Z1.
  pose proof (sum_failed _ _ _ _ _ _ _ _ S2) as Z2.
  cbn in Z1, Z2.
  destruct (sum_idle _ _ _ _ _ _ _ _ S3) as (E3 & H3 & W3 & _ & G3 & A3).
  { intros p Hp. rewrite Hfs. apply (sum_mono _ _ _ _ _ _ _ _ S2).
    apply (sum_filled _ _ _ _ _ _ _ _ S1); [lia | done]. }
  destruct (sum_idle _ _ _ _ _ _ _ _ S4) as (E4 & H4 & W4 & _ & G4 & A4).
  { intros p Hp. rewrite E3, Hfs.
    apply (sum_filled _ _ _ _ _ _ _ _ S2); [lia | done]. }
  pose proof (sum_generated _ _ _ _ _ _ _ _ S3) as Y3.
  pose proof (sum_generated _ _ _ _ _ _ _ _ S4) as Y4.
  pose proof (sum_items _ _ _ _ _ _ _ _ S1) as I1.
  pose proof (sum_items _ _ _ _ _ _ _ _ S2) as I2.
  cbn in Y3, Y4, I1, I2, A3, A4.
  unfold new_events. rewrite (sum_log _ _ _ _ _ _ _ _ S4), (sum_log _ _ _ _ _ _ _ _ S3).
  rewrite <- app_assoc, drop_app_length, generations_app.
  repeat split; try congruence; lia.
Qed.

Lemma ensure_speed_present args dir text name sfx speed st w :
  is_Some (fs w !! variant_path dir name sfx) →
  ensure_speed args dir text name (sfx, speed) st w =
  (st, mkWorld (fs w) (http w) (writes w) (removes w) (appends w)
         (log w ++ [EvExists (variant_path dir name sfx) true])).
Proof.
  intros Hp. unfold ensure_speed. io_unfold.
  by rewrite (bool_decide_eq_true_2 _ Hp).
Qed.

Lemma ensure_speed_generated args dir text name sfx speed st w r rest x a :
  fs w !! variant_path dir name sfx = None →
  http w = r :: rest → audio_of_reply r = Some (x :: a) → writes w = [] →
  ensure_speed args dir text name (sfx, speed) st w =
  (mkItem (count_generated (counts st)) false true,
   mkWorld (<[variant_path dir name sfx := x :: a]> (fs w)) rest [] (removes w)
     (appends w)
     (log w ++ [EvExists (variant_path dir name sfx) false;
                EvTts text speed (Some (x :: a));
                EvWrite (variant_path dir name sfx) WriteOk])).
Proof.
  intros Hp Hh Ha Hw. unfold ensure_speed. io_unfold.
  rewrite Hp, (bool_decide_eq_false_2 (is_Some None)) by (intros [? ?]; done).
  rewrite Hh. cbn [fs http writes removes appends log]. rewrite Ha, Hw.
  cbn. by rewrite <- !app_assoc.
Qed.

(** C7: with one word 你好 stored under [hello.mp3], only
    [hello_default.mp3] on disk and an endpoint whose replies are good
    audio, the sweep writes [hello_slow.mp3] and [hello_slower.mp3],
    leaves [hello_default.mp3] as it was, and reports 2 files generated,
    0 failed and 1 item that had missing speeds. *)
Theorem sweep_hello_scenario args (d a1 a2 : bytes) r1 r2 rest rm ap lg :
  audio_of_reply r1 = Some a1 → a1 ≠ [] →
  audio_of_reply r2 = Some a2 → a2 ≠ [] →
  let default_file := lit "audio/characters/hello_default.mp3" in
  let slow_file := lit "audio/characters/hello_slow.mp3" in
  let slower_file := lit "audio/characters/hello_slower.mp3" in
  let w := mkWorld {[default_file := d]} (r1 :: r2 :: rest) [] rm ap lg in
  let r := ensure_audio_files_exist args [HELLO] w in
  r.1 = Some (mkCounters 0 1 2 0 0)
  ∧ fs r.2 = <[slower_file := a2]> (<[slow_file := a1]> {[default_file := d]})
  ∧ fs r.2 !! default_file = Some d
  ∧ new_events w r.2 =
      [ EvExists default_file true;
        EvExists slow_file false;
        EvTts [20320; 22909]%N SLOWER_KOKORO_SPEED (Some a1);
        EvWrite slow_file WriteOk;
        EvExists slower_file false;
        EvTts [20320; 22909]%N EXTRA_SLOW_KOKORO_SPEED (Some a2);
        EvWrite slower_file WriteOk ].
Proof.
  intros H1 N1 H2 N2. cbn zeta.
  destruct a1 as [|x1 a1]; [done|]. destruct a2 as [|x2 a2]; [done|].
  unfold ensure_audio_files_exist, sweep, HELLO, new_events.
  cbn [fmap list_fmap character audio_file_name for_each].
  unfold mbind, IO_bind, ensure_entry, mbind, IO_bind, speeds_to_generate.
  change (negb (truthy (Some [20320%N; 22909%N]))
          || negb (truthy (Some (lit "hello.mp3")))) with false.
  cbn [for_each default]. unfold mbind, IO_bind.
  rewrite ensure_speed_present; last first.
  { change (variant_path AUDIO_CHAR_DIR (lit "hello.mp3") DEFAULT_SPEED_SUFFIX)
      with (lit "audio/characters/hello_default.mp3").
    cbn [fs]. rewrite lookup_singleton_eq. eauto. }
  erewrite ensure_speed_generated; [|cbn [fs]|reflexivity|exact H1|reflexivity];
    last first.
  { apply lookup_singleton_ne. vm_compute. congruence. }
  erewrite ensure_speed_generated; [|cbn [fs]|reflexivity|exact H2|reflexivity];
    last first.
  { rewrite lookup_insert_ne by (vm_compute; congruence).
    apply lookup_singleton_ne. vm_compute. congruence. }
  cbn [fs http writes removes appends log fst snd mret IO_ret counts
       all_speeds_present_for_this_item generation_attempted_for_this_item].
  rewrite <- !app_assoc, drop_app_length.
  split; [reflexivity|]. split; [reflexivity|]. split; [|reflexivity].
  rewrite lookup_insert_ne by (vm_compute; congruence).
  rewrite lookup_insert_ne by (vm_compute; congruence).
  apply lookup_singleton_eq.
Qed.

(** ** File names *)

Lemma lit_inj (a b : string) : lit a = lit b → a = b.
Proof.
  unfold lit. intros Heq.
  rewrite <- (string_of_list_ascii_of_string a), <- (string_of_list_ascii_of_string b).
  f_equal. revert Heq. generalize (list_ascii_of_string a) (list_ascii_of_string b).
  intros la. induction la as [|x la IH]; intros [|y lb]; simpl; try done.
  intros [= Hxy Hl]. f_equal; [|by apply IH].
  by rewrite <- (ascii_N_embedding x), <- (ascii_N_embedding y), Hxy.
Qed.

Lemma str_of_nat_inj (n m : nat) : str_of_nat n = str_of_nat m → n = m.
Proof. unfold str_of_nat. intros Heq%lit_inj. by apply (inj pretty) in Heq. Qed.

Lemma pretty_N_char_clean x : clean_char (N_of_ascii (pretty_N_char x)).
Proof.
  unfold pretty_N_char. repeat case_match; split; vm_compute; congruence.
Qed.

Lemma pretty_N_go_clean x s : clean (lit s) → clean (lit (pretty_N_go x s)).
Proof.
  revert s. induction (N.lt_wf_0 x) as [x _ IH]; intros s Hs.
  assert (x = 0 ∨ 0 < x)%N as [->|Hx] by lia.
  - by rewrite pretty_N_go_0.
  - rewrite pretty_N_go_step by done. apply IH.
    + by apply N.div_lt.
    + unfold lit. cbn. constructor; [apply pretty_N_char_clean | exact Hs].
Qed.

Lemma str_of_nat_clean n : clean (str_of_nat n).
Proof.
  unfold str_of_nat, pretty, pretty_nat, pretty, pretty_N. case_decide.
  - repeat constructor; vm_compute; congruence.
  - apply pretty_N_go_clean. constructor.
Qed.

Lemma isalnum_clean c : isalnum c = true → clean_char c.
Proof.
  unfold isalnum, clean_char, DOT, SLASH. intros Hc.
  split; intros ->; vm_compute in Hc; congruence.
Qed.

Lemma lstrip_suffix s : ∃ pre, s = pre ++ lstrip s.
Proof.
  induction s as [|c s [pre IH]]; simpl.
  - by exists [].
  - destruct (isspace c); [exists (c :: pre); simpl; by f_equal | by exists []].
Qed.

Lemma rstrip_prefix s : ∃ post, s = rstrip s ++ post.
Proof.
  unfold rstrip. destruct (lstrip_suffix (reverse s)) as [pre Hpre].
  exists (reverse pre). rewrite <- reverse_app, <- Hpre. by rewrite reverse_involutive.
Qed.

Lemma sanitize_filename_clean name : clean (sanitize_filename name).
Proof.
  unfold sanitize_filename, clean.
  set (kept := filter _ _).
  assert (Hk : Forall clean_char kept).
  { apply Forall_forall. intros c [Hc _]%list_elem_of_filter.
    apply orb_true_iff in Hc as [Hc%orb_true_iff | Hc%N.eqb_eq].
    - destruct Hc as [Hc | Hc%N.eqb_eq]; [by apply isalnum_clean|].
      subst. split; vm_compute; congruence.
    - subst. split; vm_compute; congruence. }
  destruct (rstrip_prefix kept) as [post Hpost]. rewrite Hpost in Hk.
  by apply Forall_app in Hk as [Hk _].
Qed.

Lemma rfind_from_app i acc c a b :
  rfind_from i acc c (a ++ b) =
  rfind_from (i + Z.of_nat (length a)) (rfind_from i acc c a) c b.
Proof.
  revert i acc. induction a as [|x a IH]; intros i acc; simpl.
  - by rewrite Z.add_0_r.
  - rewrite IH. f_equal. lia.
Qed.

Lemma rfind_from_absent i acc c p : c ∉ p → rfind_from i acc c p = acc.
Proof.
  revert i acc. induction p as [|x p IH]; intros i acc Hc; simpl; [done|].
  apply not_elem_of_cons in Hc as [Hne Hc]. rewrite IH by done.
  destruct (N.eqb_spec x c); congruence.
Qed.

Lemma clean_no_dot s : clean s → DOT ∉ s.
Proof.
  intros Hs Hin. unfold clean in Hs. rewrite Forall_forall in Hs.
  by destruct (Hs _ Hin).
Qed.
Lemma clean_no_slash s : clean s → SLASH ∉ s.
Proof.
  intros Hs Hin. unfold clean in Hs. rewrite Forall_forall in Hs.
  by destruct (Hs _ Hin).
Qed.

Lemma split_audio_name_clean x :
  clean x → split_audio_name (x ++ MP3) = (stem_of x, MP3).
Proof.
  intros Hx. unfold split_audio_name, splitext, rfind.
  rewrite !rfind_from_app.
  rewrite (rfind_from_absent _ _ SLASH x) by by apply clean_no_slash.
  rewrite (rfind_from_absent _ _ DOT x) by by apply clean_no_dot.
  cbn [rfind_from MP3 N.eqb Pos.eqb SLASH DOT].
  replace (-1 <? 0 + Z.of_nat (length x))%Z with true by (symmetry; apply Z.ltb_lt; lia).
  replace (Z.to_nat (-1 + 1)) with 0 by lia.
  replace (Z.to_nat (0 + Z.of_nat (length x))) with (length x) by lia.
  rewrite drop_0, Nat.sub_0_r, take_app_length, drop_app_length.
  destruct x as [|c x]; [reflexivity|].
  apply Forall_cons in Hx as [[Hc _] _]. cbn [forallb].
  destruct (N.eqb_spec DOT c); [congruence | reflexivity].
Qed.

Lemma stem_of_inj x y : clean x → clean y → stem_of x = stem_of y → x = y.
Proof.
  unfold stem_of. intros Hx Hy.
  destruct x as [|a x], y as [|b y]; cbn [nonempty]; try done.
  - intros Heq. rewrite <- Heq in Hy.
    apply Forall_cons in Hy as [[Hd _] _]. by destruct Hd.
  - intros Heq. rewrite Heq in Hx.
    apply Forall_cons in Hx as [[Hd _] _]. by destruct Hd.
Qed.

Lemma suffix_app_inj b1 b2 s1 s2 :
  s1 ∈ SUFFIXES → s2 ∈ SUFFIXES → b1 ++ s1 = b2 ++ s2 → b1 = b2 ∧ s1 = s2.
Proof.
  intros H1 H2 Heq.
  assert (Hs : s1 = s2).
  { apply (f_equal last) in Heq. unfold SUFFIXES in *.
    apply elem_of_cons in H1 as [->|H1]; [|apply elem_of_cons in H1 as [->|H1];
      [|apply elem_of_cons in H1 as [->|H1]; [|by apply elem_of_nil in H1]]].
    all: apply elem_of_cons in H2 as [->|H2]; [|apply elem_of_cons in H2 as [->|H2];
      [|apply elem_of_cons in H2 as [->|H2]; [|by apply elem_of_nil in H2]]].
    all: try reflexivity.
    all: unfold DEFAULT_SPEED_SUFFIX, SLOWER_SPEED_SUFFIX, EXTRA_SLOW_SPEED_SUFFIX in Heq.
    all: rewrite !last_app in Heq; cbn in Heq; discriminate. }
  subst. split; [|done]. by apply app_inv_tail in Heq.
Qed.

(** Where the artifacts of a stored name [x ++ ".mp3"] lie. *)
Lemma variant_path_clean dir x sfx :
  clean x → sfx ∈ SUFFIXES → dir ≠ [] → last dir ≠ Some SLASH →
  variant_path dir (x ++ MP3) sfx = dir ++ SLASH :: stem_of x ++ sfx ++ MP3.
Proof.
  intros Hx Hs Hd Hl. unfold variant_path. rewrite split_audio_name_clean by done.
  unfold path_join.
  assert (Hns : starts_with [SLASH] (stem_of x ++ sfx ++ MP3) = false).
  { unfold stem_of. destruct x as [|a x]; cbn [nonempty]; [reflexivity|].
    apply Forall_cons in Hx as [[_ Ha] _]. cbn [starts_with app].
    destruct (N.eqb_spec SLASH a) as [e|]; [by destruct Ha | reflexivity]. }
  rewrite Hns. destruct (last dir) as [c|] eqn:E.
  - destruct (N.eqb_spec c SLASH); [congruence | done].
  - apply last_None in E. done.
Qed.

(** Two stored names of that form share no artifact. *)
Lemma artifacts_disjoint dir x y s1 s2 :
  clean x → clean y → s1 ∈ SUFFIXES → s2 ∈ SUFFIXES →
  dir ≠ [] → last dir ≠ Some SLASH →
  variant_path dir (x ++ MP3) s1 = variant_path dir (y ++ MP3) s2 → x = y.
Proof.
  intros Hx Hy H1 H2 Hd Hl. rewrite !variant_path_clean by done.
  intros Heq%app_inv_head. injection Heq as Heq.
  rewrite !app_assoc in Heq. apply app_inv_tail in Heq.
  apply suffix_app_inj in Heq as [Heq _]; [|done..].
  by apply stem_of_inj.
Qed.

(** ** Interactive creation *)

Lemma saved_app a b : saved (a ++ b) = saved a ++ saved b.
Proof. apply omap_app. Qed.
Lemma appended_app a b : appended (a ++ b) = appended a ++ appended b.
Proof. apply omap_app. Qed.
Lemma undeleted_app a b : undeleted (a ++ b) = undeleted a ++ undeleted b.
Proof. apply omap_app. Qed.
Lemma touched_app a b : touched (a ++ b) = touched a ++ touched b.
Proof. apply omap_app. Qed.

Lemma generate_all_spec args dir text name speeds gp w :
  ∃ evs,
    Generated dir name speeds gp w
      (generate_all args dir text name speeds gp w).1.1
      (generate_all args dir text name speeds gp w).1.2
      (generate_all args dir text name speeds gp w).2 evs.
Proof.
  revert gp w. induction speeds as [|[sfx speed] speeds IH]; intros gp w.
  - exists []. cbn. split; rewrite ?app_nil_r; try done. by exists [].
  - cbn [generate_all]. set (p := variant_path dir name sfx).
    assert (Hsp : speed_paths dir name ((sfx, speed) :: speeds)
                  = p :: speed_paths dir name speeds) by reflexivity.
    io_unfold.
    destruct (http w) as [|r rest] eqn:Hh;
      cbn [fs http writes removes appends log fst snd];
      [set (a := audio_of_reply RequestException)
      |set (a := audio_of_reply r)];
      (destruct (audio_ok a) eqn:Ha; [|
        (* no audio *)
        exists [EvTts text speed a];
        split; rewrite ?Hsp; unfold saved, appended, undeleted, touched, failures;
          cbn [omap list_omap count is_failure
               fs http writes removes appends log fst snd];
          rewrite ?Ha; cbn [negb];
          [ done | done | done | by rewrite app_nil_r | by eexists | done | done
          | by intros q Hq%elem_of_nil | done ]]).
    { done. }
    destruct (writes w) as [|[|left] wr] eqn:Hw;
      cbn [fs http writes removes appends log fst snd].
    3: { (* the write raised *)
      exists [EvTts text speed a; EvWrite p (WriteFails left)].
      destruct left as [part|]; cbn [fs http writes removes appends log fst snd].
      all: split; rewrite ?Hsp; unfold saved, appended, undeleted, touched, failures;
        cbn [omap list_omap count is_failure
             fs http writes removes appends log fst snd];
        rewrite ?Ha; cbn [negb].
      all: try done.
      all: try by rewrite <- !app_assoc.
      all: try by rewrite app_nil_r.
      all: try by eexists.
      all: try by (intros q ->%list_elem_of_singleton; left).
      intros q [Hq1 Hq2]%not_elem_of_cons. by rewrite lookup_insert_ne. }
    all: match goal with |- context [generate_all _ _ _ _ _ ?g ?w1] =>
           destruct (IH g w1) as (evs & G);
           destruct (generate_all args dir text name speeds g w1) as [[ok gp'] w']
         end.
    all: cbn [fs http writes removes appends log fst snd] in *.
    all: destruct G as [L R A P [rest' S] O [Q1 Q2] T F].
    all: cbn [fs http writes removes appends log] in *.
    all: exists (EvTts text speed a :: EvWrite p WriteOk :: evs).
    all: split; rewrite ?Hsp; unfold saved, appended, undeleted, touched, failures in *;
      cbn [omap list_omap count is_failure]; rewrite ?Ha; cbn [negb].
    all: try done.
    all: try by rewrite L, <- !app_assoc.
    all: try by rewrite P, <- app_assoc.
    all: try (exists rest'; cbn; by rewrite S).
    all: try (destruct ok; [destruct O as [O1 O2]; split;
                             [exact O1 | cbn; by rewrite O2] | exact O]).
    all: try (intros q [->|Hq]%elem_of_cons; [left | right; by apply T]).
    all: intros q [Hq1 Hq2]%not_elem_of_cons; rewrite F by done;
      by rewrite lookup_insert_ne.
Qed.

Lemma cleanup_cons p gp w : cleanup (p :: gp) w = cleanup gp (remove_if_exists p w).2.
Proof.
  unfold cleanup. cbn [for_each]. unfold mbind, IO_bind.
  by destruct (remove_if_exists p w) as [[] w'].
Qed.

Lemma remove_if_exists_spec p w : ∃ evs, Cleaned [p] w (remove_if_exists p w).2 evs.
Proof.
  unfold remove_if_exists. io_unfold.
  destruct (fs w !! p) as [d|] eqn:Hp.
  - rewrite (bool_decide_eq_true_2 (is_Some (Some d))) by eauto.
    cbv beta iota zeta. cbn [fs http writes removes appends log fst snd].
    destruct (removes w) as [|[|] rm] eqn:Hr;
      cbn [fs http writes removes appends log fst snd].
    1,2: exists [EvExists p true; EvRemove p true].
    3: exists [EvExists p true; EvRemove p false].
    all: split; unfold saved, appended, undeleted, failures;
      cbn [omap list_omap count is_failure fs http writes removes appends log].
    all: try done.
    all: try by rewrite <- !app_assoc.
    all: try (intros q ->%list_elem_of_singleton;
              first [ left; by rewrite lookup_delete_eq | right; by left ]).
    all: try (intros ? [? ?]%not_elem_of_cons; by rewrite lookup_delete_ne).
    all: intros ? ?; apply lookup_delete_None; by right.
  - rewrite (bool_decide_eq_false_2 (is_Some None)) by (intros [? ?]; done).
    cbv beta iota zeta. cbn [fs http writes removes appends log fst snd].
    exists [EvExists p false].
    split; unfold saved, appended, undeleted, failures;
      cbn [omap list_omap count is_failure fs http writes removes appends log];
      try done.
    intros q ->%list_elem_of_singleton. by left.
Qed.

Lemma cleanup_spec gp w : ∃ evs, Cleaned gp w (cleanup gp w).2 evs.
Proof.
  revert w. induction gp as [|p gp IH]; intros w.
  - exists []. split; rewrite ?app_nil_r; try done.
    by intros p Hp%elem_of_nil.
  - rewrite cleanup_cons.
    destruct (remove_if_exists_spec p w) as (e1 & [L1 A1 (Q1 & R1 & S1) G1 F1 N1]).
    destruct (IH (remove_if_exists p w).2) as (e2 & [L2 A2 (Q2 & R2 & S2) G2 F2 N2]).
    exists (e1 ++ e2). split.
    + by rewrite L2, L1, app_assoc.
    + congruence.
    + rewrite saved_app, appended_app, failures_app, Q1, Q2, R1, R2, S1, S2. done.
    + rewrite undeleted_app. intros q [->|Hq]%elem_of_cons.
      * destruct (G1 p) as [Hg | Hg]; [by left | left; by apply N2 |].
        right. apply elem_of_app. by left.
      * destruct (G2 q Hq) as [Hg | Hg]; [by left | right].
        apply elem_of_app. by right.
    + intros q [Hq1 Hq2]%not_elem_of_cons. rewrite F2 by done. apply F1.
      by intros ->%list_elem_of_singleton.
    + intros q Hq. by apply N2, N1.
Qed.

(** ** Naming *)

Lemma probe_free fuel taken candidate current counter n :
  probe fuel taken candidate current counter = Some n → Some n ∉ taken.
Proof.
  revert current counter. induction fuel as [|fuel IH]; intros current counter;
    cbn [probe]; case_bool_decide; try done; try (intros [= <-]; done).
  apply IH.
Qed.

Lemma probe_shape fuel taken candidate current counter n :
  probe fuel taken candidate current counter = Some n →
  n = current ∨ ∃ j, n = candidate j.
Proof.
  revert current counter. induction fuel as [|fuel IH]; intros current counter;
    cbn [probe]; case_bool_decide; try done; try (intros [= <-]; by left).
  intros Hp. destruct (IH _ _ Hp) as [-> | ?]; eauto.
Qed.

Lemma probe_finds fuel taken candidate current counter i :
  i < fuel → Some (candidate (counter + i)) ∉ taken →
  is_Some (probe fuel taken candidate current counter).
Proof.
  revert current counter i. induction fuel as [|fuel IH]; intros current counter i Hi Hfree;
    [lia|].
  cbn [probe]. case_bool_decide; [|eauto].
  destruct i as [|i].
  - rewrite Nat.add_0_r in Hfree. destruct fuel; cbn [probe];
      by rewrite bool_decide_eq_false_2; eauto.
  - apply (IH _ _ i); [lia|]. by replace (S counter + i) with (counter + S i) by lia.
Qed.

(** The naming loop ends: of more distinct candidates than there are
    stored names, one is free. *)
Lemma probe_total taken candidate current :
  (∀ i j, candidate i = candidate j → i = j) →
  is_Some (probe (S (length taken)) taken candidate current 1).
Proof.
  intros Hinj.
  set (tried := (λ i, Some (candidate (1 + i))) <$> seq 0 (S (length taken))).
  destruct (decide (Forall (λ c, c ∈ taken) tried)) as [Hall | Hex].
  - exfalso.
    assert (Hnd : NoDup tried).
    { apply NoDup_fmap_2; [|apply NoDup_seq].
      intros i j [= Hij]. apply Hinj in Hij. lia. }
    assert (Hlen : length tried ≤ length taken).
    { apply submseteq_length, NoDup_submseteq; [done|].
      intros c Hc. by eapply Forall_forall in Hall. }
    unfold tried in Hlen. rewrite length_fmap, length_seq in Hlen. lia.
  - apply not_Forall_Exists in Hex; [|apply _].
    apply Exists_exists in Hex as (c & Hc & Hfree).
    apply list_elem_of_fmap in Hc as (i & -> & Hi%elem_of_seq).
    apply (probe_finds _ _ _ _ _ i); [lia | done].
Qed.

Lemma word_candidate_inj base pinyin_sanitized i j :
  word_candidate base pinyin_sanitized i = word_candidate base pinyin_sanitized j → i = j.
Proof.
  unfold word_candidate. intros Heq%app_inv_head. injection Heq as Heq.
  apply app_inv_head in Heq. injection Heq as Heq.
  by apply app_inv_tail, str_of_nat_inj in Heq.
Qed.

Lemma sentence_candidate_inj base i j :
  sentence_candidate base i = sentence_candidate base j → i = j.
Proof.
  unfold sentence_candidate. intros Heq%app_inv_head. injection Heq as Heq.
  by apply app_inv_tail, str_of_nat_inj in Heq.
Qed.

Lemma clean_app a b : clean a → clean b → clean (a ++ b).
Proof. intros. by apply Forall_app. Qed.

Lemma clean_underscore s : clean s → clean (UNDERSCORE :: s).
Proof. intros. constructor; [split; vm_compute; congruence | done]. Qed.

Lemma unknown_pinyin_clean : clean UNKNOWN_PINYIN.
Proof. repeat constructor; vm_compute; congruence. Qed.

(** The naming loop of the word flow always ends, on a free name. *)
Lemma word_filename_spec existing_vocab pinyin idea :
  ∃ n, word_filename existing_vocab pinyin idea = Some n
       ∧ stored_name n
       ∧ Some n ∉ audio_file_name <$> existing_vocab.
Proof.
  unfold word_filename.
  set (base := sanitize_filename idea).
  set (pin := if nonempty pinyin then sanitize_filename pinyin else UNKNOWN_PINYIN).
  assert (Hb : clean base) by apply sanitize_filename_clean.
  assert (Hp : clean pin).
  { unfold pin. destruct (nonempty pinyin);
      [apply sanitize_filename_clean | apply unknown_pinyin_clean]. }
  destruct (probe_total (audio_file_name <$> existing_vocab)
              (word_candidate base pin) (base ++ MP3)) as [n Hn].
  { apply word_candidate_inj. }
  rewrite length_fmap in Hn. exists n. split; [done|]. split.
  - apply probe_shape in Hn as [-> | [j ->]].
    + by exists base.
    + exists (base ++ UNDERSCORE :: pin ++ UNDERSCORE :: str_of_nat j). split.
      * unfold word_candidate. by rewrite <- !app_assoc, <- !app_comm_cons, <- !app_assoc.
      * apply clean_app; [done|]. apply clean_underscore, clean_app; [done|].
        apply clean_underscore, str_of_nat_clean.
  - by eapply probe_free.
Qed.

(** The naming loop of the sentence flow always ends, on a free name. *)
Lemma sentence_filename_spec existing_sentences idea :
  ∃ n, sentence_filename existing_sentences idea = Some n
       ∧ stored_name n
       ∧ Some n ∉ sentence_audio_file_name <$> existing_sentences.
Proof.
  unfold sentence_filename.
  set (base := sanitize_filename idea).
  assert (Hb : clean base) by apply sanitize_filename_clean.
  destruct (probe_total (sentence_audio_file_name <$> existing_sentences)
              (sentence_candidate base) (base ++ MP3)) as [n Hn].
  { apply sentence_candidate_inj. }
  rewrite length_fmap in Hn. exists n. split; [done|]. split.
  - apply probe_shape in Hn as [-> | [j ->]].
    + by exists base.
    + exists (base ++ UNDERSCORE :: str_of_nat j). split.
      * unfold sentence_candidate. by rewrite <- !app_assoc, <- !app_comm_cons.
      * apply clean_app; [done|]. apply clean_underscore, str_of_nat_clean.
  - by eapply probe_free.
Qed.

Lemma append_row_log file fieldnames row w :
  ∃ b ok, log (append_row file fieldnames row w).2 =
          log w ++ [EvExists file b; EvAppend file row ok].
Proof.
  unfold append_row. io_unfold.
  destruct (appends w) as [|[|] rest]; cbn [fs http writes removes appends log fst snd];
    do 2 eexists; by rewrite <- app_assoc.
Qed.

Lemma new_events_refl w : new_events w w = [].
Proof. unfold new_events. by rewrite drop_all. Qed.



Lemma speed_paths_suffixes dir n args :
  speed_paths dir n (speeds_to_generate args) = variant_path dir n <$> SUFFIXES.
Proof. reflexivity. Qed.

Lemma csv_not_an_artifact dir file n args c1 c2 d f :
  dir = c1 :: d → file = c2 :: f → c1 ≠ c2 → last dir ≠ Some SLASH →
  stored_name n → file ∉ speed_paths dir n (speeds_to_generate args).
Proof.
  intros Hd Hf Hne Hl (x & -> & Hx). rewrite speed_paths_suffixes.
  intros (sfx & Heq & Hs)%list_elem_of_fmap.
  rewrite variant_path_clean in Heq by (subst; done).
  subst. injection Heq as Heq _. done.
Qed.

















(** ** Quiz sessions *)

Lemma swap_perm {A : Type} (i j : nat) (x : list A) : swap i j x ≡ₚ x.
Proof.
  unfold swap. destruct (x !! i) as [xi|] eqn:Hi; [|done].
  destruct (x !! j) as [xj|] eqn:Hj; [|done].
  by apply Permutation_insert_swap.
Qed.

Lemma shuffle_from_perm {A : Type} (i : nat) (draws : list nat) (x : list A) :
  shuffle_from i draws x ≡ₚ x.
Proof.
  revert draws x. induction i as [|i IH]; intros draws x; [done|].
  cbn [shuffle_from]. by rewrite IH, swap_perm.
Qed.

(** Whatever the generator draws, [random.shuffle] permutes the list. *)
Lemma shuffle_perm {A : Type} (draws : list nat) (x : list A) : shuffle draws x ≡ₚ x.
Proof. apply shuffle_from_perm. Qed.

Lemma run_snoc {S E : Type} (step : S → Tick → S * list E) start ticks t :
  run step start (ticks ++ [t]) =
  ((step (run step start ticks).1 t).1,
   (run step start ticks).2 ++ (step (run step start ticks).1 t).2).
Proof. unfold run. by rewrite fold_left_app. Qed.







Lemma run_inv {S E : Type} (step : S → Tick → S * list E) (inv : S * list E → Prop)
    start ticks :
  inv start →
  (∀ st tr t, inv (st, tr) → inv ((step st t).1, tr ++ (step st t).2)) →
  inv (run step start ticks).
Proof.
  intros Hstart Hstep. induction ticks as [|t ticks IH] using rev_ind; [done|].
  rewrite (run_snoc step start ticks t).
  destruct (run step start ticks) as [st tr]. by apply Hstep.
Qed.














(** C10: a sentence drill starts at the index of the default speed, and
    a step changes the index only on the left or right arrow key in the
    input loop, by one down or up modulo the three speeds; every other
    step (advancing, skipping, reshuffling, quitting) leaves it alone,
    and it stays a valid index. *)
Theorem speed_index_moves_only_on_arrows disk loaded ready first_draws st t :
  current_speed_index (pro_start loaded ready first_draws).1 = 2%Z
  ∧ (value <$> SPEED_CONFIGURATIONS !! 2) = Some DEFAULT_KOKORO_SPEED
  ∧ n_speeds = 3%Z
  ∧ current_speed_index (pro_step disk st t).1 =
      match pro_pc st, key t with
      | PKeys, Some k =>
          if bool_decide (k = KEY_LEFT)
          then ((current_speed_index st - 1 + 3) `mod` 3)%Z
          else if bool_decide (k = KEY_RIGHT)
               then ((current_speed_index st + 1) `mod` 3)%Z
               else current_speed_index st
      | _, _ => current_speed_index st
      end
  ∧ ((0 ≤ current_speed_index st < 3)%Z →
     (0 ≤ current_speed_index (pro_step disk st t).1 < 3)%Z).
Proof.
  assert (Hstep : current_speed_index (pro_step disk st t).1 =
      match pro_pc st, key t with
      | PKeys, Some k =>
          if bool_decide (k = KEY_LEFT)
          then ((current_speed_index st - 1 + 3) `mod` 3)%Z
          else if bool_decide (k = KEY_RIGHT)
               then ((current_speed_index st + 1) `mod` 3)%Z
               else current_speed_index st
      | _, _ => current_speed_index st
      end).
  { destruct st as [pc voc idx speed]. unfold pro_step.
    cbn [pro_pc sentences_vocab current_item_idx current_speed_index].
    change n_speeds with 3%Z.
    destruct pc.
    - destruct (voc !! idx) as [item|]; [|by destruct (key t)].
      destruct (negb _ || _); [by destruct (key t)|].
      by destruct (play_current_sentence_audio _ _ _ _) as [r|], (key t).
    - by destruct (answer t), (key t).
    - destruct (key t) as [k|]; [|done].
      repeat case_bool_decide; cbn;
        try destruct (play_current_sentence_audio _ _ _ _) as [r|]; done.
    - destruct (key t) as [k|]; [|done]. by repeat case_bool_decide.
    - destruct (key t) as [k|]; [|done]. case_bool_decide; [done|].
      by destruct (_ || _).
    - by destruct (key t). }
  split; [|split; [done|split; [done|split; [exact Hstep|]]]].
  - unfold pro_start. by destruct (_ || _).
  - intros Hr. rewrite Hstep. destruct (pro_pc st); try done.
    destruct (key t) as [k|]; [|done].
    repeat case_bool_decide; try done; apply Z.mod_pos_bound; lia.
Qed.



(** ** File names, continued *)

Lemma lstrip_idem s : lstrip (lstrip s) = lstrip s.
Proof.
  induction s as [|c s IH]; simpl; [done|].
  destruct (isspace c) eqn:E; [done | simpl; by rewrite E].
Qed.

Lemma rstrip_idem s : rstrip (rstrip s) = rstrip s.
Proof. unfold rstrip. by rewrite reverse_involutive, lstrip_idem. Qed.

Lemma filter_all {A : Type} (P : A → Prop) `{∀ x, Decision (P x)} (l : list A) :
  Forall P l → filter P l = l.
Proof.
  induction 1 as [|x l Hx Hl IH]; [done|].
  rewrite filter_cons_True by done. by rewrite IH.
Qed.

Lemma replace_space_id s : (32%N ∉ s) → replace_space s = s.
Proof.
  unfold replace_space. induction s as [|c s IH]; intros Hs; [done|].
  apply not_elem_of_cons in Hs as [Hc Hs].
  rewrite fmap_cons, IH by done. destruct (N.eqb_spec c 32); congruence.
Qed.

Lemma sanitize_filename_chars name :
  Forall (λ c, name_char c = true) (sanitize_filename name).
Proof.
  unfold sanitize_filename.
  set (kept := filter _ _).
  assert (Hk : Forall (λ c, name_char c = true) kept).
  { apply Forall_forall. by intros c [Hc _]%list_elem_of_filter. }
  destruct (rstrip_prefix kept) as [post Hpost]. rewrite Hpost in Hk.
  by apply Forall_app in Hk as [Hk _].
Qed.

(** X1: [sanitize_filename] returns only letters, digits, underscores
    and hyphens, so no blank, dot or path separator; what it returns is
    what is left of the input, in order, after blanks became
    underscores; and sanitizing a sanitized name changes nothing. *)
Theorem sanitize_filename_charset name :
  (∀ c, c ∈ sanitize_filename name →
        name_char c = true ∧ c ≠ 32%N ∧ c ≠ DOT ∧ c ≠ SLASH)
  ∧ sublist (sanitize_filename name) (replace_space name)
  ∧ sanitize_filename (sanitize_filename name) = sanitize_filename name.
Proof.
  pose proof (sanitize_filename_chars name) as Hch.
  assert (Hns : 32%N ∉ sanitize_filename name).
  { intros Hin. rewrite Forall_forall in Hch. specialize (Hch _ Hin).
    vm_compute in Hch. congruence. }
  split; [|split].
  - intros c Hc. split; [by rewrite Forall_forall in Hch; apply Hch|].
    split; [by intros ->|].
    pose proof (sanitize_filename_clean name) as Hcl.
    unfold clean in Hcl. rewrite Forall_forall in Hcl. exact (Hcl _ Hc).
  - unfold sanitize_filename. set (kept := filter _ _).
    destruct (rstrip_prefix kept) as [post Hpost].
    transitivity kept; [|apply sublist_filter].
    rewrite Hpost at 2. apply sublist_inserts_r. done.
  - unfold sanitize_filename at 1.
    rewrite replace_space_id by done.
    rewrite filter_all by exact Hch.
    unfold sanitize_filename. apply rstrip_idem.
Qed.

Lemma splitext_clean x : clean x → splitext x = (x, []).
Proof.
  intros Hx. unfold splitext, rfind.
  rewrite (rfind_from_absent _ _ SLASH) by by apply clean_no_slash.
  rewrite (rfind_from_absent _ _ DOT) by by apply clean_no_dot.
  done.
Qed.

(** X2: a stored name without an extension and the same name with
    [.mp3] have the same artifact files, so the sweep examines and
    fills the same three paths for both. *)
Theorem bare_name_shares_artifacts args dir key x sfx :
  clean x → x ≠ [] →
  variant_path dir x sfx = variant_path dir (x ++ MP3) sfx
  ∧ entry_paths args dir (key, Some x) = entry_paths args dir (key, Some (x ++ MP3)).
Proof.
  intros Hx Hne.
  assert (Hv : ∀ s, variant_path dir x s = variant_path dir (x ++ MP3) s).
  { intros s. unfold variant_path. rewrite split_audio_name_clean by done.
    unfold split_audio_name. rewrite splitext_clean by done. cbn [nonempty].
    unfold stem_of. by destruct x. }
  split; [apply Hv|].
  unfold entry_paths, complete, speed_paths. cbn [fst snd default].
  assert (Ht : truthy (Some (x ++ MP3)) = truthy (Some x)) by by destruct x.
  rewrite Ht. destruct (truthy key && truthy (Some x)); [|done].
  apply list_fmap_ext. intros _ sv _. apply Hv.
Qed.


(** ** The sweep, seen from the disk and the endpoint *)

Lemma new_events_app w w' evs : log w' = log w ++ evs → new_events w w' = evs.
Proof. intros Hl. unfold new_events. rewrite Hl. by rewrite drop_app_length. Qed.

Lemma missing_app a b : missing (a ++ b) = missing a + missing b.
Proof. apply count_app. Qed.

Lemma requests_app a b : requests (a ++ b) = requests a + requests b.
Proof. apply count_app. Qed.

Lemma removed_app a b : removed (a ++ b) = removed a ++ removed b.
Proof. apply omap_app. Qed.

(** One pass through the sweep's inner loop body, written out. *)
Lemma ensure_speed_run args dir text name sfx speed st w :
  ensure_speed args dir text name (sfx, speed) st w =
  let p := variant_path dir name sfx in
  if bool_decide (is_Some (fs w !! p)) then
    (st, mkWorld (fs w) (http w) (writes w) (removes w) (appends w)
           (log w ++ [EvExists p true]))
  else
    let a := audio_of_reply (next_reply w) in
    if audio_ok a then
      let o := default WriteOk (head (writes w)) in
      (mkItem (match o with
               | WriteOk => count_generated (counts st)
               | WriteFails _ => count_failed (counts st)
               end) false true,
       mkWorld (match o with
                | WriteOk => <[p := default [] a]> (fs w)
                | WriteFails (Some part) => <[p := part]> (fs w)
                | WriteFails None => fs w
                end)
         (tail (http w)) (tail (writes w)) (removes w) (appends w)
         (log w ++ [EvExists p false; EvTts text speed a; EvWrite p o]))
    else
      (mkItem (count_failed (counts st)) false true,
       mkWorld (fs w) (tail (http w)) (writes w) (removes w) (appends w)
         (log w ++ [EvExists p false; EvTts text speed a])).
Proof.
  unfold ensure_speed, next_reply. cbv zeta. set (p := variant_path dir name sfx).
  io_unfold.
  destruct (bool_decide (is_Some (fs w !! p))); cbn; [done|].
  destruct (http w) as [|r rest]; cbn.
  - by rewrite <- app_assoc.
  - destruct (audio_ok (audio_of_reply r)) eqn:Ha; cbn.
    + destruct (writes w) as [|[|[part|]] wr]; cbn; by rewrite <- !app_assoc.
    + by rewrite <- app_assoc.
Qed.

Lemma Gentle_nil ask w : Gentle ask [] [] w w.
Proof.
  split; try done.
  - by rewrite app_nil_r.
  - intros ??? Hin. by apply elem_of_nil in Hin.
  - intros ?? Hin. by apply elem_of_nil in Hin.
Qed.

Lemma Gentle_app ask evs1 evs2 paths1 paths2 w w1 w2 :
  Gentle ask evs1 paths1 w w1 → Gentle ask evs2 paths2 w1 w2 →
  Gentle ask (evs1 ++ evs2) (paths1 ++ paths2) w w2.
Proof.
  intros G1 G2. split.
  - rewrite (gt_log _ _ _ _ _ G2), (gt_log _ _ _ _ _ G1). by rewrite app_assoc.
  - intros q d Hq. eapply gt_keep; [exact G2|]. eapply gt_keep; [exact G1|done].
  - intros q Hq. apply not_elem_of_app in Hq as [Hq1 Hq2].
    rewrite (gt_frame _ _ _ _ _ G2) by done. by apply (gt_frame _ _ _ _ _ G1).
  - rewrite (gt_removes _ _ _ _ _ G2). apply (gt_removes _ _ _ _ _ G1).
  - rewrite (gt_appends _ _ _ _ _ G2). apply (gt_appends _ _ _ _ _ G1).
  - rewrite appended_app, removed_app.
    destruct (gt_quiet _ _ _ _ _ G1) as [-> ->].
    by destruct (gt_quiet _ _ _ _ _ G2) as [-> ->].
  - rewrite generations_app, failures_app, missing_app.
    pose proof (gt_account _ _ _ _ _ G1). pose proof (gt_account _ _ _ _ _ G2). lia.
  - rewrite requests_app, missing_app.
    by rewrite (gt_requests _ _ _ _ _ G1), (gt_requests _ _ _ _ _ G2).
  - rewrite (gt_http _ _ _ _ _ G2), (gt_http _ _ _ _ _ G1), requests_app.
    by rewrite drop_drop.
  - intros text speed a [Hin | Hin]%elem_of_app.
    + eapply gt_asked; [exact G1 | exact Hin].
    + eapply gt_asked; [exact G2 | exact Hin].
  - intros p o [Hin | Hin]%elem_of_app.
    + destruct (gt_written _ _ _ _ _ G1 _ _ Hin) as [Hn Hp].
      split; [done | apply elem_of_app; by left].
    + destruct (gt_written _ _ _ _ _ G2 _ _ Hin) as [Hn Hp].
      split; [|apply elem_of_app; by right].
      destruct (fs w !! p) as [d|] eqn:Hd; [|done].
      apply (gt_keep _ _ _ _ _ G1) in Hd. congruence.
Qed.

Ltac list_cases Hin :=
  repeat match type of Hin with
         | _ ∈ _ :: _ => apply elem_of_cons in Hin as [Hin | Hin]
         | _ ∈ [] => by apply elem_of_nil in Hin
         end.

Lemma ensure_speed_gentle (ask : str → Q → Prop) args dir text name sfx speed st w :
  ask text speed →
  ∃ evs, Gentle ask evs [variant_path dir name sfx] w
           (ensure_speed args dir text name (sfx, speed) st w).2.
Proof.
  intros Hask. rewrite ensure_speed_run. cbv zeta.
  set (p := variant_path dir name sfx).
  case_bool_decide as Hp.
  - exists [EvExists p true]. split; cbn; try done.
    + intros ??? Hin. list_cases Hin. discriminate.
    + intros ?? Hin. list_cases Hin. discriminate.
  - assert (Hnone : fs w !! p = None).
    { destruct (fs w !! p) eqn:E; [|done]. exfalso. apply Hp. eauto. }
    assert (Hasked : ∀ evs t s a,
      EvTts t s a ∈ EvExists p false :: EvTts text speed (audio_of_reply (next_reply w)) :: evs →
      (∀ e, e ∈ evs → is_request e = false) → ask t s).
    { intros evs t s a Hin Hno. list_cases Hin; [discriminate | by injection Hin as -> -> _|].
      apply Hno in Hin. discriminate. }
    assert (Hins : ∀ d q x, fs w !! q = Some x → <[p := d]> (fs w) !! q = Some x).
    { intros d q x Hq. rewrite lookup_insert_ne; [done|]. intros <-. congruence. }
    assert (Hfr : ∀ d q, q ∉ [p] → <[p := d]> (fs w) !! q = fs w !! q).
    { intros d q Hq. apply lookup_insert_ne. intros <-. apply Hq.
      by apply list_elem_of_singleton. }
    assert (Hwr : ∀ q o x,
      EvWrite q o ∈ [EvExists p false; EvTts text speed (audio_of_reply (next_reply w));
                     EvWrite p x] → fs w !! q = None ∧ q ∈ [p]).
    { intros q o x Hin. list_cases Hin; try discriminate. injection Hin as -> _.
      split; [done | by apply list_elem_of_singleton]. }
    assert (Htl : tail (http w) = drop 1 (http w)) by by destruct (http w).
    destruct (audio_ok (audio_of_reply (next_reply w))) eqn:Ha.
    + destruct (default WriteOk (head (writes w))) as [|[part|]] eqn:Ho; cbn.
      * eexists. split; cbn; [reflexivity | apply Hins | apply Hfr | done | done | done
          | unfold generations, failures, missing; cbn; by rewrite Ha | done | exact Htl | |].
        -- intros t s a Hin. apply (Hasked _ _ _ _ Hin).
           intros e He. list_cases He. by subst.
        -- intros q o Hin. by apply (Hwr _ _ _ Hin).
      * eexists. split; cbn; [reflexivity | apply Hins | apply Hfr | done | done | done
          | unfold generations, failures, missing; cbn; by rewrite Ha | done | exact Htl | |].
        -- intros t s a Hin. apply (Hasked _ _ _ _ Hin).
           intros e He. list_cases He. by subst.
        -- intros q o Hin. by apply (Hwr _ _ _ Hin).
      * eexists. split; cbn; [reflexivity | done | done | done | done | done
          | unfold generations, failures, missing; cbn; by rewrite Ha | done | exact Htl | |].
        -- intros t s a Hin. apply (Hasked _ _ _ _ Hin).
           intros e He. list_cases He. by subst.
        -- intros q o Hin. by apply (Hwr _ _ _ Hin).
    + eexists. split; cbn; [reflexivity | done | done | done | done | done
          | unfold generations, failures, missing; cbn; by rewrite Ha | done | exact Htl | |].
      * intros t s a Hin. apply (Hasked _ _ _ _ Hin).
        intros e He. list_cases He.
      * intros q o Hin. list_cases Hin; discriminate.
Qed.


Lemma for_each_cons {A S : Type} (body : A → S → IO S) a l s w :
  for_each body (a :: l) s w = for_each body l (body a s w).1 (body a s w).2.
Proof. cbn [for_each]. unfold mbind, IO_bind. by destruct (body a s w). Qed.

Lemma for_each_rel {A S : Type} (body : A → S → IO S)
    (R : list Event → list str → World → World → Prop) (pf : A → list str)
    (P : A → Prop) :
  (∀ w, R [] [] w w) →
  (∀ e1 e2 p1 p2 w w1 w2, R e1 p1 w w1 → R e2 p2 w1 w2 → R (e1 ++ e2) (p1 ++ p2) w w2) →
  (∀ a s w, P a → ∃ evs, R evs (pf a) w (body a s w).2) →
  ∀ l s w, Forall P l → ∃ evs, R evs (l ≫= pf) w (for_each body l s w).2.
Proof.
  intros Hnil Happ Hbody l. induction l as [|a l IH]; intros s w Hl.
  - exists []. apply Hnil.
  - apply Forall_cons in Hl as [Ha Hl].
    rewrite for_each_cons, bind_cons.
    destruct (Hbody a s w Ha) as (evs1 & R1).
    destruct (IH (body a s w).1 (body a s w).2 Hl) as (evs2 & R2).
    exists (evs1 ++ evs2). exact (Happ _ _ _ _ _ _ _ R1 R2).
Qed.

Lemma speed_paths_bind dir name speeds :
  speeds ≫= (λ sv : str * Q, [variant_path dir name sv.1]) = speed_paths dir name speeds.
Proof.
  unfold speed_paths. induction speeds as [|sv speeds IH]; [done|].
  cbn. by rewrite <- IH.
Qed.

Lemma ensure_entry_world args dir e c w :
  (ensure_entry args dir e c w).2 =
  if complete e
  then (for_each (ensure_speed args dir (default [] e.1) (default [] e.2))
          (speeds_to_generate args) (mkItem c true false) w).2
  else w.
Proof.
  destruct e as [key name]. unfold ensure_entry, complete. cbn [fst snd].
  destruct (truthy key); [destruct (truthy name)|]; cbn [negb orb andb]; try done.
  unfold mbind, IO_bind. destruct (for_each _ _ _ w) as [st w'].
  cbn [fst snd].
  destruct (all_speeds_present_for_this_item st); [done|].
  by destruct (generation_attempted_for_this_item st).
Qed.

Lemma sweep_world args dir entries w :
  (sweep args dir entries w).2 = (for_each (ensure_entry args dir) entries no_counts w).2.
Proof.
  destruct entries as [|e entries]; [done|].
  unfold sweep, mbind, IO_bind. by destruct (for_each _ _ _ w).
Qed.

Lemma truthy_Some (o : option str) : truthy o = true → o = Some (default [] o).
Proof. by destruct o as [[|??]|]. Qed.

Lemma ensure_entry_gentle args dir (ask : str → Q → Prop) e c w :
  (complete e = true → ∀ sv, sv ∈ speeds_to_generate args → ask (default [] e.1) sv.2) →
  ∃ evs, Gentle ask evs (entry_paths args dir e) w (ensure_entry args dir e c w).2.
Proof.
  intros Hask. rewrite ensure_entry_world. unfold entry_paths.
  destruct (complete e) eqn:Hc; [|exists []; apply Gentle_nil].
  rewrite <- speed_paths_bind.
  apply (for_each_rel _ (Gentle ask) _ (λ sv, ask (default [] e.1) sv.2)).
  - apply Gentle_nil.
  - apply Gentle_app.
  - intros [sfx speed] s w0 Hsv. by apply ensure_speed_gentle.
  - apply Forall_forall. intros sv Hsv. by apply Hask.
Qed.

Lemma sweep_gentle args dir entries w :
  ∃ evs, Gentle (sweep_asks args entries) evs (expected_paths args dir entries) w
           (sweep args dir entries w).2.
Proof.
  rewrite sweep_world. unfold expected_paths.
  apply (for_each_rel _ (Gentle (sweep_asks args entries)) _ (λ e, e ∈ entries)).
  - apply Gentle_nil.
  - apply Gentle_app.
  - intros e c w0 He. apply ensure_entry_gentle.
    intros Hc sv Hsv. split.
    + exists e. split; [done|]. split; [done|].
      unfold complete in Hc. apply andb_true_iff in Hc as [Hk _].
      by apply truthy_Some.
    + apply list_elem_of_fmap. by exists sv.
  - by apply Forall_forall.
Qed.


(** X3: the sweep never changes or deletes a file that is on the disk,
    and appends to no CSV file: it writes only to artifact paths of the
    loaded entries that were absent when it started, and leaves every
    other path as it was. *)
Theorem sweep_keeps_existing_files args dir entries w :
  let w' := (sweep args dir entries w).2 in
  (∀ q d, fs w !! q = Some d → fs w' !! q = Some d)
  ∧ (∀ q, q ∉ expected_paths args dir entries → fs w' !! q = fs w !! q)
  ∧ (∀ p o, EvWrite p o ∈ new_events w w' →
            fs w !! p = None ∧ p ∈ expected_paths args dir entries)
  ∧ removed (new_events w w') = []
  ∧ appended (new_events w w') = []
  ∧ removes w' = removes w
  ∧ appends w' = appends w.
Proof.
  cbv zeta. destruct (sweep_gentle args dir entries w) as (evs & G).
  rewrite (new_events_app _ _ _ (gt_log _ _ _ _ _ G)).
  destruct (gt_quiet _ _ _ _ _ G) as [Ha Hr].
  split; [apply (gt_keep _ _ _ _ _ G)|].
  split; [apply (gt_frame _ _ _ _ _ G)|].
  split; [apply (gt_written _ _ _ _ _ G)|].
  split; [done|]. split; [done|].
  split; [apply (gt_removes _ _ _ _ _ G) | apply (gt_appends _ _ _ _ _ G)].
Qed.








(** ** Interactive creation, continued *)

(** One pass through the generation loop of the interactive flows,
    written out. *)
Lemma generate_all_cons args dir text name sfx speed rest gp w :
  generate_all args dir text name ((sfx, speed) :: rest) gp w =
  let p := variant_path dir name sfx in
  let a := audio_of_reply (next_reply w) in
  if audio_ok a then
    match default WriteOk (head (writes w)) with
    | WriteOk =>
        generate_all args dir text name rest (gp ++ [p])
          (mkWorld (<[p := default [] a]> (fs w)) (tail (http w)) (tail (writes w))
             (removes w) (appends w)
             (log w ++ [EvTts text speed a; EvWrite p WriteOk]))
    | WriteFails o =>
        ((false, gp),
         mkWorld (match o with Some part => <[p := part]> (fs w) | None => fs w end)
           (tail (http w)) (tail (writes w)) (removes w) (appends w)
           (log w ++ [EvTts text speed a; EvWrite p (WriteFails o)]))
    end
  else
    ((false, gp),
     mkWorld (fs w) (tail (http w)) (writes w) (removes w) (appends w)
       (log w ++ [EvTts text speed a])).
Proof.
  cbn [generate_all]. unfold next_reply. cbv zeta.
  set (p := variant_path dir name sfx).
  io_unfold.
  destruct (http w) as [|r rs] eqn:Hh; cbn; rewrite ?Hh.
  - done.
  - destruct (audio_ok (audio_of_reply r)) eqn:Ha; cbn; [|done].
    destruct (writes w) as [|[|[part|]] wr] eqn:Hw; cbn; rewrite ?Hw, ?Hh;
      by rewrite <- ?app_assoc.
Qed.

Lemma audio_ok_nonempty a : audio_ok a = true → default [] a ≠ [].
Proof. by destruct a as [[|??]|]. Qed.

Lemma generate_all_files args dir text name speeds gp w :
  (generate_all args dir text name speeds gp w).1.1 = true →
  (∀ p, audible (fs w) p → audible (fs (generate_all args dir text name speeds gp w).2) p)
  ∧ ∀ p, p ∈ speed_paths dir name speeds →
         audible (fs (generate_all args dir text name speeds gp w).2) p.
Proof.
  revert gp w. induction speeds as [|[sfx speed] speeds IH]; intros gp w.
  - intros _. split; [done|]. intros p Hp. by apply elem_of_nil in Hp.
  - rewrite generate_all_cons. cbv zeta.
    destruct (audio_ok (audio_of_reply (next_reply w))) eqn:Ha; [|done].
    destruct (default WriteOk (head (writes w))) as [|o]; [|done].
    intros Hok. destruct (IH _ _ Hok) as [Hmono Hall].
    set (p := variant_path dir name sfx) in *.
    assert (Hp : audible (<[p := default [] (audio_of_reply (next_reply w))]> (fs w)) p).
    { eexists. split; [apply lookup_insert_eq | by apply audio_ok_nonempty]. }
    split.
    + intros q (d & Hq & Hd). apply Hmono. cbn [fs].
      destruct (decide (q = p)) as [->|Hne]; [exact Hp|].
      exists d. by rewrite lookup_insert_ne.
    + intros q Hq. apply elem_of_cons in Hq as [-> | Hq].
      * apply Hmono. exact Hp.
      * by apply Hall.
Qed.

Lemma append_row_appends file fieldnames row w :
  appends (append_row file fieldnames row w).2 = tail (appends w).
Proof.
  unfold append_row. io_unfold.
  by destruct (appends w) as [|[|] rest].
Qed.

Lemma appended_to_one old fieldnames row :
  appended_to old fieldnames [row] =
  old ++ (if bool_decide (old = []) then csv_line fieldnames else []) ++ csv_line row.
Proof. unfold appended_to. cbn. by rewrite app_nil_r. Qed.

Lemma appended_to_snoc old fieldnames rows row :
  appended_to (appended_to old fieldnames rows) fieldnames [row] =
  appended_to old fieldnames (rows ++ [row]).
Proof.
  rewrite appended_to_one.
  destruct rows as [|r rows]; [cbn [app]; by rewrite appended_to_one|].
  unfold appended_to. cbn [app].
  change (r :: rows ++ [row]) with ((r :: rows) ++ [row]).
  rewrite (fmap_app csv_line (r :: rows) [row]), concat_app.
  change (concat (csv_line <$> [row])) with (csv_line row ++ []). rewrite app_nil_r.
  set (h := if bool_decide (old = []) then csv_line fieldnames else []).
  set (body := concat (csv_line <$> r :: rows)).
  case_bool_decide as Hempty.
  - apply app_eq_nil in Hempty as [-> [Hh Hb]%app_eq_nil].
    subst h. rewrite bool_decide_eq_true_2 in * by done.
    rewrite Hh, Hb. done.
  - by rewrite <- !app_assoc.
Qed.

Lemma create_tail_stored {E : Type} args dir text n file fieldnames row (e : E)
    existing w :
  file ∉ speed_paths dir n (speeds_to_generate args) →
  Stored args dir file fieldnames row e n existing w
    (create_tail args dir text n file fieldnames row e existing w).1.1
    (create_tail args dir text n file fieldnames row e existing w).1.2
    (create_tail args dir text n file fieldnames row e existing w).2.
Proof.
  intros Hfile. unfold create_tail, mbind, IO_bind.
  destruct (generate_all_spec args dir text n (speeds_to_generate args) [] w)
    as (gen & [L R A P [rest S] O [Q1 Q2] T F]).
  pose proof (generate_all_files args dir text n (speeds_to_generate args) [] w) as Hf.
  destruct (generate_all _ _ _ _ _ _ w) as [[ok gp] w1].
  cbn [fst snd] in *. destruct ok.
  - destruct (Hf eq_refl) as [_ Hall].
    pose proof (append_row_fs file fieldnames row w1) as Hfs.
    pose proof (append_row_appends file fieldnames row w1) as Hap.
    destruct (append_row file fieldnames row w1) as [[] w2].
    cbn [fst snd mret IO_ret] in *.
    assert (Hnext : next_append_ok w1 = next_append_ok w).
    { unfold next_append_ok. by rewrite A. }
    rewrite Hnext in Hfs.
    split.
    + by left.
    + intros _. split; [done|]. split; [|split].
      * intros p Hp. destruct (Hall p Hp) as (d & Hd & Hne).
        exists d. split; [|done]. rewrite Hfs.
        destruct (next_append_ok w); [|done]. cbv zeta.
        rewrite lookup_insert_ne; [done|]. by intros <-.
      * rewrite Hfs. destruct (next_append_ok w); [|by apply F].
        cbv zeta. rewrite lookup_insert_eq. rewrite (F file Hfile).
        by rewrite appended_to_one.
      * by rewrite Hap, A.
    + intros [=].
    + intros q Hq Hne. rewrite Hfs. destruct (next_append_ok w); [|by apply F].
      cbv zeta. rewrite lookup_insert_ne by done. by apply F.
  - destruct (cleanup_spec gp w1) as (cl & [Lc Ac (C1 & C2 & C3) G Fc N]).
    destruct (cleanup gp w1) as [[] w2]. cbn [fst snd mret IO_ret] in *.
    assert (Hgp : ∀ q, q ∉ speed_paths dir n (speeds_to_generate args) → q ∉ gp).
    { intros q Hq Hin. apply Hq. rewrite S. apply elem_of_app. left.
      by rewrite P in Hin. }
    split.
    + by right.
    + intros [=].
    + intros _. split; [done|]. split; [|by rewrite Ac, A].
      rewrite (Fc file) by by apply Hgp. by apply F.
    + intros q Hq Hne. rewrite (Fc q) by by apply Hgp. by apply F.
Qed.

(** The cases of the body for one word entry. *)
Lemma add_word_cases args entry_str existing w :
  add_word args entry_str existing w = ((BadFormat, existing), w)
  ∧ length (strip <$> split_on 124 entry_str) ≠ 4
  ∨ add_word args entry_str existing w = ((Duplicate, existing), w)
    ∧ (∃ char pin meaning idea,
         strip <$> split_on 124 entry_str = [char; pin; meaning; idea]
         ∧ Some char ∈ character <$> existing)
  ∨ ∃ char pin meaning idea n,
      strip <$> split_on 124 entry_str = [char; pin; meaning; idea]
      ∧ (Some char ∉ character <$> existing)
      ∧ word_filename existing pin idea = Some n
      ∧ stored_name n
      ∧ Stored args AUDIO_CHAR_DIR VOCAB_FILE VOCAB_FIELDS [char; pin; meaning; n]
          (mkVocab (Some char) (Some pin) (Some meaning) (Some n)) n existing w
          (add_word args entry_str existing w).1.1
          (add_word args entry_str existing w).1.2
          (add_word args entry_str existing w).2.
Proof.
  unfold add_word.
  destruct (strip <$> split_on 124 entry_str) as [|char [|pin [|meaning [|idea [|? ?]]]]].
  1-4,6: by left.
  destruct (existsb _ existing) eqn:Hdup.
  { right. left. split; [done|]. exists char, pin, meaning, idea. split; [done|].
    apply existsb_exists in Hdup as (v & Hv & Hc).
    apply bool_decide_eq_true in Hc. apply list_elem_of_fmap. exists v.
    split; [done | by apply list_elem_of_In]. }
  right. right.
  destruct (word_filename_spec existing pin idea) as (n & Hw & Hn & Hfree).
  rewrite Hw.
  exists char, pin, meaning, idea, n. split; [done|]. split.
  { intros (v & Hc & Hv)%list_elem_of_fmap.
    assert (existsb (λ voc_entry, bool_decide (character voc_entry = Some char)) existing
            = true); [|congruence].
    apply existsb_exists. exists v. split; [by apply list_elem_of_In|].
    by apply bool_decide_eq_true. }
  split; [done|]. split; [done|].
  apply (create_tail_stored args AUDIO_CHAR_DIR char n VOCAB_FILE VOCAB_FIELDS
           [char; pin; meaning; n]
           (mkVocab (Some char) (Some pin) (Some meaning) (Some n)) existing w).
  eapply csv_not_an_artifact; try done; reflexivity.
Qed.

(** The cases of the body for one sentence entry. *)
Lemma add_sentence_cases args entry_str existing w :
  add_sentence args entry_str existing w = ((BadFormat, existing), w)
  ∧ length (strip <$> split_on 124 entry_str) ≠ 2
  ∨ add_sentence args entry_str existing w = ((Duplicate, existing), w)
    ∧ (∃ text idea,
         strip <$> split_on 124 entry_str = [text; idea]
         ∧ Some text ∈ sentence_text <$> existing)
  ∨ ∃ text idea n,
      strip <$> split_on 124 entry_str = [text; idea]
      ∧ (Some text ∉ sentence_text <$> existing)
      ∧ sentence_filename existing idea = Some n
      ∧ stored_name n
      ∧ Stored args AUDIO_PRO_DIR SENTENCES_FILE SENTENCES_FIELDS [text; n]
          (mkSentence (Some text) (Some n)) n existing w
          (add_sentence args entry_str existing w).1.1
          (add_sentence args entry_str existing w).1.2
          (add_sentence args entry_str existing w).2.
Proof.
  unfold add_sentence.
  destruct (strip <$> split_on 124 entry_str) as [|text [|idea [|? ?]]].
  1,2,4: by left.
  destruct (existsb _ existing) eqn:Hdup.
  { right. left. split; [done|]. exists text, idea. split; [done|].
    apply existsb_exists in Hdup as (v & Hv & Hc).
    apply bool_decide_eq_true in Hc. apply list_elem_of_fmap. exists v.
    split; [done | by apply list_elem_of_In]. }
  right. right.
  destruct (sentence_filename_spec existing idea) as (n & Hw & Hn & Hfree).
  rewrite Hw.
  exists text, idea, n. split; [done|]. split.
  { intros (v & Hc & Hv)%list_elem_of_fmap.
    assert (existsb (λ sent_entry, bool_decide (sentence_text sent_entry = Some text))
              existing = true); [|congruence].
    apply existsb_exists. exists v. split; [by apply list_elem_of_In|].
    by apply bool_decide_eq_true. }
  split; [done|]. split; [done|].
  apply (create_tail_stored args AUDIO_PRO_DIR text n SENTENCES_FILE SENTENCES_FIELDS
           [text; n] (mkSentence (Some text) (Some n)) existing w).
  eapply csv_not_an_artifact; try done; reflexivity.
Qed.

Lemma interactive_loop_cons {E : Type} (add : str → list E → IO (EntryResult * list E))
    line inputs ex w :
  interactive_loop add (Typed line :: inputs) ex w =
  if is_done (strip line) then (ex, w)
  else
    let r := for_each (λ entry_str ex, r ← add entry_str ex; mret r.2)
               (entries_on_line (strip line)) ex w in
    interactive_loop add inputs r.1 r.2.
Proof.
  cbn [interactive_loop]. destruct (is_done (strip line)); [done|].
  cbv zeta. unfold mbind, IO_bind. by destruct (for_each _ _ ex w).
Qed.

Lemma interactive_loop_inv {E : Type} (add : str → list E → IO (EntryResult * list E))
    (I : list E → World → Prop) :
  (∀ s ex w, I ex w → I (add s ex w).1.2 (add s ex w).2) →
  ∀ inputs ex w, I ex w →
    I (interactive_loop add inputs ex w).1 (interactive_loop add inputs ex w).2.
Proof.
  intros Hadd.
  assert (Hfor : ∀ entries ex w, I ex w →
    I (for_each (λ entry_str ex, r ← add entry_str ex; mret r.2) entries ex w).1
      (for_each (λ entry_str ex, r ← add entry_str ex; mret r.2) entries ex w).2).
  { induction entries as [|s entries IH]; intros ex w Hi; [done|].
    rewrite for_each_cons. apply IH.
    unfold mbind, IO_bind, mret, IO_ret.
    specialize (Hadd s ex w Hi). by destruct (add s ex w) as [[r ex1] w1]. }
  induction inputs as [|[line|] inputs IH]; intros ex w Hi; [done| |done].
  rewrite interactive_loop_cons. destruct (is_done (strip line)); [done|].
  cbv zeta. apply IH. by apply Hfor.
Qed.


Lemma sweep_idle args dir entries w :
  (∀ p, p ∈ expected_paths args dir entries → is_Some (fs w !! p)) →
  let r := sweep args dir entries w in
  fs r.2 = fs w ∧ http r.2 = http w
  ∧ individual_files_generated (counters r.1) = 0
  ∧ individual_files_failed_generation (counters r.1) = 0.
Proof.
  intros Hall. cbv zeta.
  destruct (sweep_summary args dir entries w) as (evs & S & _).
  destruct S as [L C Fa Ge It A B Sk M P D]. cbn in Fa, Ge.
  destruct (D Hall) as (Hfs & Hh & _ & Hf & Hg & _).
  split; [done|]. split; [done|]. split; lia.
Qed.

Lemma Stored_idle {E : Type} args dir file fieldnames row (e : E) n existing w res
    existing' w' key w2 :
  Stored args dir file fieldnames row e n existing w res existing' w' →
  res = Added n → fs w2 = fs w' →
  let r := sweep args dir [(key, Some n)] w2 in
  fs r.2 = fs w2 ∧ http r.2 = http w2
  ∧ individual_files_generated (counters r.1) = 0
  ∧ individual_files_failed_generation (counters r.1) = 0.
Proof.
  intros St Hres Hfs. apply sweep_idle. intros p Hp.
  destruct (so_added _ _ _ _ _ _ _ _ _ _ _ _ St Hres) as (_ & Hall & _).
  unfold expected_paths in Hp. cbn in Hp. rewrite app_nil_r in Hp.
  unfold entry_paths in Hp. cbn [snd default] in Hp.
  destruct (complete (key, Some n)); [|by apply elem_of_nil in Hp].
  rewrite Hfs. destruct (Hall p Hp) as (d & Hd & _). by exists d.
Qed.

(** X6: an entry is reported as added only when each of the three
    artifact files of its stored name is on the disk and holds audio; a
    sweep over the stored name run on that disk then finds nothing to
    generate, makes no request and fails on nothing. *)
Theorem added_entry_has_all_artifacts args entry_str vocab sentences w n key w2 :
  let rw := add_word args entry_str vocab w in
  let rs := add_sentence args entry_str sentences w in
  (rw.1.1 = Added n →
     (∀ p, p ∈ speed_paths AUDIO_CHAR_DIR n (speeds_to_generate args) →
           audible (fs rw.2) p)
     ∧ (fs w2 = fs rw.2 →
        let r := sweep args AUDIO_CHAR_DIR [(key, Some n)] w2 in
        fs r.2 = fs w2 ∧ http r.2 = http w2
        ∧ individual_files_generated (counters r.1) = 0
        ∧ individual_files_failed_generation (counters r.1) = 0))
  ∧ (rs.1.1 = Added n →
       (∀ p, p ∈ speed_paths AUDIO_PRO_DIR n (speeds_to_generate args) →
             audible (fs rs.2) p)
       ∧ (fs w2 = fs rs.2 →
          let r := sweep args AUDIO_PRO_DIR [(key, Some n)] w2 in
          fs r.2 = fs w2 ∧ http r.2 = http w2
          ∧ individual_files_generated (counters r.1) = 0
          ∧ individual_files_failed_generation (counters r.1) = 0)).
Proof.
  cbv zeta. split.
  - intros Hres.
    destruct (add_word_cases args entry_str vocab w)
      as [[Heq _] | [[Heq _] | (c & p & m & i & n' & _ & _ & _ & _ & St)]].
    1,2: rewrite Heq in Hres; discriminate.
    assert (n' = n) as ->.
    { destruct (so_res _ _ _ _ _ _ _ _ _ _ _ _ St) as [Hr | Hr];
        rewrite Hr in Hres; congruence. }
    split.
    + by destruct (so_added _ _ _ _ _ _ _ _ _ _ _ _ St Hres) as (_ & Hall & _).
    + intros Hfs. by apply (Stored_idle _ _ _ _ _ _ _ _ _ _ _ _ key w2 St).
  - intros Hres.
    destruct (add_sentence_cases args entry_str sentences w)
      as [[Heq _] | [[Heq _] | (t & i & n' & _ & _ & _ & _ & St)]].
    1,2: rewrite Heq in Hres; discriminate.
    assert (n' = n) as ->.
    { destruct (so_res _ _ _ _ _ _ _ _ _ _ _ _ St) as [Hr | Hr];
        rewrite Hr in Hres; congruence. }
    split.
    + by destruct (so_added _ _ _ _ _ _ _ _ _ _ _ _ St Hres) as (_ & Hall & _).
    + intros Hfs. by apply (Stored_idle _ _ _ _ _ _ _ _ _ _ _ _ key w2 St).
Qed.

(** X7: an entry that was added is refused as a duplicate when it is
    entered again, whatever the endpoint and the disk would do: the
    second time nothing is synthesized, written or appended, and the
    list stays as it is. *)
Theorem entry_cannot_be_added_twice args entry_str vocab sentences w w2 n :
  let rw := add_word args entry_str vocab w in
  let rs := add_sentence args entry_str sentences w in
  (rw.1.1 = Added n →
   add_word args entry_str rw.1.2 w2 = ((Duplicate, rw.1.2), w2))
  ∧ (rs.1.1 = Added n →
     add_sentence args entry_str rs.1.2 w2 = ((Duplicate, rs.1.2), w2)).
Proof.
  cbv zeta. split.
  - intros Hres.
    destruct (add_word_cases args entry_str vocab w)
      as [[Heq _] | [[Heq _] | (c & p & m & i & n' & Hparts & _ & _ & _ & St)]].
    1,2: rewrite Heq in Hres; discriminate.
    assert (n' = n) as ->.
    { destruct (so_res _ _ _ _ _ _ _ _ _ _ _ _ St) as [Hr | Hr];
        rewrite Hr in Hres; congruence. }
    destruct (so_added _ _ _ _ _ _ _ _ _ _ _ _ St Hres) as (Hex & _).
    destruct (add_word_cases args entry_str (add_word args entry_str vocab w).1.2 w2)
      as [[_ Hlen] | [[Heq _] | (c' & p' & m' & i' & n' & Hparts' & Hnew & _)]].
    + by rewrite Hparts in Hlen.
    + done.
    + exfalso. apply Hnew. rewrite Hparts in Hparts'. injection Hparts' as <- <- <- <-.
      rewrite Hex, fmap_app. apply elem_of_app. right. by apply list_elem_of_singleton.
  - intros Hres.
    destruct (add_sentence_cases args entry_str sentences w)
      as [[Heq _] | [[Heq _] | (t & i & n' & Hparts & _ & _ & _ & St)]].
    1,2: rewrite Heq in Hres; discriminate.
    assert (n' = n) as ->.
    { destruct (so_res _ _ _ _ _ _ _ _ _ _ _ _ St) as [Hr | Hr];
        rewrite Hr in Hres; congruence. }
    destruct (so_added _ _ _ _ _ _ _ _ _ _ _ _ St Hres) as (Hex & _).
    destruct (add_sentence_cases args entry_str
                (add_sentence args entry_str sentences w).1.2 w2)
      as [[_ Hlen] | [[Heq _] | (t' & i' & n' & Hparts' & Hnew & _)]].
    + by rewrite Hparts in Hlen.
    + done.
    + exfalso. apply Hnew. rewrite Hparts in Hparts'. injection Hparts' as <- <-.
      rewrite Hex, fmap_app. apply elem_of_app. right. by apply list_elem_of_singleton.
Qed.


(** X9: a save that raises after the file was opened leaves what had
    reached the disk: the path is not among the generated paths, so the
    clean-up deletes nothing and the half-written file of the first
    speed stays, while the entry is not saved. *)
Theorem half_written_file_is_left_behind args entry_str vocab w char pin meaning idea
    part rest :
  strip <$> split_on 124 entry_str = [char; pin; meaning; idea] →
  (Some char ∉ character <$> vocab) →
  audio_ok (audio_of_reply (next_reply w)) = true →
  writes w = WriteFails (Some part) :: rest →
  let rw := add_word args entry_str vocab w in
  ∃ n, word_filename vocab pin idea = Some n
       ∧ rw.1.1 = NotSaved n
       ∧ rw.1.2 = vocab
       ∧ fs rw.2 = <[variant_path AUDIO_CHAR_DIR n DEFAULT_SPEED_SUFFIX := part]> (fs w)
       ∧ removed (new_events w rw.2) = [].
Proof.
  intros Hparts Hnew Ha Hw. cbv zeta.
  destruct (word_filename_spec vocab pin idea) as (n & Hn & _).
  exists n. split; [done|].
  unfold add_word. rewrite Hparts.
  assert (Hdup : existsb (λ voc_entry, bool_decide (character voc_entry = Some char)) vocab
                 = false).
  { destruct (existsb _ vocab) eqn:E; [|done]. exfalso. apply Hnew.
    apply existsb_exists in E as (v & Hv & Hc).
    apply bool_decide_eq_true in Hc. apply list_elem_of_fmap. exists v.
    split; [done | by apply list_elem_of_In]. }
  set (w' := mkWorld (<[variant_path AUDIO_CHAR_DIR n DEFAULT_SPEED_SUFFIX := part]> (fs w))
               (tail (http w)) rest (removes w) (appends w)
               (log w ++ [EvTts char (kokoro_speed args) (audio_of_reply (next_reply w));
                          EvWrite (variant_path AUDIO_CHAR_DIR n DEFAULT_SPEED_SUFFIX)
                            (WriteFails (Some part))])).
  assert (Heq : generate_all args AUDIO_CHAR_DIR char n (speeds_to_generate args) [] w
                = ((false, []), w')).
  { unfold speeds_to_generate. rewrite generate_all_cons. cbv zeta.
    rewrite Ha, Hw. done. }
  rewrite Hdup, Hn. unfold mbind, IO_bind. rewrite Heq.
  unfold cleanup. cbn [for_each]. unfold mret, IO_ret. cbn [fst snd].
  split; [done|]. split; [done|]. split; [done|].
  unfold new_events, w'. cbn [log]. by rewrite drop_app_length.
Qed.

Lemma word_session_frame args vocab inputs w q :
  q ≠ VOCAB_FILE →
  (∀ n, stored_name n → q ∉ speed_paths AUDIO_CHAR_DIR n (speeds_to_generate args)) →
  fs (update_word_vocab_interactive args vocab inputs w).2 !! q = fs w !! q.
Proof.
  intros Hne Hq. unfold update_word_vocab_interactive.
  apply (interactive_loop_inv (add_word args) (λ _ w', fs w' !! q = fs w !! q));
    [|done].
  intros s ex w1 Hi.
  destruct (add_word_cases args s ex w1)
    as [[Heq _] | [[Heq _] | (c & p & m & i & n & _ & _ & _ & Hn & St)]].
  1,2: by rewrite Heq.
  rewrite (so_frame _ _ _ _ _ _ _ _ _ _ _ _ St); [done | by apply Hq | done].
Qed.

Lemma sentence_session_frame args sentences inputs w q :
  q ≠ SENTENCES_FILE →
  (∀ n, stored_name n → q ∉ speed_paths AUDIO_PRO_DIR n (speeds_to_generate args)) →
  fs (update_sentence_vocab_interactive args sentences inputs w).2 !! q = fs w !! q.
Proof.
  intros Hne Hq. unfold update_sentence_vocab_interactive.
  apply (interactive_loop_inv (add_sentence args) (λ _ w', fs w' !! q = fs w !! q));
    [|done].
  intros s ex w1 Hi.
  destruct (add_sentence_cases args s ex w1)
    as [[Heq _] | [[Heq _] | (t & i & n & _ & _ & _ & Hn & St)]].
  1,2: by rewrite Heq.
  rewrite (so_frame _ _ _ _ _ _ _ _ _ _ _ _ St); [done | by apply Hq | done].
Qed.

(** X10: a session of either flow changes no file but its own CSV file
    and artifact files of names of the stored form in its own
    directory: every other path holds at the end what it held at the
    start, the other flow's CSV file among them. *)
Theorem session_touches_only_its_files args vocab sentences inputs w q :
  let rw := update_word_vocab_interactive args vocab inputs w in
  let rs := update_sentence_vocab_interactive args sentences inputs w in
  (q ≠ VOCAB_FILE →
   (∀ n, stored_name n → q ∉ speed_paths AUDIO_CHAR_DIR n (speeds_to_generate args)) →
   fs rw.2 !! q = fs w !! q)
  ∧ (q ≠ SENTENCES_FILE →
     (∀ n, stored_name n → q ∉ speed_paths AUDIO_PRO_DIR n (speeds_to_generate args)) →
     fs rs.2 !! q = fs w !! q)
  ∧ fs rw.2 !! SENTENCES_FILE = fs w !! SENTENCES_FILE
  ∧ fs rs.2 !! VOCAB_FILE = fs w !! VOCAB_FILE.
Proof.
  cbv zeta.
  split; [apply word_session_frame|]. split; [apply sentence_session_frame|]. split.
  - apply word_session_frame; [done|]. intros n Hn.
    eapply csv_not_an_artifact; try done; reflexivity.
  - apply sentence_session_frame; [done|]. intros n Hn.
    eapply csv_not_an_artifact; try done; reflexivity.
Qed.


Lemma tail_all_true (l : list bool) :
  Forall (λ b, b = true) l → Forall (λ b, b = true) (tail l).
Proof. destruct l; [done|]. by intros [_ ?]%Forall_cons. Qed.

Lemma in_step_add {E : Type} args dir file fieldnames (row_of : E → list str) row e n
    loaded w0 existing w res existing' w' :
  row_of e = row →
  Stored args dir file fieldnames row e n existing w res existing' w' →
  in_step file fieldnames row_of loaded w0 existing w →
  in_step file fieldnames row_of loaded w0 existing' w'.
Proof.
  intros Hrow St [Hap (added & Hex & Hfile)].
  destruct (so_res _ _ _ _ _ _ _ _ _ _ _ _ St) as [Hres | Hres].
  - destruct (so_added _ _ _ _ _ _ _ _ _ _ _ _ St Hres) as (Hex' & _ & Hfile' & Hap').
    split; [rewrite Hap'; by apply tail_all_true|].
    exists (added ++ [e]). split; [by rewrite Hex', Hex, app_assoc|].
    assert (Hok : next_append_ok w = true).
    { unfold next_append_ok. destruct (appends w) as [|b l]; [done|].
      by apply Forall_cons in Hap as [-> _]. }
    rewrite Hok in Hfile'. rewrite Hfile', Hfile.
    rewrite fmap_app. cbn [fmap list_fmap]. rewrite Hrow.
    destruct added as [|a added].
    + done.
    + cbn [default app]. by rewrite <- appended_to_snoc.
  - destruct (so_not_saved _ _ _ _ _ _ _ _ _ _ _ _ St Hres) as (-> & Hfile' & Hap').
    split; [by rewrite Hap'|]. exists added. by rewrite Hfile'.
Qed.

Lemma word_session_in_step args vocab inputs w :
  Forall (λ b, b = true) (appends w) →
  in_step VOCAB_FILE VOCAB_FIELDS vocab_row vocab w
    (update_word_vocab_interactive args vocab inputs w).1
    (update_word_vocab_interactive args vocab inputs w).2.
Proof.
  intros Hap. unfold update_word_vocab_interactive.
  apply (interactive_loop_inv (add_word args)
           (in_step VOCAB_FILE VOCAB_FIELDS vocab_row vocab w)).
  - intros s ex w1 Hi.
    destruct (add_word_cases args s ex w1)
      as [[Heq _] | [[Heq _] | (c & p & m & i & n & _ & _ & _ & Hn & St)]].
    1,2: by rewrite Heq.
    by apply (in_step_add _ _ _ _ _ _ _ _ _ _ _ _ _ _ _ eq_refl St).
  - split; [done|]. exists []. by rewrite app_nil_r.
Qed.

Lemma sentence_session_in_step args sentences inputs w :
  Forall (λ b, b = true) (appends w) →
  in_step SENTENCES_FILE SENTENCES_FIELDS sentence_row sentences w
    (update_sentence_vocab_interactive args sentences inputs w).1
    (update_sentence_vocab_interactive args sentences inputs w).2.
Proof.
  intros Hap. unfold update_sentence_vocab_interactive.
  apply (interactive_loop_inv (add_sentence args)
           (in_step SENTENCES_FILE SENTENCES_FIELDS sentence_row sentences w)).
  - intros s ex w1 Hi.
    destruct (add_sentence_cases args s ex w1)
      as [[Heq _] | [[Heq _] | (t & i & n & _ & _ & _ & Hn & St)]].
    1,2: by rewrite Heq.
    by apply (in_step_add _ _ _ _ _ _ _ _ _ _ _ _ _ _ _ eq_refl St).
  - split; [done|]. exists []. by rewrite app_nil_r.
Qed.

Lemma word_session_full args vocab inputs w :
  Forall full_word vocab →
  Forall full_word (update_word_vocab_interactive args vocab inputs w).1.
Proof.
  intros Hfull. unfold update_word_vocab_interactive.
  apply (interactive_loop_inv (add_word args) (λ ex _, Forall full_word ex)); [|done].
  intros s ex w1 Hi.
  destruct (add_word_cases args s ex w1)
    as [[Heq _] | [[Heq _] | (c & p & m & i & n & _ & _ & _ & Hn & St)]].
  1,2: by rewrite Heq.
  destruct (so_res _ _ _ _ _ _ _ _ _ _ _ _ St) as [Hres | Hres].
  - destruct (so_added _ _ _ _ _ _ _ _ _ _ _ _ St Hres) as (-> & _).
    apply Forall_app. split; [done|]. repeat constructor; by eexists.
  - by destruct (so_not_saved _ _ _ _ _ _ _ _ _ _ _ _ St Hres) as (-> & _).
Qed.

Lemma sentence_session_full args sentences inputs w :
  Forall full_sentence sentences →
  Forall full_sentence (update_sentence_vocab_interactive args sentences inputs w).1.
Proof.
  intros Hfull. unfold update_sentence_vocab_interactive.
  apply (interactive_loop_inv (add_sentence args) (λ ex _, Forall full_sentence ex));
    [|done].
  intros s ex w1 Hi.
  destruct (add_sentence_cases args s ex w1)
    as [[Heq _] | [[Heq _] | (t & i & n & _ & _ & _ & Hn & St)]].
  1,2: by rewrite Heq.
  destruct (so_res _ _ _ _ _ _ _ _ _ _ _ _ St) as [Hres | Hres].
  - destruct (so_added _ _ _ _ _ _ _ _ _ _ _ _ St Hres) as (-> & _).
    apply Forall_app. split; [done|]. repeat constructor; by eexists.
  - by destruct (so_not_saved _ _ _ _ _ _ _ _ _ _ _ _ St Hres) as (-> & _).
Qed.

(** X11: while every append to the CSV file succeeds, the file and the
    list in memory stay in step through a whole session: the list ends
    as the loaded entries followed by the added ones, and the file as
    its old content, then the header if the file was absent or empty,
    then one row for each added entry, in the order of the list; with
    nothing added the file is as it was. *)
Theorem csv_file_follows_the_list args vocab sentences inputs w :
  Forall (λ b, b = true) (appends w) →
  let rw := update_word_vocab_interactive args vocab inputs w in
  let rs := update_sentence_vocab_interactive args sentences inputs w in
  (∃ added,
     rw.1 = vocab ++ added
     ∧ fs rw.2 !! VOCAB_FILE =
         match added with
         | [] => fs w !! VOCAB_FILE
         | _ => Some (appended_to (default [] (fs w !! VOCAB_FILE)) VOCAB_FIELDS
                        (vocab_row <$> added))
         end)
  ∧ (∃ added,
       rs.1 = sentences ++ added
       ∧ fs rs.2 !! SENTENCES_FILE =
           match added with
           | [] => fs w !! SENTENCES_FILE
           | _ => Some (appended_to (default [] (fs w !! SENTENCES_FILE))
                          SENTENCES_FIELDS (sentence_row <$> added))
           end).
Proof.
  intros Hap. cbv zeta. split.
  - by destruct (word_session_in_step args vocab inputs w Hap) as [_ ?].
  - by destruct (sentence_session_in_step args sentences inputs w Hap) as [_ ?].
Qed.



(** ** Quiz sessions, continued *)

Lemma speed_conf_suffix i conf :
  SPEED_CONFIGURATIONS !! i = Some conf → suffix conf ∈ SUFFIXES.
Proof.
  unfold SPEED_CONFIGURATIONS, SUFFIXES.
  destruct i as [|[|[|i]]]; cbn; intros [= <-]; cbn; set_solver.
Qed.

Lemma play_current_played disk name speed plays p ok :
  play_current_sentence_audio disk name speed plays = Some (Some p, ok) →
  is_Some (disk !! p) ∧ ∃ sfx, sfx ∈ SUFFIXES ∧ p = variant_path AUDIO_PRO_DIR name sfx.
Proof.
  unfold play_current_sentence_audio.
  destruct (SPEED_CONFIGURATIONS !! Z.to_nat speed) as [conf|] eqn:Hc;
    cbn [mbind option_bind]; [|done].
  case_bool_decide as H1.
  - intros [= <- <-]. split; [done|]. exists (suffix conf).
    split; [by eapply speed_conf_suffix | done].
  - change (head default_speed_indices) with (Some 2). cbn [mbind option_bind].
    change (SPEED_CONFIGURATIONS !! 2)
      with (Some (mkSpeedConf DEFAULT_KOKORO_SPEED DEFAULT_SPEED_SUFFIX)).
    cbn [mbind option_bind suffix].
    case_bool_decide as H2; [|done].
    intros [= <- <-]. split; [done|]. exists DEFAULT_SPEED_SUFFIX.
    split; [unfold SUFFIXES; set_solver | done].
Qed.

Lemma play_current_total disk name speed plays :
  (0 ≤ speed < 3)%Z → play_current_sentence_audio disk name speed plays ≠ None.
Proof.
  intros Hs. unfold play_current_sentence_audio.
  assert (Hi : Z.to_nat speed < 3) by lia.
  destruct (Z.to_nat speed) as [|[|[|i]]]; [..|lia]; cbn [mbind option_bind].
  all: change (head default_speed_indices) with (Some 2); cbn.
  all: repeat case_bool_decide; done.
Qed.

Lemma pro_play_events_ok disk loaded item speed plays r :
  item ∈ loaded → sentence_complete item = true →
  play_current_sentence_audio disk (default [] (sentence_audio_file_name item)) speed plays
    = Some r →
  Forall (pro_event_ok disk loaded) (play_events r).
Proof.
  intros Hin Hc Hr. destruct r as [[p|] ok]; cbn; [|by repeat constructor].
  apply play_current_played in Hr as (Hp & sfx & Hs & ->).
  repeat constructor; [done|]. by exists item, sfx.
Qed.

Lemma pro_start_safe disk loaded ready first_draws :
  pro_safe disk loaded (pro_start loaded ready first_draws).
Proof.
  unfold pro_start, pro_safe.
  change (Z.of_nat (default 0 (head default_speed_indices))) with 2%Z.
  destruct (bool_decide (loaded = []) || negb ready); cbn.
  - split; [done|]. split; [lia|]. split; [lia|]. split; [done | constructor].
  - split; [apply shuffle_perm|]. split; [lia|]. split; [lia|]. split; [done|].
    by repeat constructor.
Qed.

Lemma pro_step_safe disk loaded st tr t :
  pro_safe disk loaded (st, tr) →
  pro_safe disk loaded ((pro_step disk st t).1, tr ++ (pro_step disk st t).2).
Proof.
  destruct st as [pc voc idx speed]. unfold pro_safe, pro_step.
  cbn [fst snd pro_pc sentences_vocab current_item_idx current_speed_index].
  change n_speeds with 3%Z.
  intros (Hperm & Hspeed & Hidx & Hpc & Htr).
  assert (Hmem : ∀ item, voc !! idx = Some item → item ∈ loaded).
  { intros item Hitem. rewrite <- Hperm. by eapply list_elem_of_lookup_2. }
  assert (Hlt : ∀ item, voc !! idx = Some item → S idx ≤ length voc).
  { intros item Hitem. by eapply lookup_lt_Some. }
  assert (Hleft : (0 ≤ (speed - 1 + 3) `mod` 3 < 3)%Z) by (apply Z.mod_pos_bound; lia).
  assert (Hright : (0 ≤ (speed + 1) `mod` 3 < 3)%Z) by (apply Z.mod_pos_bound; lia).
  destruct pc.
  - (* PLoop *)
    destruct (voc !! idx) as [item|] eqn:Hitem;
      cbn [fst snd pro_pc sentences_vocab current_item_idx current_speed_index mbind
           option_bind].
    + destruct (negb (truthy (sentence_text item)) || _) eqn:Hinc;
        cbn [fst snd pro_pc sentences_vocab current_item_idx current_speed_index].
      * split; [done|]. split; [done|]. split; [by eapply Hlt|]. split; [done|].
        apply Forall_app. split; [done|]. repeat constructor. by apply Hmem.
      * assert (Hcomp : sentence_complete item = true).
        { unfold sentence_complete. apply orb_false_iff in Hinc as [H1 H2].
          apply negb_false_iff in H1, H2. by rewrite H1, H2. }
        destruct (play_current_sentence_audio _ _ _ _) as [r|] eqn:Hplay;
          cbn [fst snd pro_pc sentences_vocab current_item_idx current_speed_index].
        -- split; [done|]. split; [done|]. split; [done|]. split.
           { destruct r.2; eauto. }
           apply Forall_app. split; [done|].
           constructor; [by apply Hmem|]. constructor; [split; [by apply Hmem | done]|].
           eapply pro_play_events_ok; [by apply Hmem | done | exact Hplay].
        -- split; [done|]. split; [done|]. split; [done|]. split; [done|].
           apply Forall_app. split; [done|].
           constructor; [by apply Hmem|].
           constructor; [split; [by apply Hmem | done] | constructor].
    + cbn. split; [done|]. split; [done|]. split; [done|]. split; [done|].
      by rewrite app_nil_r.
  - (* PConfirm *)
    destruct Hpc as (item & Hitem & Hcomp).
    destruct (answer t); cbn; rewrite app_nil_r; repeat (split; [done|]); try done.
    split; [by eapply Hlt | done].
  - (* PKeys *)
    destruct Hpc as (item & Hitem & Hcomp). rewrite Hitem.
    cbn [mbind option_bind].
    destruct (key t) as [k|]; cbn; [|rewrite app_nil_r; done].
    repeat case_bool_decide;
      try (destruct (play_current_sentence_audio _ _ _ _) as [r|] eqn:Hplay);
      cbn [fst snd pro_pc sentences_vocab current_item_idx current_speed_index];
      rewrite ?app_nil_r.
    all: try (split; [done|]; split; [done|]; split; [done|]; split; [by eauto|];
              first [ done
                    | apply Forall_app; split; [done|];
                      eapply pro_play_events_ok; [by apply Hmem | done | exact Hplay] ]).
    split; [done|]. split; [done|]. split; [done|]. split; [by eauto|].
    apply Forall_app. split; [done|]. repeat constructor; [by apply Hmem | done].
  - (* PReveal *)
    destruct Hpc as (item & Hitem & Hcomp).
    destruct (key t) as [k|]; cbn; [|rewrite app_nil_r; done].
    repeat case_bool_decide; cbn; rewrite app_nil_r; repeat (split; [done|]); try done.
    all: split; [by eapply Hlt | done].
  - (* PAgain *)
    destruct (key t) as [k|]; cbn; [|rewrite app_nil_r; done].
    case_bool_decide; cbn.
    + split; [by rewrite shuffle_perm|]. split; [done|]. split; [lia|]. split; [done|].
      apply Forall_app. split; [done|]. by repeat constructor.
    + destruct (_ || _); cbn; rewrite app_nil_r; done.
  - (* PDone *)
    cbn. by rewrite app_nil_r.
Qed.

(** X12: in the sentence drill, whatever the user presses and whatever
    order the shuffles give, [playsound] is only ever handed a file
    that is on the disk, one of the three artifacts of a loaded entry
    with text and name; only such entries are presented and revealed;
    the speed index stays within the table, so that looking up the
    speed never raises; and the item index never passes the end of the
    list. *)
Theorem sentence_drill_is_safe disk loaded ready first_draws ticks name plays :
  let r := run_dictation_pro disk loaded ready first_draws ticks in
  Forall (pro_event_ok disk loaded) r.2
  ∧ (0 ≤ current_speed_index r.1 < 3)%Z
  ∧ play_current_sentence_audio disk name (current_speed_index r.1) plays ≠ None
  ∧ current_item_idx r.1 ≤ length loaded.
Proof.
  cbv zeta.
  assert (Hs : pro_safe disk loaded (run_dictation_pro disk loaded ready first_draws ticks)).
  { apply (run_inv _ (pro_safe disk loaded));
      [apply pro_start_safe | intros; by apply pro_step_safe]. }
  destruct Hs as (Hperm & Hspeed & Hidx & _ & Htr).
  split; [done|]. split; [done|]. split; [by apply play_current_total|].
  by rewrite <- (Permutation_length Hperm).
Qed.

Lemma word_start_safe disk loaded ready first_draws :
  word_safe disk loaded (word_start loaded ready first_draws).
Proof.
  unfold word_start, word_safe.
  destruct (bool_decide (loaded = []) || negb ready); cbn.
  - split; [done|]. split; [lia|]. split; [done | constructor].
  - split; [apply shuffle_perm|]. split; [lia|]. split; [done|].
    by repeat constructor.
Qed.

Lemma word_step_safe disk loaded st tr t :
  word_safe disk loaded (st, tr) →
  word_safe disk loaded ((word_step disk st t).1, tr ++ (word_step disk st t).2).
Proof.
  destruct st as [pc voc idx]. unfold word_safe, word_step.
  cbn [fst snd word_pc vocab current_idx].
  intros (Hperm & Hidx & Hpc & Htr).
  assert (Hmem : ∀ item, voc !! idx = Some item → item ∈ loaded).
  { intros item Hitem. rewrite <- Hperm. by eapply list_elem_of_lookup_2. }
  assert (Hlt : ∀ item, voc !! idx = Some item → S idx ≤ length voc).
  { intros item Hitem. by eapply lookup_lt_Some. }
  destruct pc.
  - (* WLoop *)
    destruct (voc !! idx) as [item|] eqn:Hitem; cbn [fst snd word_pc vocab current_idx].
    + destruct (negb (truthy (character item) && _ && _ && _)) eqn:Hinc;
        cbn [fst snd word_pc vocab current_idx].
      * split; [done|]. split; [by eapply Hlt|]. split; [done|].
        apply Forall_app. split; [done|]. repeat constructor. by apply Hmem.
      * apply negb_false_iff in Hinc.
        fold (word_audio item).
        destruct (negb (bool_decide (is_Some (disk !! word_audio item)))) eqn:Hfile;
          cbn [fst snd word_pc vocab current_idx].
        -- split; [done|]. split; [done|]. split; [by apply (Hlt item)|].
           apply Forall_app. split; [done|]. repeat constructor. by apply Hmem.
        -- apply negb_false_iff, bool_decide_eq_true in Hfile.
           split; [done|]. split; [done|]. split.
           { destruct (plays t); eauto. }
           apply Forall_app. split; [done|].
           repeat constructor; try done; try (by apply Hmem).
           exists item. split; [by apply Hmem | done].
    + cbn. split; [done|]. split; [done|]. split; [done|]. by rewrite app_nil_r.
  - (* WSkip *)
    destruct (prompt t); cbn; rewrite app_nil_r; repeat (split; [done|]); done.
  - (* WConfirm *)
    destruct Hpc as (item & Hitem & Hcomp & Hfile).
    destruct (answer t); cbn; rewrite app_nil_r; repeat (split; [done|]); try done.
    split; [by eapply Hlt | done].
  - (* WListen *)
    destruct Hpc as (item & Hitem & Hcomp & Hfile). rewrite Hitem.
    destruct (prompt t); cbn; [|rewrite app_nil_r; done].
    split; [done|]. split; [done|]. split; [by eauto|].
    apply Forall_app. split; [done|]. repeat constructor; try done. by apply Hmem.
  - (* WReveal *)
    destruct Hpc as (item & Hitem & Hcomp & Hfile).
    destruct (prompt t); cbn; [|rewrite app_nil_r; done].
    case_bool_decide; cbn; rewrite app_nil_r; repeat (split; [done|]); try done.
    all: split; [by eapply Hlt | done].
  - (* WAgain *)
    destruct (answer t); cbn.
    + split; [by rewrite shuffle_perm|]. split; [lia|]. split; [done|].
      apply Forall_app. split; [done|]. by repeat constructor.
    + rewrite app_nil_r. done.
  - (* WDone *)
    cbn. by rewrite app_nil_r.
Qed.

(** X13: in the word drill, whatever the user answers and whatever
    order the shuffles give, [playsound] is only ever handed the
    default-speed file of a loaded entry, and that file is on the
    disk; an entry is presented and revealed only if all four of its
    fields are there and its default-speed file is on the disk; and
    the item index never passes the end of the list. *)
Theorem word_drill_is_safe disk loaded ready first_draws ticks :
  let r := run_dictation_practice disk loaded ready first_draws ticks in
  Forall (word_event_ok disk loaded) r.2
  ∧ current_idx r.1 ≤ length loaded.
Proof.
  cbv zeta.
  assert (Hs : word_safe disk loaded
                 (run_dictation_practice disk loaded ready first_draws ticks)).
  { apply (run_inv _ (word_safe disk loaded));
      [apply word_start_safe | intros; by apply word_step_safe]. }
  destruct Hs as (Hperm & Hidx & _ & Htr).
  split; [done|]. by rewrite <- (Permutation_length Hperm).
Qed.











(** ** More on the sweep and the input loop *)

(** X15: the sweep goes by existence alone: when every expected file is
    on the disk, whatever it holds (an empty file included), the sweep
    asks the endpoint nothing, writes nothing and counts every complete
    entry as found. *)
Theorem sweep_judges_by_existence args dir entries w :
  (∀ p, p ∈ expected_paths args dir entries → is_Some (fs w !! p)) →
  let r := sweep args dir entries w in
  fs r.2 = fs w ∧ http r.2 = http w ∧ writes r.2 = writes w
  ∧ requests (new_events w r.2) = 0
  ∧ items_all_speeds_found (counters r.1) = count complete entries
  ∧ items_had_missing_speeds (counters r.1) = 0
  ∧ individual_files_generated (counters r.1) = 0
  ∧ individual_files_failed_generation (counters r.1) = 0.
Proof.
  intros Hall. cbv zeta.
  destruct (sweep_summary args dir entries w) as (evs & S & _).
  destruct (sweep_gentle args dir entries w) as (evs' & G).
  assert (evs' = evs) as ->.
  { rewrite <- (Summary_new_events _ _ _ _ _ _ _ _ S).
    symmetry. apply (new_events_app _ _ _ (gt_log _ _ _ _ _ G)). }
  rewrite (new_events_app _ _ _ (gt_log _ _ _ _ _ G)).
  pose proof (gt_account _ _ _ _ _ G) as Hacc.
  pose proof (gt_requests _ _ _ _ _ G) as Hreq.
  destruct S as [L C Fa Ge It A B Sk M P D]. cbn in Fa, Ge, It.
  destruct (D Hall) as (Hfs & Hh & Hw & Hf & Hg & Hfound). cbn in Hfound.
  repeat split; try done; lia.
Qed.

(** X16: a sweep that reports no failed file leaves every expected file
    on the disk: all three artifacts of every complete entry exist
    when it ends. *)
Theorem clean_sweep_fills_every_file args dir entries w :
  let r := sweep args dir entries w in
  individual_files_failed_generation (counters r.1) = 0 →
  ∀ p, p ∈ expected_paths args dir entries → is_Some (fs r.2 !! p).
Proof.
  cbv zeta. intros Hfail.
  destruct (sweep_summary args dir entries w) as (evs & S & _).
  destruct S as [L C Fa Ge It A B Sk M P D]. cbn in Fa.
  apply P. lia.
Qed.

Lemma interactive_loop_stop {E : Type} (add : str → list E → IO (EntryResult * list E))
    before stop rest ex w :
  stop = Interrupted ∨ (∃ line, stop = Typed line ∧ is_done (strip line) = true) →
  interactive_loop add (before ++ stop :: rest) ex w = interactive_loop add before ex w.
Proof.
  intros Hstop. revert ex w.
  induction before as [|[line|] before IH]; intros ex w.
  - destruct Hstop as [-> | (line & -> & Hdone)]; [done|].
    cbn [app]. by rewrite interactive_loop_cons, Hdone.
  - cbn [app]. rewrite !interactive_loop_cons.
    destruct (is_done (strip line)); [done|]. apply IH.
  - done.
Qed.

(** X17: the input loop of either flow ends at the first line that is,
    blanks around it stripped and in any letter case, [done], [exit] or
    [quit], and at an interrupt or the end of input: nothing typed
    after it is read, and what was added before it stays added: the
    session ends exactly as if the input had stopped there. *)
Theorem input_after_the_end_is_not_read args vocab sentences before stop rest w :
  stop = Interrupted ∨ (∃ line, stop = Typed line ∧ is_done (strip line) = true) →
  update_word_vocab_interactive args vocab (before ++ stop :: rest) w
  = update_word_vocab_interactive args vocab before w
  ∧ update_sentence_vocab_interactive args sentences (before ++ stop :: rest) w
    = update_sentence_vocab_interactive args sentences before w.
Proof.
  intros Hstop. unfold update_word_vocab_interactive, update_sentence_vocab_interactive.
  split; by apply interactive_loop_stop.
Qed.


(** ** What a creation asks and keeps *)

Lemma asked_app a b : asked (a ++ b) = asked a ++ asked b.
Proof. apply omap_app. Qed.

Lemma generate_all_asked args dir text name speeds gp w :
  ∃ evs,
    log (generate_all args dir text name speeds gp w).2 = log w ++ evs
    ∧ asked evs `prefix_of` ((λ sv : str * Q, (text, sv.2)) <$> speeds)
    ∧ ((generate_all args dir text name speeds gp w).1.1 = true →
       asked evs = (λ sv : str * Q, (text, sv.2)) <$> speeds)
    ∧ length (asked evs) = length (saved evs) + failures evs
    ∧ failures evs ≤ 1.
Proof.
  revert gp w. induction speeds as [|[sfx speed] speeds IH]; intros gp w.
  - exists []. cbn. rewrite app_nil_r. repeat split; try done. lia.
  - rewrite generate_all_cons. cbv zeta.
    set (p := variant_path dir name sfx). set (a := audio_of_reply (next_reply w)).
    destruct (audio_ok a) eqn:Ha.
    + destruct (default WriteOk (head (writes w))) as [|o].
      * match goal with |- context [generate_all _ _ _ _ _ ?g ?w1] =>
          destruct (IH g w1) as (evs & L & Hpre & Hall & Hlen & Hone)
        end.
        cbn [log] in L.
        exists (EvTts text speed a :: EvWrite p WriteOk :: evs).
        split; [by rewrite L, <- app_assoc|].
        unfold asked, saved, failures in *.
        cbn [omap list_omap count is_failure fmap list_fmap snd]. rewrite Ha. cbn [negb].
        split; [by apply prefix_cons|].
        split; [intros Hok; by rewrite (Hall Hok)|].
        split; [cbn [length]; lia | lia].
      * exists [EvTts text speed a; EvWrite p (WriteFails o)].
        cbn [log fst snd]. split; [done|].
        unfold asked, saved, failures.
        cbn [omap list_omap count is_failure fmap list_fmap snd]. rewrite Ha. cbn [negb].
        split; [apply prefix_cons, prefix_nil|]. split; [done|]. split; [done | lia].
    + exists [EvTts text speed a]. cbn [log fst snd]. split; [done|].
      unfold asked, saved, failures.
      cbn [omap list_omap count is_failure fmap list_fmap snd]. rewrite Ha. cbn [negb].
      split; [apply prefix_cons, prefix_nil|]. split; [done|]. split; [done | lia].
Qed.

Lemma remove_if_exists_asked p w :
  ∃ evs, log (remove_if_exists p w).2 = log w ++ evs ∧ asked evs = [].
Proof.
  unfold remove_if_exists. io_unfold.
  destruct (bool_decide (is_Some (fs w !! p))); cbv beta iota zeta;
    cbn [fs http writes removes appends log fst snd].
  - destruct (removes w) as [|[|] rm]; cbn [fs http writes removes appends log fst snd];
      eexists; (split; [by rewrite <- app_assoc | done]).
  - by eexists.
Qed.

Lemma cleanup_asked gp w :
  ∃ evs, log (cleanup gp w).2 = log w ++ evs ∧ asked evs = [].
Proof.
  revert w. induction gp as [|p gp IH]; intros w.
  - exists []. by rewrite app_nil_r.
  - rewrite cleanup_cons.
    destruct (remove_if_exists_asked p w) as (e1 & L1 & A1).
    destruct (IH (remove_if_exists p w).2) as (e2 & L2 & A2).
    exists (e1 ++ e2). split; [by rewrite L2, L1, app_assoc|].
    by rewrite asked_app, A1, A2.
Qed.

Lemma create_tail_asking {E : Type} args dir text n file fieldnames row (e : E) existing w :
  Asking args text w
    (create_tail args dir text n file fieldnames row e existing w).1.1
    (create_tail args dir text n file fieldnames row e existing w).2.
Proof.
  unfold create_tail, mbind, IO_bind.
  destruct (generate_all_asked args dir text n (speeds_to_generate args) [] w)
    as (gen & L & Hpre & Hall & Hlen & Hone).
  destruct (generate_all _ _ _ _ _ _ w) as [[ok gp] w1].
  cbn [fst snd] in *. destruct ok.
  - destruct (append_row_log file fieldnames row w1) as (b & okay & La).
    destruct (append_row file fieldnames row w1) as [[] w2].
    cbn [fst snd mret IO_ret] in *.
    assert (Hev : new_events w w2 = gen ++ [EvExists file b; EvAppend file row okay]).
    { apply new_events_app. by rewrite La, L, <- app_assoc. }
    split; rewrite Hev, ?asked_app, ?saved_app, ?failures_app; cbn;
      rewrite ?app_nil_r, ?Nat.add_0_r.
    + done.
    + intros _. by apply Hall.
    + done.
    + done.
  - destruct (cleanup_spec gp w1) as (cl & [Lc Ac (C1 & C2 & C3) G Fc N]).
    destruct (cleanup_asked gp w1) as (cl' & Lc' & Hcl).
    assert (cl' = cl) as -> by (rewrite Lc in Lc'; by apply app_inv_head in Lc').
    destruct (cleanup gp w1) as [[] w2]. cbn [fst snd mret IO_ret] in *.
    assert (Hev : new_events w w2 = gen ++ cl).
    { apply new_events_app. by rewrite Lc, L, <- app_assoc. }
    split; rewrite Hev, ?asked_app, ?saved_app, ?failures_app, ?Hcl, ?C1, ?C3;
      rewrite ?app_nil_r, ?Nat.add_0_r.
    + done.
    + by intros [m [=]].
    + done.
    + done.
Qed.

Lemma Asking_idle args text w res :
  (∀ m, res ≠ Added m) → Asking args text w res w.
Proof.
  intros Hres. split; rewrite new_events_refl; cbn.
  - apply prefix_nil.
  - intros [m ->]. by destruct (Hres m).
  - done.
  - lia.
Qed.

(** X21: creating one entry asks the endpoint for the entry's text
    only, at the three speeds in their order (the command line's speed,
    then 0.7, then 0.5), and stops asking at the first failure: the
    requests are one more than the files saved when something failed
    and exactly the three when the entry is added; a malformed entry or
    a duplicate asks nothing. *)
Theorem create_asks_in_order args entry_str vocab sentences w :
  let rw := add_word args entry_str vocab w in
  let rs := add_sentence args entry_str sentences w in
  (∀ char pin meaning idea,
     strip <$> split_on 124 entry_str = [char; pin; meaning; idea] →
     asked (new_events w rw.2) `prefix_of` all_requests args char
     ∧ ((∃ n, rw.1.1 = Added n) → asked (new_events w rw.2) = all_requests args char)
     ∧ length (asked (new_events w rw.2))
       = length (saved (new_events w rw.2)) + failures (new_events w rw.2)
     ∧ failures (new_events w rw.2) ≤ 1)
  ∧ (∀ text idea,
       strip <$> split_on 124 entry_str = [text; idea] →
       asked (new_events w rs.2) `prefix_of` all_requests args text
       ∧ ((∃ n, rs.1.1 = Added n) → asked (new_events w rs.2) = all_requests args text)
       ∧ length (asked (new_events w rs.2))
         = length (saved (new_events w rs.2)) + failures (new_events w rs.2)
       ∧ failures (new_events w rs.2) ≤ 1)
  ∧ (length (strip <$> split_on 124 entry_str) ≠ 4 → new_events w rw.2 = [])
  ∧ (length (strip <$> split_on 124 entry_str) ≠ 2 → new_events w rs.2 = [])
  ∧ (∀ text, all_requests args text
             = [(text, kokoro_speed args); (text, SLOWER_KOKORO_SPEED);
                (text, EXTRA_SLOW_KOKORO_SPEED)]).
Proof.
  cbv zeta.
  assert (Hw : ∀ char pin meaning idea,
    strip <$> split_on 124 entry_str = [char; pin; meaning; idea] →
    Asking args char w (add_word args entry_str vocab w).1.1
      (add_word args entry_str vocab w).2).
  { intros char pin meaning idea Hparts. unfold add_word. rewrite Hparts.
    destruct (existsb _ vocab); [by apply Asking_idle|].
    destruct (word_filename vocab pin idea) as [n|]; [|by apply Asking_idle].
    apply (create_tail_asking args AUDIO_CHAR_DIR char n VOCAB_FILE VOCAB_FIELDS
             [char; pin; meaning; n]
             (mkVocab (Some char) (Some pin) (Some meaning) (Some n)) vocab w). }
  assert (Hs : ∀ text idea,
    strip <$> split_on 124 entry_str = [text; idea] →
    Asking args text w (add_sentence args entry_str sentences w).1.1
      (add_sentence args entry_str sentences w).2).
  { intros text idea Hparts. unfold add_sentence. rewrite Hparts.
    destruct (existsb _ sentences); [by apply Asking_idle|].
    destruct (sentence_filename sentences idea) as [n|]; [|by apply Asking_idle].
    apply (create_tail_asking args AUDIO_PRO_DIR text n SENTENCES_FILE SENTENCES_FIELDS
             [text; n] (mkSentence (Some text) (Some n)) sentences w). }
  split; [|split; [|split; [|split; [|done]]]].
  - intros char pin meaning idea Hparts. by destruct (Hw _ _ _ _ Hparts).
  - intros text idea Hparts. by destruct (Hs _ _ Hparts).
  - intros Hlen.
    destruct (add_word_cases args entry_str vocab w)
      as [[Heq _] | [[Heq _] | (c & p & m & i & n & Hparts & _)]].
    1,2: rewrite Heq; apply new_events_refl.
    by rewrite Hparts in Hlen.
  - intros Hlen.
    destruct (add_sentence_cases args entry_str sentences w)
      as [[Heq _] | [[Heq _] | (t & i & n & Hparts & _)]].
    1,2: rewrite Heq; apply new_events_refl.
    by rewrite Hparts in Hlen.
Qed.

Lemma stored_artifacts_disjoint dir args n1 n2 p :
  dir ≠ [] → last dir ≠ Some SLASH → stored_name n1 → stored_name n2 →
  p ∈ speed_paths dir n1 (speeds_to_generate args) →
  p ∈ speed_paths dir n2 (speeds_to_generate args) → n1 = n2.
Proof.
  intros Hd Hl (x & -> & Hx) (y & -> & Hy). rewrite !speed_paths_suffixes.
  intros (s1 & -> & Hs1)%list_elem_of_fmap (s2 & Heq & Hs2)%list_elem_of_fmap.
  f_equal. by eapply (artifacts_disjoint dir x y s1 s2).
Qed.

Lemma kept_add {E : Type} args dir file fieldnames row (e : E) (nm : E → option str) n
    loaded existing w res existing' w' c1 c2 d f :
  dir = c1 :: d → file = c2 :: f → c1 ≠ c2 → last dir ≠ Some SLASH →
  nm e = Some n → stored_name n → (Some n ∉ nm <$> existing) →
  Stored args dir file fieldnames row e n existing w res existing' w' →
  kept args dir nm loaded existing w → kept args dir nm loaded existing' w'.
Proof.
  intros Hd Hf Hne Hl He Hn Hfresh St (added & Hex & Hall).
  assert (Hold : ∀ e0, e0 ∈ added →
    ∃ n0, nm e0 = Some n0 ∧ stored_name n0
          ∧ ∀ p, p ∈ speed_paths dir n0 (speeds_to_generate args) → audible (fs w') p).
  { intros e0 He0. destruct (Hall e0 He0) as (n0 & Hn0 & Hs0 & Hfiles).
    exists n0. split; [done|]. split; [done|]. intros p Hp.
    destruct (Hfiles p Hp) as (x & Hx & Hxne). exists x. split; [|done].
    rewrite (so_frame _ _ _ _ _ _ _ _ _ _ _ _ St); [done| |].
    - intros Hp'. apply Hfresh.
      assert (n0 = n) as <-.
      { eapply (stored_artifacts_disjoint dir args n0 n p); try done. by subst. }
      rewrite <- Hn0. apply list_elem_of_fmap. exists e0. split; [done|].
      rewrite Hex. apply elem_of_app. by right.
    - intros ->. by eapply (csv_not_an_artifact dir _ n0 args c1 c2 d f). }
  destruct (so_res _ _ _ _ _ _ _ _ _ _ _ _ St) as [Hres | Hres].
  - destruct (so_added _ _ _ _ _ _ _ _ _ _ _ _ St Hres) as (-> & Hnew & _).
    exists (added ++ [e]). split; [by rewrite Hex, app_assoc|].
    intros e0 [He0 | ->%list_elem_of_singleton]%elem_of_app; [by apply Hold|].
    exists n. done.
  - destruct (so_not_saved _ _ _ _ _ _ _ _ _ _ _ _ St Hres) as (-> & _).
    exists added. done.
Qed.

Lemma word_session_kept args vocab inputs w :
  kept args AUDIO_CHAR_DIR audio_file_name vocab
    (update_word_vocab_interactive args vocab inputs w).1
    (update_word_vocab_interactive args vocab inputs w).2.
Proof.
  unfold update_word_vocab_interactive.
  apply (interactive_loop_inv (add_word args)
           (kept args AUDIO_CHAR_DIR audio_file_name vocab)).
  - intros s ex w1 Hi.
    destruct (add_word_cases args s ex w1)
      as [[Heq _] | [[Heq _] | (c & p & m & i & n & _ & _ & Hname & Hn & St)]].
    1,2: by rewrite Heq.
    destruct (word_filename_spec ex p i) as (n' & Hname' & _ & Hfresh).
    assert (n' = n) as -> by congruence.
    eapply (kept_add args AUDIO_CHAR_DIR VOCAB_FILE); try exact St; try done;
      reflexivity.
  - exists []. split; [by rewrite app_nil_r|]. by intros e ?%elem_of_nil.
Qed.

Lemma sentence_session_kept args sentences inputs w :
  kept args AUDIO_PRO_DIR sentence_audio_file_name sentences
    (update_sentence_vocab_interactive args sentences inputs w).1
    (update_sentence_vocab_interactive args sentences inputs w).2.
Proof.
  unfold update_sentence_vocab_interactive.
  apply (interactive_loop_inv (add_sentence args)
           (kept args AUDIO_PRO_DIR sentence_audio_file_name sentences)).
  - intros s ex w1 Hi.
    destruct (add_sentence_cases args s ex w1)
      as [[Heq _] | [[Heq _] | (t & i & n & _ & _ & Hname & Hn & St)]].
    1,2: by rewrite Heq.
    destruct (sentence_filename_spec ex i) as (n' & Hname' & _ & Hfresh).
    assert (n' = n) as -> by congruence.
    eapply (kept_add args AUDIO_PRO_DIR SENTENCES_FILE); try exact St; try done;
      reflexivity.
  - exists []. split; [by rewrite app_nil_r|]. by intros e ?%elem_of_nil.
Qed.

(** X22: at the end of a session of either flow, whatever failed on the
    way, every entry the session added has a name of the stored form
    and all three of its artifact files on the disk, each holding
    audio: a later entry's files, overwrites and clean-up never touch
    those of an entry added before. *)
Theorem added_entries_keep_their_artifacts args vocab sentences inputs w :
  let rw := update_word_vocab_interactive args vocab inputs w in
  let rs := update_sentence_vocab_interactive args sentences inputs w in
  (∃ added,
     rw.1 = vocab ++ added
     ∧ ∀ e, e ∈ added →
         ∃ n, audio_file_name e = Some n ∧ stored_name n
              ∧ ∀ p, p ∈ speed_paths AUDIO_CHAR_DIR n (speeds_to_generate args) →
                     audible (fs rw.2) p)
  ∧ (∃ added,
       rs.1 = sentences ++ added
       ∧ ∀ e, e ∈ added →
           ∃ n, sentence_audio_file_name e = Some n ∧ stored_name n
                ∧ ∀ p, p ∈ speed_paths AUDIO_PRO_DIR n (speeds_to_generate args) →
                       audible (fs rs.2) p).
Proof.
  cbv zeta. split; [apply word_session_kept | apply sentence_session_kept].
Qed.



End Proofs.

(** * The store read back, and the menus *)

Section StoreProofs.
Context {lib : Lib} {reader : CsvReader}.

Lemma row_get_absent fieldnames row field found :
  field ∉ fieldnames → row_get fieldnames row field found = found.
Proof.
  revert row found. induction fieldnames as [|k ks IH]; intros row found Hf; [done|].
  apply not_elem_of_cons in Hf as [Hk Hks]. cbn [row_get].
  rewrite bool_decide_eq_false_2 by done. by apply IH.
Qed.

Lemma DictReader_rows content fieldnames rows :
  csv_rows content = Some (fieldnames :: rows) →
  DictReader content =
  Some ((λ row field, row_get fieldnames row field None) <$> filter (λ row, row ≠ []) rows).
Proof. intros Hc. unfold DictReader. by rewrite Hc. Qed.

Lemma sweep_all_incomplete args dir entries c w :
  Forall (λ e, complete e = false) entries →
  for_each (ensure_entry args dir) entries c w =
  (mkCounters (items_all_speeds_found c) (items_had_missing_speeds c)
     (individual_files_generated c) (individual_files_failed_generation c)
     (skipped_incomplete_csv c + length entries), w).
Proof.
  revert c. induction entries as [|[key name] entries IH]; intros c Hall.
  - cbn. destruct c. cbn. by rewrite Nat.add_0_r.
  - apply Forall_cons in Hall as [He Hall]. rewrite for_each_cons.
    assert (Hone : ensure_entry args dir (key, name) c w = (count_skipped c, w)).
    { unfold ensure_entry. unfold complete in He. cbn [fst snd] in He.
      destruct (truthy key), (truthy name); done. }
    rewrite Hone. cbn [fst snd]. rewrite IH by done.
    unfold count_skipped. cbn. do 2 f_equal. lia.
Qed.

Lemma sweep_skips_all args dir entries w :
  Forall (λ e, complete e = false) entries →
  sweep args dir entries w =
  (match entries with
   | [] => None
   | _ => Some (mkCounters 0 0 0 0 (length entries))
   end, w).
Proof.
  intros Hall. destruct entries as [|e entries]; [done|].
  unfold sweep, mbind, IO_bind. by rewrite sweep_all_incomplete.
Qed.

(** X18: a vocabulary file whose header has no [audio_file_name] column
    still loads, one entry for every row that is not blank, each
    without a stored name; the sweep then skips them all: it examines
    no file, asks the endpoint nothing, leaves the world as it is, and
    its only count is that of the skipped entries. *)
Theorem rows_without_audio_name_are_skipped args w content fieldnames rows :
  fs w !! VOCAB_FILE = Some content →
  csv_rows content = Some (fieldnames :: rows) →
  (lit "audio_file_name" ∉ fieldnames) →
  let loaded := load_vocab (fs w) in
  let r := ensure_audio_files_exist_run args w in
  length loaded = length (filter (λ row, row ≠ []) rows)
  ∧ (∀ e, e ∈ loaded → audio_file_name e = None)
  ∧ r.2 = w
  ∧ r.1 = match loaded with
          | [] => None
          | _ => Some (mkCounters 0 0 0 0 (length loaded))
          end.
Proof.
  intros Hfile Hrows Hcol. cbv zeta.
  assert (Hload : load_vocab (fs w) =
    (λ row, mkVocab (row_get fieldnames row (lit "character") None)
              (row_get fieldnames row (lit "pinyin") None)
              (row_get fieldnames row (lit "character_meaning") None) None)
      <$> filter (λ row, row ≠ []) rows).
  { unfold load_vocab. rewrite Hfile, (DictReader_rows _ _ _ Hrows).
    rewrite <- list_fmap_compose. apply list_fmap_ext. intros _ row _. cbn.
    by rewrite (row_get_absent fieldnames row (lit "audio_file_name")). }
  assert (Hnone : ∀ e, e ∈ load_vocab (fs w) → audio_file_name e = None).
  { intros e. rewrite Hload. by intros (row & -> & _)%list_elem_of_fmap. }
  split; [by rewrite Hload, length_fmap|]. split; [exact Hnone|].
  unfold ensure_audio_files_exist_run, ensure_audio_files_exist.
  unfold mbind, IO_bind, get_fs.
  rewrite sweep_skips_all.
  - cbn [fst snd]. split; [done|]. rewrite length_fmap.
    by destruct (load_vocab (fs w)).
  - apply Forall_forall. intros x (v & -> & Hv)%list_elem_of_fmap.
    unfold complete. cbn [fst snd]. rewrite (Hnone v Hv). by rewrite andb_false_r.
Qed.

Lemma vocab_row_read_back e :
  full_word e →
  mkVocab (row_get VOCAB_FIELDS (vocab_row e) (lit "character") None)
    (row_get VOCAB_FIELDS (vocab_row e) (lit "pinyin") None)
    (row_get VOCAB_FIELDS (vocab_row e) (lit "character_meaning") None)
    (row_get VOCAB_FIELDS (vocab_row e) (lit "audio_file_name") None) = e.
Proof.
  destruct e as [c p m a]. unfold full_word. cbn.
  intros ([c' ->] & [p' ->] & [m' ->] & [a' ->]). reflexivity.
Qed.

Lemma sentence_row_read_back e :
  full_sentence e →
  mkSentence (row_get SENTENCES_FIELDS (sentence_row e) (lit "sentence_text") None)
    (row_get SENTENCES_FIELDS (sentence_row e) (lit "audio_file_name") None) = e.
Proof.
  destruct e as [t a]. unfold full_sentence. cbn.
  intros ([t' ->] & [a' ->]). reflexivity.
Qed.

Lemma load_vocab_rows disk content (l : list VocabEntry) :
  disk !! VOCAB_FILE = Some content →
  csv_rows content = Some (VOCAB_FIELDS :: (vocab_row <$> l)) →
  Forall full_word l → load_vocab disk = l.
Proof.
  intros Hfile Hrows Hfull. unfold load_vocab.
  rewrite Hfile, (DictReader_rows _ _ _ Hrows).
  rewrite filter_all by (apply Forall_forall; by intros row (e & -> & _)%list_elem_of_fmap).
  rewrite <- !list_fmap_compose.
  rewrite <- (list_fmap_id l) at 2. apply Forall_fmap_ext_1.
  eapply Forall_impl; [exact Hfull|]. intros e He. by apply vocab_row_read_back.
Qed.

Lemma load_sentences_rows disk content (l : list SentenceEntry) :
  disk !! SENTENCES_FILE = Some content →
  csv_rows content = Some (SENTENCES_FIELDS :: (sentence_row <$> l)) →
  Forall full_sentence l → load_sentences disk = l.
Proof.
  intros Hfile Hrows Hfull. unfold load_sentences.
  rewrite Hfile, (DictReader_rows _ _ _ Hrows).
  rewrite filter_all by (apply Forall_forall; by intros row (e & -> & _)%list_elem_of_fmap).
  rewrite <- !list_fmap_compose.
  rewrite <- (list_fmap_id l) at 2. apply Forall_fmap_ext_1.
  eapply Forall_impl; [exact Hfull|]. intros e He. by apply sentence_row_read_back.
Qed.

Lemma word_session_reload args inputs w :
  fs w !! VOCAB_FILE = None → Forall (λ b, b = true) (appends w) →
  let r := update_word_vocab_interactive args [] inputs w in
  csv_rows (appended_to [] VOCAB_FIELDS (vocab_row <$> r.1))
    = Some (VOCAB_FIELDS :: (vocab_row <$> r.1)) →
  load_vocab (fs r.2) = r.1.
Proof.
  intros Hv Hap. cbv zeta.
  destruct (word_session_in_step args [] inputs w Hap) as [_ (added & Hex & Hfile)].
  pose proof (word_session_full args [] inputs w (Forall_nil_2 _)) as Hfull.
  cbn [app] in Hex. rewrite Hex in *. rewrite Hv in Hfile. cbn [default] in Hfile.
  destruct added as [|e added].
  - intros _. unfold load_vocab. by rewrite Hfile.
  - intros Hrows. by eapply load_vocab_rows.
Qed.

Lemma sentence_session_reload args inputs w :
  fs w !! SENTENCES_FILE = None → Forall (λ b, b = true) (appends w) →
  let r := update_sentence_vocab_interactive args [] inputs w in
  csv_rows (appended_to [] SENTENCES_FIELDS (sentence_row <$> r.1))
    = Some (SENTENCES_FIELDS :: (sentence_row <$> r.1)) →
  load_sentences (fs r.2) = r.1.
Proof.
  intros Hs Hap. cbv zeta.
  destruct (sentence_session_in_step args [] inputs w Hap) as [_ (added & Hex & Hfile)].
  pose proof (sentence_session_full args [] inputs w (Forall_nil_2 _)) as Hfull.
  cbn [app] in Hex. rewrite Hex in *. rewrite Hs in Hfile. cbn [default] in Hfile.
  destruct added as [|e added].
  - intros _. unfold load_sentences. by rewrite Hfile.
  - intros Hrows. by eapply load_sentences_rows.
Qed.

Lemma word_session_run args inputs w :
  fs w !! VOCAB_FILE = None →
  update_word_vocab_interactive_run args inputs w
  = update_word_vocab_interactive args [] inputs w.
Proof.
  intros Hv. unfold update_word_vocab_interactive_run, mbind, IO_bind, get_fs.
  unfold load_vocab. by rewrite Hv.
Qed.

Lemma sentence_session_run args inputs w :
  fs w !! SENTENCES_FILE = None →
  update_sentence_vocab_interactive_run args inputs w
  = update_sentence_vocab_interactive args [] inputs w.
Proof.
  intros Hs. unfold update_sentence_vocab_interactive_run, mbind, IO_bind, get_fs.
  unfold load_sentences. by rewrite Hs.
Qed.

(** X19: what a session adds to a fresh store survives a restart: when
    the CSV file did not exist, every append succeeded, and the
    runtime's reader reads the header and the rows back as the writer
    was given them, loading the file after the session gives exactly
    the list the session ended with, entry for entry. *)
Theorem session_survives_reload args inputs w :
  fs w !! VOCAB_FILE = None → fs w !! SENTENCES_FILE = None →
  Forall (λ b, b = true) (appends w) →
  let rw := update_word_vocab_interactive_run args inputs w in
  let rs := update_sentence_vocab_interactive_run args inputs w in
  (csv_rows (appended_to [] VOCAB_FIELDS (vocab_row <$> rw.1))
     = Some (VOCAB_FIELDS :: (vocab_row <$> rw.1)) →
   load_vocab (fs rw.2) = rw.1)
  ∧ (csv_rows (appended_to [] SENTENCES_FIELDS (sentence_row <$> rs.1))
       = Some (SENTENCES_FIELDS :: (sentence_row <$> rs.1)) →
     load_sentences (fs rs.2) = rs.1).
Proof.
  intros Hv Hs Hap. cbv zeta.
  rewrite word_session_run, sentence_session_run by done.
  split; [by apply word_session_reload | by apply sentence_session_reload].
Qed.

Lemma kept_present {E : Type} args dir (nm : E → option str) (key : E → option str)
    (existing : list E) w :
  kept args dir nm [] existing w →
  ∀ p, p ∈ expected_paths args dir ((λ e, (key e, nm e)) <$> existing) →
       is_Some (fs w !! p).
Proof.
  intros (added & Hex & Hall) p Hp. cbn [app] in Hex. subst added.
  unfold expected_paths in Hp.
  apply list_elem_of_bind in Hp as (x & Hp & (e & -> & He)%list_elem_of_fmap).
  unfold entry_paths in Hp. destruct (complete _); [|by apply elem_of_nil in Hp].
  cbn [snd] in Hp. destruct (Hall e He) as (n & Hn & _ & Hfiles).
  rewrite Hn in Hp. cbn [default] in Hp.
  destruct (Hfiles p Hp) as (d & Hd & _). by exists d.
Qed.

(** X23: what a session stores, the next start accepts as it is: when
    the CSV file did not exist, every append succeeded and the reader
    reads the file back as written, the startup sweep run on the disk
    the session left loads exactly the session's list and finds every
    file in place: it asks the endpoint nothing, changes no file and
    counts no generated and no failed file. *)
Theorem startup_after_session_generates_nothing args inputs w w2 :
  fs w !! VOCAB_FILE = None → fs w !! SENTENCES_FILE = None →
  Forall (λ b, b = true) (appends w) →
  let sw := update_word_vocab_interactive_run args inputs w in
  let ss := update_sentence_vocab_interactive_run args inputs w in
  (csv_rows (appended_to [] VOCAB_FIELDS (vocab_row <$> sw.1))
     = Some (VOCAB_FIELDS :: (vocab_row <$> sw.1)) →
   fs w2 = fs sw.2 →
   let r := ensure_audio_files_exist_run args w2 in
   fs r.2 = fs w2 ∧ http r.2 = http w2
   ∧ individual_files_generated (counters r.1) = 0
   ∧ individual_files_failed_generation (counters r.1) = 0)
  ∧ (csv_rows (appended_to [] SENTENCES_FIELDS (sentence_row <$> ss.1))
       = Some (SENTENCES_FIELDS :: (sentence_row <$> ss.1)) →
     fs w2 = fs ss.2 →
     let r := ensure_sentence_audio_files_exist_run args w2 in
     fs r.2 = fs w2 ∧ http r.2 = http w2
     ∧ individual_files_generated (counters r.1) = 0
     ∧ individual_files_failed_generation (counters r.1) = 0).
Proof.
  intros Hv Hs Hap. cbv zeta.
  rewrite word_session_run, sentence_session_run by done. split.
  - intros Hrows Hfs.
    unfold ensure_audio_files_exist_run, mbind, IO_bind, get_fs.
    assert (Hload : load_vocab (fs w2) = (update_word_vocab_interactive args [] inputs w).1)
      by (rewrite Hfs; by apply word_session_reload).
    rewrite Hload. unfold ensure_audio_files_exist. apply sweep_idle. intros p Hp. rewrite Hfs.
    eapply (kept_present args AUDIO_CHAR_DIR audio_file_name character);
      [apply word_session_kept | exact Hp].
  - intros Hrows Hfs.
    unfold ensure_sentence_audio_files_exist_run, mbind, IO_bind, get_fs.
    assert (Hload : load_sentences (fs w2)
                    = (update_sentence_vocab_interactive args [] inputs w).1)
      by (rewrite Hfs; by apply sentence_session_reload).
    rewrite Hload. unfold ensure_sentence_audio_files_exist. apply sweep_idle. intros p Hp. rewrite Hfs.
    eapply (kept_present args AUDIO_PRO_DIR sentence_audio_file_name sentence_text);
      [apply sentence_session_kept | exact Hp].
Qed.


(** ** Menus *)

Lemma main_menu_enter sel moves rest :
  (0 ≤ sel < 4)%Z → Forall arrow moves →
  display_main_menu_from sel (moves ++ KEY_ENTER :: rest) =
  (λ c, (c, rest)) <$> MAIN_MENU_CHOICES !! Z.to_nat ((sel + net_moves moves) `mod` 4).
Proof.
  intros Hsel Hmoves. revert sel Hsel.
  induction Hmoves as [|k moves [-> | ->] _ IH]; intros sel Hsel.
  - cbn [app net_moves foldr display_main_menu_from].
    rewrite (bool_decide_eq_false_2 (KEY_ENTER = KEY_UP)) by done.
    rewrite (bool_decide_eq_false_2 (KEY_ENTER = KEY_DOWN)) by done.
    rewrite (bool_decide_eq_true_2 (KEY_ENTER = KEY_ENTER)) by done.
    rewrite Z.add_0_r, Z.mod_small by done.
    assert (sel = 0 ∨ sel = 1 ∨ sel = 2 ∨ sel = 3)%Z as [-> | [-> | [-> | ->]]] by lia;
      reflexivity.
  - cbn [app net_moves foldr display_main_menu_from].
    rewrite (bool_decide_eq_true_2 (KEY_UP = KEY_UP)) by done.
    rewrite (bool_decide_eq_false_2 (KEY_UP = KEY_DOWN)) by done.
    rewrite IH by (apply Z.mod_pos_bound; lia).
    do 3 f_equal. fold (net_moves moves).
    rewrite Zplus_mod_idemp_l.
    replace (sel - 1 + 4 + net_moves moves)%Z
      with (sel + (-1 + net_moves moves) + 1 * 4)%Z by lia.
    by rewrite Z_mod_plus_full.
  - cbn [app net_moves foldr display_main_menu_from].
    rewrite (bool_decide_eq_false_2 (KEY_DOWN = KEY_UP)) by done.
    rewrite (bool_decide_eq_true_2 (KEY_DOWN = KEY_DOWN)) by done.
    rewrite IH by (apply Z.mod_pos_bound; lia).
    do 3 f_equal. fold (net_moves moves).
    rewrite Zplus_mod_idemp_l. f_equal. lia.
Qed.

Lemma start_menu_enter sel moves rest :
  (0 ≤ sel < 2)%Z → Forall arrow moves →
  display_dictation_pro_start_options_from sel (moves ++ KEY_ENTER :: rest) =
  (λ c, (c, rest)) <$> START_CHOICES !! Z.to_nat ((sel + net_moves moves) `mod` 2).
Proof.
  intros Hsel Hmoves. revert sel Hsel.
  induction Hmoves as [|k moves [-> | ->] _ IH]; intros sel Hsel.
  - cbn [app net_moves foldr display_dictation_pro_start_options_from].
    rewrite (bool_decide_eq_false_2 (KEY_ENTER = KEY_UP)) by done.
    rewrite (bool_decide_eq_false_2 (KEY_ENTER = KEY_DOWN)) by done.
    rewrite (bool_decide_eq_true_2 (KEY_ENTER = KEY_ENTER)) by done.
    rewrite Z.add_0_r, Z.mod_small by done.
    assert (sel = 0 ∨ sel = 1)%Z as [-> | ->] by lia; reflexivity.
  - cbn [app net_moves foldr display_dictation_pro_start_options_from].
    rewrite (bool_decide_eq_true_2 (KEY_UP = KEY_UP)) by done.
    rewrite (bool_decide_eq_false_2 (KEY_UP = KEY_DOWN)) by done.
    rewrite IH by (apply Z.mod_pos_bound; lia).
    do 3 f_equal. fold (net_moves moves).
    rewrite Zplus_mod_idemp_l.
    replace (sel - 1 + 2 + net_moves moves)%Z
      with (sel + (-1 + net_moves moves) + 1 * 2)%Z by lia.
    by rewrite Z_mod_plus_full.
  - cbn [app net_moves foldr display_dictation_pro_start_options_from].
    rewrite (bool_decide_eq_false_2 (KEY_DOWN = KEY_UP)) by done.
    rewrite (bool_decide_eq_true_2 (KEY_DOWN = KEY_DOWN)) by done.
    rewrite IH by (apply Z.mod_pos_bound; lia).
    do 3 f_equal. fold (net_moves moves).
    rewrite Zplus_mod_idemp_l. f_equal. lia.
Qed.

Lemma q_is_no_menu_key k :
  lower k = [113%N] → k ≠ KEY_UP ∧ k ≠ KEY_DOWN ∧ k ≠ KEY_ENTER.
Proof. intros Hk. repeat split; intros ->; vm_compute in Hk; discriminate. Qed.

Lemma main_menu_q sel moves k rest :
  Forall arrow moves → lower k = [113%N] →
  display_main_menu_from sel (moves ++ k :: rest) = Some (lit "exit", rest).
Proof.
  intros Hmoves Hk. revert sel.
  induction Hmoves as [|k' moves [-> | ->] _ IH]; intros sel.
  - destruct (q_is_no_menu_key k Hk) as (H1 & H2 & H3).
    cbn [app display_main_menu_from].
    by rewrite !bool_decide_eq_false_2, bool_decide_eq_true_2 by done.
  - cbn [app display_main_menu_from].
    rewrite (bool_decide_eq_true_2 (KEY_UP = KEY_UP)) by done. apply IH.
  - cbn [app display_main_menu_from].
    rewrite (bool_decide_eq_false_2 (KEY_DOWN = KEY_UP)) by done.
    rewrite (bool_decide_eq_true_2 (KEY_DOWN = KEY_DOWN)) by done. apply IH.
Qed.

Lemma start_menu_q sel moves k rest :
  Forall arrow moves → lower k = [113%N] →
  display_dictation_pro_start_options_from sel (moves ++ k :: rest)
  = Some (lit "go_back", rest).
Proof.
  intros Hmoves Hk. revert sel.
  induction Hmoves as [|k' moves [-> | ->] _ IH]; intros sel.
  - destruct (q_is_no_menu_key k Hk) as (H1 & H2 & H3).
    cbn [app display_dictation_pro_start_options_from].
    by rewrite !bool_decide_eq_false_2, bool_decide_eq_true_2 by done.
  - cbn [app display_dictation_pro_start_options_from].
    rewrite (bool_decide_eq_true_2 (KEY_UP = KEY_UP)) by done. apply IH.
  - cbn [app display_dictation_pro_start_options_from].
    rewrite (bool_decide_eq_false_2 (KEY_DOWN = KEY_UP)) by done.
    rewrite (bool_decide_eq_true_2 (KEY_DOWN = KEY_DOWN)) by done. apply IH.
Qed.

(** X20: the cursor of the main menu and of the sentence drill's start
    screen wraps around: after any presses of UP and DOWN, ENTER
    returns the choice at the position that is the number of DOWNs
    less the number of UPs, modulo the number of options, counted
    from the first; and q returns [exit] or [go_back] wherever the
    cursor is.  Keys after the one that chose are not read. *)
Theorem menu_cursor_wraps moves k rest :
  Forall arrow moves →
  display_main_menu (moves ++ KEY_ENTER :: rest)
  = (λ c, (c, rest)) <$> MAIN_MENU_CHOICES !! Z.to_nat (net_moves moves `mod` 4)
  ∧ display_dictation_pro_start_options (moves ++ KEY_ENTER :: rest)
    = (λ c, (c, rest)) <$> START_CHOICES !! Z.to_nat (net_moves moves `mod` 2)
  ∧ (lower k = [113%N] →
     display_main_menu (moves ++ k :: rest) = Some (lit "exit", rest)
     ∧ display_dictation_pro_start_options (moves ++ k :: rest)
       = Some (lit "go_back", rest)).
Proof.
  intros Hmoves. unfold display_main_menu, display_dictation_pro_start_options.
  split; [by rewrite main_menu_enter by (done || lia)|].
  split; [by rewrite start_menu_enter by (done || lia)|].
  intros Hk. split; [by apply main_menu_q | by apply start_menu_q].
Qed.




Lemma update_menu_frame args sel keys inputs w q :
  q ≠ VOCAB_FILE → q ≠ SENTENCES_FILE →
  (∀ n, stored_name n →
        (q ∉ speed_paths AUDIO_CHAR_DIR n (speeds_to_generate args))
        ∧ (q ∉ speed_paths AUDIO_PRO_DIR n (speeds_to_generate args))) →
  fs (handle_update_vocabulary_menu_from args sel keys inputs w).2 !! q = fs w !! q.
Proof.
  intros Hv Hs Hq. revert sel inputs w.
  induction keys as [|key keys IH]; intros sel inputs w; [done|].
  cbn [handle_update_vocabulary_menu_from].
  repeat case_bool_decide; try apply IH; try done.
  destruct (sel =? 0)%Z; [|destruct (sel =? 1)%Z; [|destruct (sel =? 2)%Z]];
    try apply IH; try done.
  - unfold mbind, IO_bind.
    destruct (update_word_vocab_interactive_run args inputs w) as [l w1] eqn:E.
    rewrite IH.
    change w1 with (l, w1).2. rewrite <- E.
    unfold update_word_vocab_interactive_run, mbind, IO_bind, get_fs.
    apply word_session_frame; [done|]. intros n Hn. by destruct (Hq n Hn).
  - unfold mbind, IO_bind.
    destruct (update_sentence_vocab_interactive_run args inputs w) as [l w1] eqn:E.
    rewrite IH.
    change w1 with (l, w1).2. rewrite <- E.
    unfold update_sentence_vocab_interactive_run, mbind, IO_bind, get_fs.
    apply sentence_session_frame; [done|]. intros n Hn. by destruct (Hq n Hn).
Qed.

(** X25: whatever is pressed and typed in the update menu, and however
    many sessions it starts, no file is changed but the two CSV files
    and artifact files of names of the stored form in the two audio
    directories. *)
Theorem update_menu_touches_only_store_files args keys inputs w q :
  q ≠ VOCAB_FILE → q ≠ SENTENCES_FILE →
  (∀ n, stored_name n →
        (q ∉ speed_paths AUDIO_CHAR_DIR n (speeds_to_generate args))
        ∧ (q ∉ speed_paths AUDIO_PRO_DIR n (speeds_to_generate args))) →
  fs (handle_update_vocabulary_menu args keys inputs w).2 !! q = fs w !! q.
Proof. apply update_menu_frame. Qed.


End StoreProofs.

(** * Concrete runs

    Runs on a runtime that knows ASCII only ([ascii_lib]), with the
    command line's default arguments. *)





(** C2 at work: the scenario's word with only its default file on disk;
    the first run generates two files, the second none. *)
Lemma sweep_twice_generates_nothing_witness :
  let w := mkWorld {[lit "audio/characters/hello_default.mp3" := [9]%N]}
             [good_audio [1]%N; good_audio [2]%N] [] [] [] [] in
  let first := startup_sweep (H := ascii_lib) default_args [HELLO] [] w in
  let second := startup_sweep (H := ascii_lib) default_args [HELLO] [] first.2 in
  individual_files_generated (counters first.1.1) = 2
  ∧ fs second.2 = fs first.2
  ∧ generations (new_events first.2 second.2) = 0
  ∧ items_all_speeds_found (counters second.1.1) = 1.
Proof.
  intros w first second.
  destruct (sweep_twice_generates_nothing (H := ascii_lib) default_args [HELLO] [] w
              first.2) as (Hfs & _ & Hgen & _ & _ & Hfound & _).
  - vm_compute. reflexivity.
  - vm_compute. reflexivity.
  - reflexivity.
  - split; [vm_compute; reflexivity|]. split; [exact Hfs|]. split; [exact Hgen|].
    etrans; [exact Hfound|]. vm_compute. reflexivity.
Defined.




(** C7 at work. *)
Lemma sweep_hello_scenario_witness :
  let w := mkWorld {[lit "audio/characters/hello_default.mp3" := [9]%N]}
             [good_audio [1]%N; good_audio [2]%N] [] [] [] [] in
  (ensure_audio_files_exist (H := ascii_lib) default_args [HELLO] w).1
  = Some (mkCounters 0 1 2 0 0).
Proof.
  intros w.
  apply (proj1 (sweep_hello_scenario (H := ascii_lib) default_args [9]%N [1]%N [2]%N
                  (good_audio [1]%N) (good_audio [2]%N) [] [] [] []
                  eq_refl ltac:(discriminate) eq_refl ltac:(discriminate))).
Defined.


(** ** Further runs *)

(** X2 on the name [hello], stored without an extension. *)
Lemma bare_name_shares_artifacts_witness :
  variant_path AUDIO_CHAR_DIR (lit "hello") DEFAULT_SPEED_SUFFIX
  = variant_path AUDIO_CHAR_DIR (lit "hello" ++ MP3) DEFAULT_SPEED_SUFFIX
  ∧ entry_paths default_args AUDIO_CHAR_DIR (Some (lit "hi"), Some (lit "hello"))
    = entry_paths default_args AUDIO_CHAR_DIR (Some (lit "hi"), Some (lit "hello" ++ MP3)).
Proof.
  apply (bare_name_shares_artifacts default_args AUDIO_CHAR_DIR (Some (lit "hi"))
           (lit "hello") DEFAULT_SPEED_SUFFIX).
  - apply Forall_forall. intros c Hc. vm_compute in Hc.
    repeat (apply elem_of_cons in Hc as [-> | Hc]; [split; discriminate|]).
    by apply elem_of_nil in Hc.
  - discriminate.
Defined.


(** X6 on the word of the scenario, added with three good replies. *)
Lemma added_entry_has_all_artifacts_witness :
  let entry_str := [20320; 22909]%N ++ lit "|ni hao|hello|hello" in
  let w := mkWorld ∅ [good_audio [1]%N; good_audio [2]%N; good_audio [3]%N] [] [] [] [] in
  let r := add_word (H := ascii_lib) default_args entry_str [] w in
  r.1.1 = Added (lit "hello.mp3")
  ∧ audible (fs r.2) (lit "audio/characters/hello_slower.mp3").
Proof.
  intros entry_str w r.
  assert (Hres : r.1.1 = Added (lit "hello.mp3")) by (vm_compute; reflexivity).
  split; [exact Hres|].
  destruct (proj1 (added_entry_has_all_artifacts (H := ascii_lib) default_args entry_str
                     [] [] w (lit "hello.mp3") None w) Hres) as [Hall _].
  apply Hall. vm_compute. right. right. left.
Defined.

(** X7 on the same word, entered a second time while the endpoint is
    still willing. *)
Lemma entry_cannot_be_added_twice_witness :
  let entry_str := [20320; 22909]%N ++ lit "|ni hao|hello|hello" in
  let w := mkWorld ∅ (replicate 6 (good_audio [1]%N)) [] [] [] [] in
  let r := add_word (H := ascii_lib) default_args entry_str [] w in
  r.1.1 = Added (lit "hello.mp3")
  ∧ add_word (H := ascii_lib) default_args entry_str r.1.2 r.2 = ((Duplicate, r.1.2), r.2).
Proof.
  intros entry_str w r.
  assert (Hres : r.1.1 = Added (lit "hello.mp3")) by (vm_compute; reflexivity).
  split; [exact Hres|].
  exact (proj1 (entry_cannot_be_added_twice (H := ascii_lib) default_args entry_str
                  [] [] w r.2 (lit "hello.mp3")) Hres).
Defined.


(** X9 with a disk that fails in the middle of the first write. *)
Lemma half_written_file_is_left_behind_witness :
  let entry_str := [20320; 22909]%N ++ lit "|ni hao|hello|hello" in
  let w := mkWorld ∅ [good_audio [1; 2; 3]%N] [WriteFails (Some [1]%N)] [] [] [] in
  let r := add_word (H := ascii_lib) default_args entry_str [] w in
  r.1.1 = NotSaved (lit "hello.mp3")
  ∧ fs r.2 !! lit "audio/characters/hello_default.mp3" = Some [1]%N.
Proof.
  intros entry_str w r.
  destruct (half_written_file_is_left_behind (H := ascii_lib) default_args entry_str [] w
              [20320; 22909]%N (lit "ni hao") (lit "hello") (lit "hello") [1]%N [])
    as (n & Hn & Hres & _ & Hfs & _).
  - vm_compute. reflexivity.
  - by intros ?%elem_of_nil.
  - vm_compute. reflexivity.
  - reflexivity.
  - assert (n = lit "hello.mp3") as ->.
    { vm_compute in Hn. by injection Hn as <-. }
    split; [exact Hres|]. fold r in Hfs. rewrite Hfs. vm_compute. reflexivity.
Defined.


(** X10 with a file of notes beside the store. *)
Lemma session_touches_only_its_files_witness :
  let inputs := [Typed ([20320; 22909]%N ++ lit "|ni hao|hello|hello")] in
  let w := mkWorld {[lit "notes.txt" := [7]%N]} (replicate 3 (good_audio [1]%N))
             [] [] [] [] in
  let r := update_word_vocab_interactive (H := ascii_lib) default_args [] inputs w in
  length r.1 = 1 ∧ fs r.2 !! lit "notes.txt" = Some [7]%N.
Proof.
  intros inputs w r. split; [vm_compute; reflexivity|].
  etrans.
  - apply (proj1 (session_touches_only_its_files (H := ascii_lib) default_args [] []
                    inputs w (lit "notes.txt"))).
    + discriminate.
    + intros n Hn. eapply csv_not_an_artifact; try exact Hn; try reflexivity.
      * discriminate.
      * discriminate.
  - vm_compute. reflexivity.
Defined.

(** X11 on a session that adds two sentences to a store without a
    file. *)
Lemma csv_file_follows_the_list_witness :
  let inputs := [Typed (lit "good day|hi; good night|hi"); Typed (lit "done")] in
  let w := mkWorld ∅ (replicate 6 (good_audio [1]%N)) [] [] [] [] in
  let r := update_sentence_vocab_interactive (H := ascii_lib) default_args [] inputs w in
  fs r.2 !! SENTENCES_FILE
  = Some (lit "sentence_text,audio_file_name" ++ [13; 10]%N
          ++ lit "good day,hi.mp3" ++ [13; 10]%N
          ++ lit "good night,hi_1.mp3" ++ [13; 10]%N)
  ∧ ∃ added,
      r.1 = [] ++ added
      ∧ fs r.2 !! SENTENCES_FILE =
          match added with
          | [] => fs w !! SENTENCES_FILE
          | _ => Some (appended_to (H := ascii_lib) (default [] (fs w !! SENTENCES_FILE))
                         SENTENCES_FIELDS (sentence_row <$> added))
          end.
Proof.
  intros inputs w r. split; [vm_compute; reflexivity|].
  apply (proj2 (csv_file_follows_the_list (H := ascii_lib) default_args [] [] inputs w
                  (Forall_nil_2 _))).
Defined.


(** X15 (existence alone) with an empty file among the three. *)
Lemma sweep_judges_by_existence_witness :
  let w := mkWorld {[lit "audio/characters/hello_default.mp3" := [];
                     lit "audio/characters/hello_slow.mp3" := [1]%N;
                     lit "audio/characters/hello_slower.mp3" := [2]%N]}
             [good_audio [5]%N] [] [] [] [] in
  let r := ensure_audio_files_exist (H := ascii_lib) default_args [HELLO] w in
  r.1 = Some (mkCounters 1 0 0 0 0)
  ∧ http r.2 = [good_audio [5]%N]
  ∧ fs r.2 !! lit "audio/characters/hello_default.mp3" = Some [].
Proof.
  intros w r. split; [vm_compute; reflexivity|].
  destruct (sweep_judges_by_existence (H := ascii_lib) default_args AUDIO_CHAR_DIR
              [(character HELLO, audio_file_name HELLO)] w) as (Hfs & Hh & _).
  - intros p Hp. vm_compute in Hp.
    repeat (apply elem_of_cons in Hp as [-> | Hp]; [vm_compute; by eexists|]).
    by apply elem_of_nil in Hp.
  - split; [exact Hh|]. unfold r, ensure_audio_files_exist. cbn [fmap list_fmap].
    rewrite Hfs. vm_compute. reflexivity.
Defined.

(** X16 (a clean sweep) on the scenario of the sweep. *)
Lemma clean_sweep_fills_every_file_witness :
  let w := mkWorld {[lit "audio/characters/hello_default.mp3" := [9]%N]}
             [good_audio [1]%N; good_audio [2]%N] [] [] [] [] in
  let r := sweep (H := ascii_lib) default_args AUDIO_CHAR_DIR
             [(character HELLO, audio_file_name HELLO)] w in
  individual_files_failed_generation (counters r.1) = 0
  ∧ is_Some (fs r.2 !! lit "audio/characters/hello_slower.mp3").
Proof.
  intros w r.
  assert (Hfail : individual_files_failed_generation (counters r.1) = 0)
    by (vm_compute; reflexivity).
  split; [exact Hfail|].
  apply (clean_sweep_fills_every_file (H := ascii_lib) default_args AUDIO_CHAR_DIR
           [(character HELLO, audio_file_name HELLO)] w Hfail).
  vm_compute. right. right. left.
Defined.

(** X17 (the end of the input) with [ DONE ] typed before another
    entry. *)
Lemma input_after_the_end_is_not_read_witness :
  let entry := Typed ([20320; 22909]%N ++ lit "|ni hao|hello|hello") in
  let w := mkWorld ∅ (replicate 6 (good_audio [1]%N)) [] [] [] [] in
  update_word_vocab_interactive (H := ascii_lib) default_args []
    ([entry] ++ Typed (lit " DONE ") :: [Typed (lit "x|y|z|w")]) w
  = update_word_vocab_interactive (H := ascii_lib) default_args [] [entry] w.
Proof.
  intros entry w.
  apply (input_after_the_end_is_not_read (H := ascii_lib) default_args [] []).
  right. exists (lit " DONE "). split; [reflexivity | vm_compute; reflexivity].
Defined.

(** X18 (a file without the name column) read with the reader of the
    concrete runs. *)
Lemma rows_without_audio_name_are_skipped_witness :
  let content := lit "character,pinyin" ++ [13; 10]%N
                 ++ [20320; 22909]%N ++ lit ",ni hao" ++ [13; 10]%N in
  let w := mkWorld {[VOCAB_FILE := content]} [good_audio [1]%N] [] [] [] [] in
  let r := ensure_audio_files_exist_run (reader := excel_csv_rows) (lib := ascii_lib)
             default_args w in
  r.1 = Some (mkCounters 0 0 0 0 1) ∧ r.2 = w.
Proof.
  intros content w r.
  destruct (rows_without_audio_name_are_skipped (reader := excel_csv_rows)
              (lib := ascii_lib) default_args w content
              [lit "character"; lit "pinyin"] [[[20320; 22909]%N; lit "ni hao"]])
    as (Hlen & _ & Hw & Hr).
  - vm_compute. reflexivity.
  - vm_compute. reflexivity.
  - intros Hin. vm_compute in Hin.
    repeat (apply elem_of_cons in Hin as [Hin | Hin]; [discriminate Hin|]).
    by apply elem_of_nil in Hin.
  - split; [|exact Hw]. unfold r. rewrite Hr. vm_compute. reflexivity.
Defined.

(** X19 (the restart) on a session that adds one word to a store
    without a file. *)
Lemma session_survives_reload_witness :
  let inputs := [Typed ([20320; 22909]%N ++ lit "|ni hao|hello, you|hello")] in
  let w := mkWorld ∅ (replicate 3 (good_audio [1]%N)) [] [] [] [] in
  let r := update_word_vocab_interactive_run (reader := excel_csv_rows) (lib := ascii_lib)
             default_args inputs w in
  r.1 = [mkVocab (Some [20320; 22909]%N) (Some (lit "ni hao")) (Some (lit "hello, you"))
           (Some (lit "hello.mp3"))]
  ∧ load_vocab (reader := excel_csv_rows) (fs r.2) = r.1.
Proof.
  intros inputs w r. split; [vm_compute; reflexivity|].
  apply (proj1 (session_survives_reload (reader := excel_csv_rows) (lib := ascii_lib)
                  default_args inputs w eq_refl eq_refl (Forall_nil_2 _))).
  vm_compute. reflexivity.
Defined.

(** X20 (the menus): DOWN, DOWN, UP and ENTER choose the second option. *)
Lemma menu_cursor_wraps_witness :
  display_main_menu (lib := ascii_lib) ([KEY_DOWN; KEY_DOWN; KEY_UP] ++ KEY_ENTER :: [])
  = Some (lit "dictation_pro", [])
  ∧ display_dictation_pro_start_options (lib := ascii_lib)
      ([KEY_DOWN; KEY_DOWN; KEY_UP] ++ KEY_ENTER :: [])
    = Some (lit "go_back", []).
Proof.
  destruct (menu_cursor_wraps (lib := ascii_lib) [KEY_DOWN; KEY_DOWN; KEY_UP] [] [])
    as (Hmain & Hstart & _).
  - repeat constructor; by (left + right).
  - split; [exact Hmain | exact Hstart].
Defined.


(** X21 with an endpoint that fails on the second speed: two requests,
    none for the third speed. *)
Lemma create_asks_in_order_witness :
  let entry_str := [20320; 22909]%N ++ lit "|ni hao|hello|hello" in
  let w := mkWorld ∅ [good_audio [1]%N; Reply 500 None []; good_audio [3]%N] [] [] [] [] in
  let r := add_word (H := ascii_lib) default_args entry_str [] w in
  asked (new_events w r.2)
  = [([20320; 22909]%N, DEFAULT_KOKORO_SPEED); ([20320; 22909]%N, SLOWER_KOKORO_SPEED)]
  ∧ http r.2 = [good_audio [3]%N]
  ∧ asked (new_events w r.2) `prefix_of` all_requests default_args [20320; 22909]%N.
Proof.
  intros entry_str w r. split; [vm_compute; reflexivity|].
  split; [vm_compute; reflexivity|].
  destruct (proj1 (create_asks_in_order (H := ascii_lib) default_args entry_str [] [] w)
              [20320; 22909]%N (lit "ni hao") (lit "hello") (lit "hello"))
    as [Hpre _].
  - vm_compute. reflexivity.
  - exact Hpre.
Defined.

(** X22 on a session whose second entry fails and is cleaned up: the
    first entry keeps its three files. *)
Lemma added_entries_keep_their_artifacts_witness :
  let inputs := [Typed (lit "good day|hi; good night|hi")] in
  let w := mkWorld ∅ (replicate 4 (good_audio [1]%N) ++ [Reply 500 None []]) [] [] [] [] in
  let r := update_sentence_vocab_interactive (H := ascii_lib) default_args [] inputs w in
  sentence_audio_file_name <$> r.1 = [Some (lit "hi.mp3")]
  ∧ dom (fs r.2)
    = {[lit "audio/pro/hi_default.mp3"; lit "audio/pro/hi_slow.mp3";
        lit "audio/pro/hi_slower.mp3"; SENTENCES_FILE]}
  ∧ ∃ added,
      r.1 = [] ++ added
      ∧ ∀ e, e ∈ added →
          ∃ n, sentence_audio_file_name e = Some n ∧ stored_name n
               ∧ ∀ p, p ∈ speed_paths AUDIO_PRO_DIR n (speeds_to_generate default_args) →
                      audible (fs r.2) p.
Proof.
  intros inputs w r. split; [vm_compute; reflexivity|].
  split; [vm_compute; reflexivity|].
  apply (proj2 (added_entries_keep_their_artifacts (H := ascii_lib) default_args [] []
                  inputs w)).
Defined.


(** X23 on a session that adds one word to a store without a file, and
    the startup sweep after it, with an endpoint that would answer. *)
Lemma startup_after_session_generates_nothing_witness :
  let inputs := [Typed ([20320; 22909]%N ++ lit "|ni hao|hello, you|hello")] in
  let w := mkWorld ∅ (replicate 4 (good_audio [1]%N)) [] [] [] [] in
  let s := update_word_vocab_interactive_run (reader := excel_csv_rows) (lib := ascii_lib)
             default_args inputs w in
  let r := ensure_audio_files_exist_run (reader := excel_csv_rows) (lib := ascii_lib)
             default_args s.2 in
  r.1 = Some (mkCounters 1 0 0 0 0)
  ∧ http r.2 = [good_audio [1]%N]
  ∧ individual_files_generated (counters r.1) = 0.
Proof.
  intros inputs w s r. split; [vm_compute; reflexivity|].
  destruct (proj1 (startup_after_session_generates_nothing (reader := excel_csv_rows)
                     (lib := ascii_lib) default_args inputs w s.2
                     eq_refl eq_refl (Forall_nil_2 _)))
    as (_ & Hh & Hg & _).
  - vm_compute. reflexivity.
  - reflexivity.
  - split; [|exact Hg]. etrans; [exact Hh|]. vm_compute. reflexivity.
Defined.


(** X25 with a file of notes beside the store. *)
Lemma update_menu_touches_only_store_files_witness :
  let inputs := [Typed ([20320; 22909]%N ++ lit "|ni hao|hello|hello")] in
  let w := mkWorld {[lit "notes.txt" := [7]%N]} (replicate 3 (good_audio [1]%N))
             [] [] [] [] in
  let r := handle_update_vocabulary_menu (reader := excel_csv_rows) (lib := ascii_lib)
             default_args [KEY_ENTER; lit "q"] inputs w in
  is_Some (fs r.2 !! VOCAB_FILE) ∧ fs r.2 !! lit "notes.txt" = Some [7]%N.
Proof.
  intros inputs w r. split; [vm_compute; by eexists|].
  etrans.
  - apply (update_menu_touches_only_store_files (reader := excel_csv_rows)
             (lib := ascii_lib) default_args [KEY_ENTER; lit "q"] inputs w
             (lit "notes.txt")).
    + discriminate.
    + discriminate.
    + intros n Hn. split.
      * eapply csv_not_an_artifact; try exact Hn; try reflexivity; discriminate.
      * eapply csv_not_an_artifact; try exact Hn; try reflexivity; discriminate.
  - vm_compute. reflexivity.
Defined.
